(** * tipoca-stream: batcher pipeline, topic manager and realtime calculator

    A shallow embedding of the Go sources
      - controllers/realtime_calculator.go   (module [Realtime])
      - pkg/redshiftbatcher batch processor   (module [Batcher], with Go's
        path/filepath in module [Filepath])
      - kafka-go/pkg/consumer/manager.go      (module [Manager])
      - cmd/redshiftbatcher/main.go           (module [BatcherMain])
    together with the properties the specification states about them; the
    modules [Scenario] and [RealtimeScenario] hold the concrete scenarios of
    the specification.

    Conventions.  Go's [int64], [int32] and [int] are integers of [Z] with the
    wrap-around of the arithmetic written out ([add64], [sub64]).  A Go
    pointer that may be nil is an [option].  A Go map is a [gmap]; a map
    variable that may be nil is an [option] of a [gmap].  External
    collaborators (the bus watcher, the object store, the signal producer, the
    transformers) are oracles: the fields of a record or of a type class;
    the clock, the random draws and the choices of [select] are scripts the
    functions read from. *)

From Stdlib Require Import ZArith Ascii String DecimalString DecimalZ.
From stdpp Require Import base option list gmap strings fin_maps.

Local Open Scope Z_scope.

(** stdpp's solvers clear hypotheses they have used up more than once. *)
#[local] Set Warnings "-clear-no-such-hyp".

(** String concatenation unfolds on constructors, like the list one. *)
#[local] Arguments String.append !_ _ / : simpl nomatch.

(** ** Machine integers *)

Definition wrap64 (z : Z) : Z := (z + 2 ^ 63) mod 2 ^ 64 - 2 ^ 63.
Definition add64 (a b : Z) : Z := wrap64 (a + b).
Definition sub64 (a b : Z) : Z := wrap64 (a - b).
Definition int64_max : Z := 2 ^ 63 - 1.
Definition int64_min : Z := - 2 ^ 63.
Definition in_int64 (z : Z) : Prop := int64_min <= z <= int64_max.

(** A Go result pair [(value, error)] of an external call: the value, or
    the error with its message. *)
Inductive result (A : Type) :=
| Ok (a : A)
| Err (msg : string).
Arguments Ok {A} a.
Arguments Err {A} msg.

(** ** The realtime calculator (controllers/realtime_calculator.go) *)

Module Realtime.

(** tipocav1.ReleaseCondition: both lags are optional pointers. *)
Record ReleaseCondition := mkReleaseCondition {
  MaxBatcherLag : option Z;
  MaxLoaderLag : option Z;
}.

(** tipocav1.Group: group id and the persisted loader offset. *)
Record Group := mkGroup {
  ID : string;
  LoaderCurrentOffset : option Z;
}.

(** The fields of tipocav1.RedshiftSink the calculator reads or writes.
    [TopicReleaseCondition] is a Go map that may be nil. *)
Record RedshiftSink := mkRedshiftSink {
  Name : string;
  Namespace : string;
  KafkaLoaderTopicPrefix : string;
  SpecReleaseCondition : option ReleaseCondition;
  TopicReleaseCondition : option (gmap string ReleaseCondition);
  StatusTopicGroup : gmap string Group;
}.

Record offsetPosition := mkOffsetPosition {
  last : option Z;
  current : option Z;
}.

Record topicRealtimeInfo := mkInfo {
  lastUpdate : option Z;
  batcher : option offsetPosition;
  loader : option offsetPosition;
  batcherRealtime : bool;
  loaderRealtime : bool;
}.

(** The zero value [topicRealtimeInfo{}]. *)
Definition zeroInfo : topicRealtimeInfo := mkInfo None None None false false.

Record topicLast := mkTopicLast {
  tlTopic : string;
  tlLast : Z;
}.

Section MaxLag.
(** The constants of the controllers package are declared outside the
    files at hand; they are taken as parameters. *)
Variable DefaultMaxBatcherLag : Z.
Variable DefautMaxLoaderLag : Z.

(** Overwrite [cur] when the pointer [p] is not nil. *)
Definition assignIfSet (p : option Z) (cur : Z) : Z :=
  match p with Some v => v | None => cur end.

(** [maxLag]: the locals start at Go's zero value. *)
Definition maxLag (rsk : RedshiftSink) (topic : string) : Z * Z :=
  match SpecReleaseCondition rsk with
  | None => (DefaultMaxBatcherLag, DefautMaxLoaderLag)
  | Some rc =>
      let maxBatcherLag := assignIfSet (MaxBatcherLag rc) 0 in
      let maxLoaderLag := assignIfSet (MaxLoaderLag rc) 0 in
      match TopicReleaseCondition rsk with
      | None => (maxBatcherLag, maxLoaderLag)
      | Some trc =>
          match trc !! topic with
          | None => (maxBatcherLag, maxLoaderLag)
          | Some d =>
              (assignIfSet (MaxBatcherLag d) maxBatcherLag,
               assignIfSet (MaxLoaderLag d) maxLoaderLag)
          end
      end
  end.

(** The precedence as the specification words it: per-topic value, else
    global value, else default, for one lag read through [field]. *)
Definition topicCondition (rsk : RedshiftSink) (topic : string)
  : option ReleaseCondition :=
  trc ← TopicReleaseCondition rsk; trc !! topic.

Definition precedence (field : ReleaseCondition -> option Z) (dflt : Z)
    (rsk : RedshiftSink) (topic : string) : Z :=
  match topicCondition rsk topic ≫= field with
  | Some v => v
  | None =>
      match SpecReleaseCondition rsk ≫= field with
      | Some v => v
      | None => dflt
      end
  end.

Definition maxLag_spec (rsk : RedshiftSink) (topic : string) : Z * Z :=
  (precedence MaxBatcherLag DefaultMaxBatcherLag rsk topic,
   precedence MaxLoaderLag DefautMaxLoaderLag rsk topic).
End MaxLag.

(** Errors of the calculator: the one it formats itself and those it
    passes through from the watcher. *)
Inductive error :=
| ErrLastOffset (topic : string)
| ErrWatcher (msg : string).

(** kafka.Watcher, the bus client of the controller: an interface whose
    implementation is an external collaborator. *)
Record Watcher := mkWatcher {
  Topics : result (list string);
  LastOffset : string -> Z -> result Z;
  CurrentOffset : string -> string -> Z -> result Z;
}.

(** Modelled from the spec: [consumerGroupID] is defined outside the files
    at hand.  The naming convention is
    "{sinkName}-{sinkNamespace}-{groupID}{-batcher|-loader}". *)
Definition consumerGroupID (name namespace groupID suffix : string) : string :=
  name +:+ "-" +:+ namespace +:+ "-" +:+ groupID +:+ suffix.

(** Modelled from the spec: [updateTopicGroup] is defined outside the files
    at hand.  It persists the group record of the topic on the sink's
    status ("persist it to the TopicGroup for future inactivity"). *)
Definition updateTopicGroup (rsk : RedshiftSink) (topic : string) (group : Group)
  : RedshiftSink :=
  mkRedshiftSink (Name rsk) (Namespace rsk) (KafkaLoaderTopicPrefix rsk)
    (SpecReleaseCondition rsk) (TopicReleaseCondition rsk)
    (<[topic := group]> (StatusTopicGroup rsk)).

(** Modelled from the spec: [toMap] is defined outside the files at hand; it
    is only used for membership tests of a topic in a list of topics. *)
Definition toMap (l : list string) : gset string := list_to_set l.

(** [time.Second] in nanoseconds. *)
Definition Second : Z := 1000000000.

(** Modelled from the spec: [cacheValid] is defined outside the files at
    hand.  "A cache entry is valid for a uniformly random interval in
    [120,240) seconds from lastUpdate": the entry is valid while the probe
    time [now] lies before [lastUpdate + validity]; an entry without a
    timestamp is never valid. *)
Definition cacheValid (validity : Z) (lastCachedTime : option Z) (now : Z) : bool :=
  match lastCachedTime with
  | None => false
  | Some t => bool_decide (now < t + validity)
  end.

(** [fetchRealtimeCache]: [draw] is the result of [rand.Intn(120)] and
    [now] the wall clock (UnixNano) read by [cacheValid]. *)
Definition fetchRealtimeCache (cache : gmap string topicRealtimeInfo)
    (draw now : Z) (topic : string) : topicRealtimeInfo * bool :=
  match cache !! topic with
  | None => (zeroInfo, false)
  | Some info =>
      let validSec := draw + 120 in
      if cacheValid (Second * validSec) (lastUpdate info) now
      then (info, true)
      else (zeroInfo, false)
  end.

Definition setBatcher (info : topicRealtimeInfo) (p : offsetPosition) :=
  mkInfo (lastUpdate info) (Some p) (loader info)
    (batcherRealtime info) (loaderRealtime info).
Definition setLoader (info : topicRealtimeInfo) (p : offsetPosition) :=
  mkInfo (lastUpdate info) (batcher info) (Some p)
    (batcherRealtime info) (loaderRealtime info).
Definition setLastUpdate (info : topicRealtimeInfo) (t : Z) :=
  mkInfo (Some t) (batcher info) (loader info)
    (batcherRealtime info) (loaderRealtime info).
Definition setBatcherRealtime (info : topicRealtimeInfo) :=
  mkInfo (lastUpdate info) (batcher info) (loader info) true (loaderRealtime info).
Definition setLoaderRealtime (info : topicRealtimeInfo) :=
  mkInfo (lastUpdate info) (batcher info) (loader info) (batcherRealtime info) true.

(** [fetchRealtimeInfo].  The Go function returns [(info, err)] and may
    update the sink's status through [updateTopicGroup]; the embedding
    returns the three.  [now] is [time.Now().UnixNano()]. *)
Definition fetchRealtimeInfo (w : Watcher) (rsk : RedshiftSink) (now : Z)
    (topic : string) (loaderTopic : option string) (group : Group)
  : topicRealtimeInfo * option error * RedshiftSink :=
  let info := mkInfo (Some now) (Some (mkOffsetPosition None None))
                (Some (mkOffsetPosition None None)) false false in
  match LastOffset w topic 0 with
  | Err _ => (info, Some (ErrLastOffset topic), rsk)
  | Ok batcherLast =>
  let info := setBatcher info (mkOffsetPosition (Some batcherLast) None) in
  match CurrentOffset w
          (consumerGroupID (Name rsk) (Namespace rsk) (ID group) "-batcher")
          topic 0 with
  | Err e => (info, Some (ErrWatcher e), rsk)
  | Ok batcherCurrent =>
  if batcherCurrent =? -1 then (info, None, rsk) else
  let info :=
    setBatcher info (mkOffsetPosition (Some batcherLast) (Some batcherCurrent)) in
  match loaderTopic with
  | None => (info, None, rsk)
  | Some ltopic =>
  match LastOffset w ltopic 0 with
  | Err _ => (info, Some (ErrLastOffset ltopic), rsk)
  | Ok loaderLast =>
  let info := setLoader info (mkOffsetPosition (Some loaderLast) None) in
  match CurrentOffset w
          (consumerGroupID (Name rsk) (Namespace rsk) (ID group) "-loader")
          ltopic 0 with
  | Err e => (info, Some (ErrWatcher e), rsk)
  | Ok loaderCurrent =>
  if loaderCurrent =? -1 then
    match LoaderCurrentOffset group with
    | None => (info, None, rsk)
    | Some old =>
        (setLoader info (mkOffsetPosition (Some loaderLast) (Some old)),
         None, rsk)
    end
  else
    let group := mkGroup (ID group) (Some loaderCurrent) in
    (setLoader info (mkOffsetPosition (Some loaderLast) (Some loaderCurrent)),
     None, updateTopicGroup rsk topic group)
  end end end end end.

(** The calculator object.  [cache] is the process-wide [sync.Map]; the
    reconciler runs one worker at a time, so the map is threaded as state. *)
Record realtimeCalculator := mkCalc {
  rsk : RedshiftSink;
  watcher : Watcher;
  topicGroups : gmap string Group;
  cache : gmap string topicRealtimeInfo;
  batchersRealtime : list string;
  loadersRealtime : list string;
  batchersLast : list topicLast;
  loadersLast : list topicLast;
}.

Definition setRsk (r : realtimeCalculator) (x : RedshiftSink) :=
  mkCalc x (watcher r) (topicGroups r) (cache r) (batchersRealtime r)
    (loadersRealtime r) (batchersLast r) (loadersLast r).
Definition cacheStore (r : realtimeCalculator) (topic : string)
    (info : topicRealtimeInfo) :=
  mkCalc (rsk r) (watcher r) (topicGroups r) (<[topic := info]> (cache r))
    (batchersRealtime r) (loadersRealtime r) (batchersLast r) (loadersLast r).
Definition appendBatchersRealtime (r : realtimeCalculator) (topic : string) :=
  mkCalc (rsk r) (watcher r) (topicGroups r) (cache r)
    (batchersRealtime r ++ [topic]) (loadersRealtime r)
    (batchersLast r) (loadersLast r).
Definition appendLoadersRealtime (r : realtimeCalculator) (ltopic : string) :=
  mkCalc (rsk r) (watcher r) (topicGroups r) (cache r)
    (batchersRealtime r) (loadersRealtime r ++ [ltopic])
    (batchersLast r) (loadersLast r).
Definition appendBatchersLast (r : realtimeCalculator) (x : topicLast) :=
  mkCalc (rsk r) (watcher r) (topicGroups r) (cache r)
    (batchersRealtime r) (loadersRealtime r) (batchersLast r ++ [x]) (loadersLast r).
Definition appendLoadersLast (r : realtimeCalculator) (x : topicLast) :=
  mkCalc (rsk r) (watcher r) (topicGroups r) (cache r)
    (batchersRealtime r) (loadersRealtime r) (batchersLast r) (loadersLast r ++ [x]).

(** The clock and dice readings of one loop iteration of [calculate], in
    program order: [now] of [calculate], the [rand.Intn(120)] draw and the
    clock read inside [cacheValid], the [now] of [fetchRealtimeInfo]. *)
Record tick := mkTick {
  tNow : Z;
  tDraw : Z;
  tProbe : Z;
  tFetch : Z;
}.

Section Calculate.
Variable DefaultMaxBatcherLag : Z.
Variable DefautMaxLoaderLag : Z.

(** "compute realtime", batcher side. *)
Definition batcherSide (maxBatcherLag : Z) (topic : string)
    (st : topicRealtimeInfo * realtimeCalculator)
  : topicRealtimeInfo * realtimeCalculator :=
  let '(info, r) := st in
  match batcher info ≫= last with
  | None => (info, r)
  | Some l =>
      let '(info, r) :=
        match batcher info ≫= current with
        | None => (info, r)
        | Some c =>
            if sub64 l c <=? maxBatcherLag
            then (setBatcherRealtime info, appendBatchersRealtime r topic)
            else (info, r)
        end in
      (info, appendBatchersLast r (mkTopicLast topic l))
  end.

(** "compute realtime", loader side. *)
Definition loaderSide (maxLoaderLag : Z) (ltopic : string)
    (st : topicRealtimeInfo * realtimeCalculator)
  : topicRealtimeInfo * realtimeCalculator :=
  let '(info, r) := st in
  match loader info ≫= last with
  | None => (info, r)
  | Some l =>
      let '(info, r) :=
        match loader info ≫= current with
        | None => (info, r)
        | Some c =>
            if sub64 l c <=? maxLoaderLag
            then (setLoaderRealtime info, appendLoadersRealtime r ltopic)
            else (info, r)
        end in
      (info, appendLoadersLast r (mkTopicLast ltopic l))
  end.

(** From "compute realtime" to the final [r.cache.Store(topic, info)]. *)
Definition computeRealtime (now : Z) (hit : bool) (topic ltopic : string)
    (info : topicRealtimeInfo) (r : realtimeCalculator)
    (realtimeTopics : list string)
  : realtimeCalculator * list string :=
  let '(maxBatcherLag, maxLoaderLag) :=
    maxLag DefaultMaxBatcherLag DefautMaxLoaderLag (rsk r) topic in
  let '(info, r) := batcherSide maxBatcherLag topic (info, r) in
  let '(info, r) := loaderSide maxLoaderLag ltopic (info, r) in
  let realtimeTopics :=
    if batcherRealtime info && loaderRealtime info
    then realtimeTopics ++ [topic] else realtimeTopics in
  let info := if hit then info else setLastUpdate info now in
  (cacheStore r topic info, realtimeTopics).

(** The loader topic of a topic: [ltopic] of [calculate]. *)
Definition loaderTopicName (rsk : RedshiftSink) (group : Group) (topic : string)
  : string :=
  KafkaLoaderTopicPrefix rsk +:+ ID group +:+ "-" +:+ topic.

(** One iteration of the loop over [reloading]. *)
Definition calcTopic (allTopicsMap current : gset string) (tk : tick)
    (topic : string) (acc : realtimeCalculator * list string)
  : realtimeCalculator * list string :=
  let '(r, realtimeTopics) := acc in
  match topicGroups r !! topic with
  | None => (r, realtimeTopics)
  | Some group =>
      let ltopic := loaderTopicName (rsk r) group topic in
      let loaderTopic :=
        if bool_decide (ltopic ∈ allTopicsMap) then Some ltopic else None in
      let now := tNow tk in
      let '(info, hit) :=
        fetchRealtimeCache (cache r) (tDraw tk) (tProbe tk) topic in
      if hit then computeRealtime now true topic ltopic info r realtimeTopics
      else
        let '(info, err, rsk') :=
          fetchRealtimeInfo (watcher r) (rsk r) (tFetch tk) topic loaderTopic group in
        let r := setRsk r rsk' in
        match err with
        | Some _ =>
            if bool_decide (topic ∈ current) then
              let r := cacheStore r topic (mkInfo (Some now) None None true true) in
              let r := appendBatchersRealtime r topic in
              let r := appendLoadersRealtime r ltopic in
              (r, realtimeTopics ++ [topic])
            else computeRealtime now false topic ltopic info r realtimeTopics
        | None => computeRealtime now false topic ltopic info r realtimeTopics
        end
  end.

(** The loop; [i] is the index of the iteration, which selects its clock
    and dice readings. *)
Fixpoint calcLoop (allTopicsMap current : gset string) (ticks : nat -> tick)
    (i : nat) (reloading : list string)
    (acc : realtimeCalculator * list string)
  : realtimeCalculator * list string :=
  match reloading with
  | [] => acc
  | topic :: rest =>
      calcLoop allTopicsMap current ticks (S i) rest
        (calcTopic allTopicsMap current (ticks i) topic acc)
  end.

(** [calculate]: the returned list and the calculator after the call. *)
Definition calculate (ticks : nat -> tick) (r : realtimeCalculator)
    (reloading currentRealtime : list string)
  : list string * realtimeCalculator :=
  match reloading with
  | [] => (currentRealtime, r)
  | _ :: _ =>
      let current := toMap currentRealtime in
      match Topics (watcher r) with
      | Err _ => (currentRealtime, r)
      | Ok allTopics =>
          let '(r', realtimeTopics) :=
            calcLoop (toMap allTopics) current ticks 0 reloading (r, []) in
          (realtimeTopics, r')
      end
  end.
End Calculate.

End Realtime.

(** ** Go's path/filepath and fmt, as far as [constructS3key] uses them

    These are functions of Go's standard library, modelled from its
    documentation for Unix paths (separator '/'). *)

Module Filepath.

Definition isSep (c : ascii) : bool := Ascii.eqb c "/".

(** [strings.Split(s, "/")]: never empty; n separators give n+1 pieces. *)
Fixpoint splitSep (s : string) : list string :=
  match s with
  | EmptyString => [EmptyString]
  | String c rest =>
      if isSep c then EmptyString :: splitSep rest
      else match splitSep rest with
           | [] => [String c EmptyString]
           | x :: xs => String c x :: xs
           end
  end.

(** [strings.Join(elems, "/")]. *)
Definition joinSep (elems : list string) : string := String.concat "/" elems.

Definition rooted (path : string) : bool :=
  match path with
  | String c _ => isSep c
  | EmptyString => false
  end.

(** One path element against the elements kept so far ([out], last element
    first).  Empty and "." elements vanish; ".." removes the element before
    it, is dropped at the root, and is kept at the start of a relative
    path. *)
Definition cleanElem (isRooted : bool) (out : list string) (elem : string)
  : list string :=
  if String.eqb elem "" then out
  else if String.eqb elem "." then out
  else if String.eqb elem ".." then
    match out with
    | top :: below =>
        if String.eqb top ".." then elem :: out else below
    | [] => if isRooted then out else [elem]
    end
  else elem :: out.

(** [filepath.Clean]: the shortest equivalent path; "." for the empty one. *)
Definition Clean (path : string) : string :=
  let isRooted := rooted path in
  let out := fold_left (cleanElem isRooted) (splitSep path) [] in
  let body := joinSep (rev out) in
  let cleaned := if isRooted then String "/" body else body in
  if String.eqb cleaned "" then "." else cleaned.

(** Leading empty elements are ignored by [Join]. *)
Fixpoint dropLeadingEmpty (elem : list string) : list string :=
  match elem with
  | [] => []
  | e :: rest => if String.eqb e "" then dropLeadingEmpty rest else elem
  end.

(** [filepath.Join(elem...)]. *)
Definition Join (elem : list string) : string :=
  match dropLeadingEmpty elem with
  | [] => ""
  | l => Clean (joinSep l)
  end.

(** A string without separator, and a path element proper: a non-empty
    string without separator other than "." and "..". *)
Fixpoint noSep (s : string) : bool :=
  match s with
  | EmptyString => true
  | String c rest => negb (isSep c) && noSep rest
  end.

Definition plainElem (s : string) : bool :=
  noSep s && negb (String.eqb s "") && negb (String.eqb s ".")
    && negb (String.eqb s "..").

(** The verb [%d] of [fmt.Sprintf] on an integer. *)
Definition fmtInt (z : Z) : string := NilZero.string_of_int (Z.to_int z).

End Filepath.

(** ** The batch processor (pkg/redshiftbatcher)

    Logging and the metric setters are not modelled.  The goroutines of one
    round write disjoint [response] slots and are joined by [wg.Wait()] before
    any slot is read; the embedding runs them in slot order. *)

Module Batcher.

(** Modelled from the spec: the operation of a record, "operation ∈ {Create,
    Update, Delete}"; the serializer package that declares it is outside
    the files at hand.  [OperationOther] stands for any other value, which
    the processor treats as fatal. *)
Inductive Operation :=
| OperationCreate
| OperationUpdate
| OperationDelete
| OperationOther (name : string).

Inductive error :=
| ErrSaramaSessionContextDone
| ErrTransformSchema (schemaID : Z) (cause : string)
| ErrSchemaMismatch (topic : string) (batchSchemaID messageSchemaID : Z)
| ErrTransformMessage (cause : string)
| ErrMaskMessage (cause : string)
| ErrMarshal
| ErrS3Write (cause : string)
| ErrSignal (cause : string).

(** What travels on the session's error channel: the error of a signal,
    or the [multierror] collected over a round. *)
Inductive sentError :=
| SentOne (e : error)
| SentMulti (errs : list error).

(** [err == kafka.ErrSaramaSessionContextDone]: comparison with the
    sentinel. *)
Definition isContextDone (e : error) : bool :=
  match e with
  | ErrSaramaSessionContextDone => true
  | _ => false
  end.

(** The fields of [batchProcessor] that the processing reads; [bucket] is
    the bucket of its [s3sink], [maskFileVersion] the configuration value
    "batcher.maskFileVersion". *)
Record batchProcessor := mkBatchProcessor {
  topic : string;
  partition : Z;
  loaderTopicPrefix : string;
  consumerGroupID : string;
  autoCommit : bool;
  bucket : string;
  s3BucketDir : string;
  maskFileVersion : string;
  maskMessages : bool;
  maxConcurrency : Z;
  loaderSchemaID : Z;
  schemaIDKey : Z;
}.

(** The file name of [constructS3key]:
    [fmt.Sprintf("%d_offset_%d_partition.json.gz", offset, partition)]. *)
Definition s3FileName (offset partition : Z) : string :=
  Filepath.fmtInt offset +:+ "_offset_" +:+ Filepath.fmtInt partition
    +:+ "_partition.json.gz".

(** [constructS3key]; the configuration lookup is the argument
    [maskVersion]. *)
Definition constructS3key (maskVersion : string)
    (s3ucketDir consumerGroupID topic : string) (partition offset : Z) : string :=
  let s3FileName := s3FileName offset partition in
  if negb (String.eqb maskVersion "") then
    Filepath.Join [s3ucketDir; consumerGroupID; topic; maskVersion; s3FileName]
  else
    Filepath.Join [s3ucketDir; consumerGroupID; topic; s3FileName].

(** The key as the specification words it:
    {bucketDir}/{consumerGroupID}/{topic}/[{maskVersion}/]{offset}_offset_{partition}_partition.json.gz,
    the mask version segment present iff the version is non-empty. *)
Definition constructS3key_spec (maskVersion : string)
    (s3ucketDir consumerGroupID topic : string) (partition offset : Z) : string :=
  s3ucketDir +:+ "/" +:+ consumerGroupID +:+ "/" +:+ topic +:+ "/"
    +:+ (if String.eqb maskVersion "" then "" else maskVersion +:+ "/")
    +:+ Filepath.fmtInt offset +:+ "_offset_" +:+ Filepath.fmtInt partition
    +:+ "_partition.json.gz".

(** [S3Sink.GetKeyURI]. *)
Definition GetKeyURI (bucket key : string) : string :=
  "s3://" +:+ bucket +:+ "/" +:+ key.

(** A call either yields a value or ends the process ([klog.Fatalf]). *)
Inductive outcome (A : Type) :=
| Val (a : A)
| Fatal (msg : string).
Arguments Val {A} a.
Arguments Fatal {A} msg.

(** The types the processor only passes along: [redshift.Table] with its
    zero value, and the mask descriptors. *)
Class Schema := {
  Table : Type;
  zeroTable : Table;
  MaskInfo : Type;
  ExtraMaskInfo : Type;
}.

Section Data.
Context `{Schema}.

(** [serializer.Message], by the fields the processor uses. *)
Record Message := mkMessage {
  SchemaId : Z;
  Topic : string;
  Partition : Z;
  Offset : Z;
  Value : gmap string (option string);
  Bytes : Z;
  MsgOperation : Operation;
  MaskSchema : gmap string MaskInfo;
  ExtraMaskSchema : gmap string ExtraMaskInfo;
}.

Definition setValue (m : Message) (v : gmap string (option string)) :=
  mkMessage (SchemaId m) (Topic m) (Partition m) (Offset m) v (Bytes m)
    (MsgOperation m) (MaskSchema m) (ExtraMaskSchema m).

Record response := mkResponse {
  err : option error;
  batchID : Z;
  batchSchemaID : Z;
  batchSchemaTable : Table;
  skipMerge : bool;
  createEvents : Z;
  updateEvents : Z;
  deleteEvents : Z;
  s3Key : string;
  bodyBuf : string;
  startOffset : Z;
  endOffset : Z;
  messagesProcessed : Z;
  maskSchema : gmap string MaskInfo;
  extraMaskSchema : gmap string ExtraMaskInfo;
  bytesProcessed : Z;
}.

(** The literal [&response{...}] of [Process]; fields it does not name
    have Go's zero value. *)
Definition newResponse (i : Z) : response :=
  mkResponse None (i + 1) (-1) zeroTable false 0 0 0 "" "" 0 0 0 ∅ ∅ 0.

(** [loader.NewJob(...)]: the load-job record, by its arguments. *)
Record Job := mkJob {
  upstreamTopic : string;
  jobStartOffset : Z;
  jobEndOffset : Z;
  csvDialect : string;
  s3Path : string;
  schemaId : Z;
  schemaIdKey : Z;
  jobMaskSchema : gmap string MaskInfo;
  jobExtraMaskSchema : gmap string ExtraMaskInfo;
  jobSkipMerge : bool;
  batchBytes : Z;
  jobCreateEvents : Z;
  jobUpdateEvents : Z;
  jobDeleteEvents : Z;
}.

(** What the processor does to the outside, in order. *)
Inductive event :=
| EvUpload (batch : Z) (key : string) (body : string) (ok : bool)
| EvSignal (batch : Z) (toTopic : string) (job : Job) (ok : bool)
| EvMarkOffset (topic : string) (partition : Z) (offset : Z)
| EvCommit
| EvSignalerClose
| EvSendErr (e : sentError).

Definition isMark (e : event) : bool :=
  match e with EvMarkOffset _ _ _ => true | _ => false end.
Definition isCommit (e : event) : bool :=
  match e with EvCommit => true | _ => false end.
Definition isUpload (e : event) : bool :=
  match e with EvUpload _ _ _ _ => true | _ => false end.

(** What [select] chose in the read loop of [Process]. *)
Inductive selected :=
| SelDone
| SelBuf (msgBuf : list Message)
| SelTick.

(** The outside as the processor meets it: [polls] answers each look at
    [session.Context().Done()] (true: cancelled) in program order,
    [selects] each [select] of the read loop; [trace] is the log of
    events. *)
Record world := mkWorld {
  polls : list bool;
  selects : list selected;
  trace : list event;
}.

Definition M (A : Type) : Type := world -> outcome A * world.

#[global] Instance M_ret : MRet M := fun A a w => (Val a, w).
#[global] Instance M_bind : MBind M := fun A B f m w =>
  match m w with
  | (Val a, w') => f a w'
  | (Fatal msg, w') => (Fatal msg, w')
  end.

Definition fatal {A : Type} (msg : string) : M A := fun w => (Fatal msg, w).

Definition emit (e : event) : M unit := fun w =>
  (Val tt, mkWorld (polls w) (selects w) (trace w ++ [e])).

(** One look at the session context; an exhausted script means the
    context is live. *)
Definition ctxDone : M bool := fun w =>
  match polls w with
  | [] => (Val false, w)
  | d :: rest => (Val d, mkWorld rest (selects w) (trace w))
  end.

(** Field assignments on a [response]. *)
Definition setErr (r : response) (x : option error) : response :=
  mkResponse x (batchID r) (batchSchemaID r) (batchSchemaTable r) (skipMerge
    r) (createEvents r) (updateEvents r) (deleteEvents r) (s3Key r) (bodyBuf r)
    (startOffset r) (endOffset r) (messagesProcessed r) (maskSchema r)
    (extraMaskSchema r) (bytesProcessed r).
Definition setBatchSchemaID (r : response) (x : Z) : response :=
  mkResponse (err r) (batchID r) x (batchSchemaTable r) (skipMerge r)
    (createEvents r) (updateEvents r) (deleteEvents r) (s3Key r) (bodyBuf r)
    (startOffset r) (endOffset r) (messagesProcessed r) (maskSchema r)
    (extraMaskSchema r) (bytesProcessed r).
Definition setBatchSchemaTable (r : response) (x : Table) : response :=
  mkResponse (err r) (batchID r) (batchSchemaID r) x (skipMerge r)
    (createEvents r) (updateEvents r) (deleteEvents r) (s3Key r) (bodyBuf r)
    (startOffset r) (endOffset r) (messagesProcessed r) (maskSchema r)
    (extraMaskSchema r) (bytesProcessed r).
Definition setSkipMerge (r : response) (x : bool) : response :=
  mkResponse (err r) (batchID r) (batchSchemaID r) (batchSchemaTable r) x
    (createEvents r) (updateEvents r) (deleteEvents r) (s3Key r) (bodyBuf r)
    (startOffset r) (endOffset r) (messagesProcessed r) (maskSchema r)
    (extraMaskSchema r) (bytesProcessed r).
Definition setCreateEvents (r : response) (x : Z) : response :=
  mkResponse (err r) (batchID r) (batchSchemaID r) (batchSchemaTable r)
    (skipMerge r) x (updateEvents r) (deleteEvents r) (s3Key r) (bodyBuf r)
    (startOffset r) (endOffset r) (messagesProcessed r) (maskSchema r)
    (extraMaskSchema r) (bytesProcessed r).
Definition setUpdateEvents (r : response) (x : Z) : response :=
  mkResponse (err r) (batchID r) (batchSchemaID r) (batchSchemaTable r)
    (skipMerge r) (createEvents r) x (deleteEvents r) (s3Key r) (bodyBuf r)
    (startOffset r) (endOffset r) (messagesProcessed r) (maskSchema r)
    (extraMaskSchema r) (bytesProcessed r).
Definition setDeleteEvents (r : response) (x : Z) : response :=
  mkResponse (err r) (batchID r) (batchSchemaID r) (batchSchemaTable r)
    (skipMerge r) (createEvents r) (updateEvents r) x (s3Key r) (bodyBuf r)
    (startOffset r) (endOffset r) (messagesProcessed r) (maskSchema r)
    (extraMaskSchema r) (bytesProcessed r).
Definition setS3Key (r : response) (x : string) : response :=
  mkResponse (err r) (batchID r) (batchSchemaID r) (batchSchemaTable r)
    (skipMerge r) (createEvents r) (updateEvents r) (deleteEvents r) x (bodyBuf
    r) (startOffset r) (endOffset r) (messagesProcessed r) (maskSchema r)
    (extraMaskSchema r) (bytesProcessed r).
Definition setBodyBuf (r : response) (x : string) : response :=
  mkResponse (err r) (batchID r) (batchSchemaID r) (batchSchemaTable r)
    (skipMerge r) (createEvents r) (updateEvents r) (deleteEvents r) (s3Key r) x
    (startOffset r) (endOffset r) (messagesProcessed r) (maskSchema r)
    (extraMaskSchema r) (bytesProcessed r).
Definition setStartOffset (r : response) (x : Z) : response :=
  mkResponse (err r) (batchID r) (batchSchemaID r) (batchSchemaTable r)
    (skipMerge r) (createEvents r) (updateEvents r) (deleteEvents r) (s3Key r)
    (bodyBuf r) x (endOffset r) (messagesProcessed r) (maskSchema r)
    (extraMaskSchema r) (bytesProcessed r).
Definition setEndOffset (r : response) (x : Z) : response :=
  mkResponse (err r) (batchID r) (batchSchemaID r) (batchSchemaTable r)
    (skipMerge r) (createEvents r) (updateEvents r) (deleteEvents r) (s3Key r)
    (bodyBuf r) (startOffset r) x (messagesProcessed r) (maskSchema r)
    (extraMaskSchema r) (bytesProcessed r).
Definition setMessagesProcessed (r : response) (x : Z) : response :=
  mkResponse (err r) (batchID r) (batchSchemaID r) (batchSchemaTable r)
    (skipMerge r) (createEvents r) (updateEvents r) (deleteEvents r) (s3Key r)
    (bodyBuf r) (startOffset r) (endOffset r) x (maskSchema r) (extraMaskSchema
    r) (bytesProcessed r).
Definition setMaskSchema (r : response) (x : gmap string MaskInfo) : response :=
  mkResponse (err r) (batchID r) (batchSchemaID r) (batchSchemaTable r)
    (skipMerge r) (createEvents r) (updateEvents r) (deleteEvents r) (s3Key r)
    (bodyBuf r) (startOffset r) (endOffset r) (messagesProcessed r) x
    (extraMaskSchema r) (bytesProcessed r).
Definition setExtraMaskSchema (r : response) (x : gmap string ExtraMaskInfo) : response :=
  mkResponse (err r) (batchID r) (batchSchemaID r) (batchSchemaTable r)
    (skipMerge r) (createEvents r) (updateEvents r) (deleteEvents r) (s3Key r)
    (bodyBuf r) (startOffset r) (endOffset r) (messagesProcessed r) (maskSchema
    r) x (bytesProcessed r).
Definition setBytesProcessed (r : response) (x : Z) : response :=
  mkResponse (err r) (batchID r) (batchSchemaID r) (batchSchemaTable r)
    (skipMerge r) (createEvents r) (updateEvents r) (deleteEvents r) (s3Key r)
    (bodyBuf r) (startOffset r) (endOffset r) (messagesProcessed r) (maskSchema
    r) (extraMaskSchema r) x.

End Data.

(** The collaborators of the processor: the schema transformer, the message
    transformer and the masker (interfaces of the transformer package),
    [strings.TrimSpace], [json.Marshal], [util.GzipWrite], the object
    store's [Upload] and the signal producer's [Add]; the last two answer
    with the error, if any. *)
Class Collaborators `{Schema} := {
  TransformValue :
    string -> Z -> Z -> gmap string MaskInfo -> gmap string ExtraMaskInfo ->
    result Table;
  Transform : Message -> Table -> result Message;
  MaskTransform : Message -> Table -> result Message;
  TrimSpace : string -> string;
  jsonMarshal : gmap string (option string) -> result string;
  GzipWrite : string -> result string;
  Upload : string -> string -> option string;
  signalerAdd : string -> Z -> Job -> option string;
}.

Section Processor.
Context `{Collaborators}.

(** [removeEmptyNullValues]: drop the columns whose pointer is nil or
    whose trimmed string is empty. *)
Definition removeEmptyNullValues (value : gmap string (option string))
  : gmap string (option string) :=
  omap (fun cVal : option string =>
          match cVal with
          | None => None
          | Some v =>
              if String.eqb (TrimSpace v) "" then None else Some (Some v)
          end) value.

Definition newline : string := String (ascii_of_nat 10) EmptyString.

(** The head of [processMessage]: the first message of a batch (the one
    that finds [s3Key] empty) fixes schema id, table, key and start
    offset. *)
Definition lockSchema (b : batchProcessor) (message : Message) (resp : response)
  : response * option error :=
  if String.eqb (s3Key resp) "" then
    let resp := setBatchSchemaID resp (SchemaId message) in
    match TransformValue (topic b) (batchSchemaID resp) (schemaIDKey b)
            (maskSchema resp) (extraMaskSchema resp) with
    | Err cause => (resp, Some (ErrTransformSchema (batchSchemaID resp) cause))
    | Ok r =>
        let resp := setBatchSchemaTable resp r in
        let resp :=
          setS3Key resp
            (constructS3key (maskFileVersion b) (s3BucketDir b)
               (consumerGroupID b) (Topic message) (Partition message)
               (Offset message)) in
        (setStartOffset resp (Offset message), None)
    end
  else (resp, None).

(** [processMessage]: the response and the message after the call, the
    bytes processed and the error. *)
Definition processMessage (b : batchProcessor) (message : Message)
    (resp : response) : response * Message * Z * option error :=
  match lockSchema b message resp with
  | (resp, Some e) => (resp, message, 0, Some e)
  | (resp, None) =>
  if negb (batchSchemaID resp =? SchemaId message) then
    (resp, message, 0,
     Some (ErrSchemaMismatch (topic b) (batchSchemaID resp) (SchemaId message)))
  else
  match Transform message (batchSchemaTable resp) with
  | Err cause => (resp, message, 0, Some (ErrTransformMessage cause))
  | Ok message =>
  match (if maskMessages b
         then MaskTransform message (batchSchemaTable resp)
         else Ok message) with
  | Err cause => (resp, message, 0, Some (ErrMaskMessage cause))
  | Ok message =>
  let message := setValue message (removeEmptyNullValues (Value message)) in
  match jsonMarshal (Value message) with
  | Err _ => (resp, message, 0, Some ErrMarshal)
  | Ok messageValueBytes =>
  let resp := setBodyBuf resp (bodyBuf resp +:+ messageValueBytes +:+ newline) in
  let bytesProcessed := add64 0 (Bytes message) in
  let resp :=
    if maskMessages b && Nat.eqb (size (maskSchema resp)) 0
    then setMaskSchema resp (MaskSchema message) else resp in
  let resp :=
    if maskMessages b && Nat.eqb (size (extraMaskSchema resp)) 0
    then setExtraMaskSchema resp (ExtraMaskSchema message) else resp in
  let resp := setSkipMerge resp false in
  let resp := setEndOffset resp (Offset message) in
  (resp, message, bytesProcessed, None)
  end end end end.

(** [processMessages]: the loop over the buffer, with the total so far. *)
Fixpoint processMessages (b : batchProcessor) (msgBuf : list Message)
    (resp : response) (totalBytesProcessed : Z)
  : M (response * Z * option error) :=
  match msgBuf with
  | [] => mret (resp, totalBytesProcessed, None)
  | message :: rest =>
      done ← ctxDone;
      if done : bool
      then mret (resp, totalBytesProcessed, Some ErrSaramaSessionContextDone)
      else
        let '(resp, message, bytesProcessed, e) :=
          processMessage b message resp in
        match e with
        | Some e => mret (resp, totalBytesProcessed, Some e)
        | None =>
            let total := add64 totalBytesProcessed bytesProcessed in
            match MsgOperation message with
            | OperationCreate =>
                processMessages b rest
                  (setCreateEvents resp (add64 (createEvents resp) 1)) total
            | OperationUpdate =>
                processMessages b rest
                  (setUpdateEvents resp (add64 (updateEvents resp) 1)) total
            | OperationDelete =>
                processMessages b rest
                  (setDeleteEvents resp (add64 (deleteEvents resp) 1)) total
            | OperationOther _ => fatal "Unkown operation"
            end
        end
  end.

(** [processBatch]: one slot of a round. *)
Definition processBatch (b : batchProcessor) (msgBuf : list Message)
    (resp : response) : M response :=
  done ← ctxDone;
  if done : bool then mret (setErr resp (Some ErrSaramaSessionContextDone))
  else
    '(resp, total, e) ← processMessages b msgBuf resp 0;
    let resp := setBytesProcessed resp total in
    match e with
    | Some e => mret (setErr resp (Some e))
    | None =>
        match GzipWrite (bodyBuf resp) with
        | Err _ => fatal "Error in compressing, exitting"
        | Ok gzBodyBuf =>
            match Upload (s3Key resp) gzBodyBuf with
            | Some cause =>
                emit (EvUpload (batchID resp) (s3Key resp) gzBodyBuf false);;
                mret (setErr resp (Some (ErrS3Write cause)))
            | None =>
                emit (EvUpload (batchID resp) (s3Key resp) gzBodyBuf true);;
                mret (setMessagesProcessed (setBodyBuf resp "")
                        (Z.of_nat (length msgBuf)))
            end
        end
    end.

(** The launch loop of [Process]: slot [i] gets [batchID = i + 1]. *)
Fixpoint processBatches (b : batchProcessor) (i : Z)
    (msgBufs : list (list Message)) : M (list response) :=
  match msgBufs with
  | [] => mret []
  | msgBuf :: rest =>
      resp ← processBatch b msgBuf (newResponse i);
      responses ← processBatches b (i + 1) rest;
      mret (resp :: responses)
  end.

(** The scan of the slots after [wg.Wait()]: [None] when a slot was
    abandoned on session end (the processor returns at once), else the
    collected errors. *)
Fixpoint scanErrors (responses : list response) (errors : list error)
  : option (list error) :=
  match responses with
  | [] => Some errors
  | resp :: rest =>
      match err resp with
      | None => scanErrors rest errors
      | Some e =>
          if isContextDone e then None else scanErrors rest (errors ++ [e])
      end
  end.

Definition jobOf (b : batchProcessor) (resp : response) : Job :=
  mkJob (topic b) (startOffset resp) (endOffset resp) ","
    (GetKeyURI (bucket b) (s3Key resp)) (batchSchemaID resp) (schemaIDKey b)
    (maskSchema resp) (extraMaskSchema resp) (skipMerge resp)
    (bytesProcessed resp) (createEvents resp) (updateEvents resp)
    (deleteEvents resp).

(** [signalLoad].  The record key, a wall-clock string, belongs to the
    producer oracle. *)
Definition signalLoad (b : batchProcessor) (resp : response) : M (option error) :=
  let job := jobOf b resp in
  let toTopic := loaderTopicPrefix b +:+ topic b in
  match signalerAdd toTopic (loaderSchemaID b) job with
  | Some cause =>
      emit (EvSignal (batchID resp) toTopic job false);;
      mret (Some (ErrSignal cause))
  | None =>
      emit (EvSignal (batchID resp) toTopic job true);;
      mret None
  end.

(** [handleShutdown]. *)
Definition handleShutdown : M unit := emit EvSignalerClose.

(** [markOffset]. *)
Definition markOffset (topic : string) (partition offset : Z)
    (autoCommit : bool) : M unit :=
  emit (EvMarkOffset topic partition (add64 offset 1));;
  if autoCommit then mret tt else emit EvCommit.

(** The signal loop of [Process]: [true] when every slot was signalled,
    [false] when the processor returns. *)
Fixpoint signalAll (b : batchProcessor) (responses : list response) : M bool :=
  match responses with
  | [] => mret true
  | resp :: rest =>
      done ← ctxDone;
      if done : bool then mret false
      else
        e ← signalLoad b resp;
        match e with
        | Some e =>
            done ← ctxDone;
            if done : bool then mret false
            else
              emit (EvSendErr (SentOne e));;
              handleShutdown;;
              mret false
        | None => signalAll b rest
        end
  end.

Inductive roundEnd :=
| RoundDone
| ProcessorReturned.

(** Vocabulary for the properties of a round: the event of the
    successful upload of a slot, the event of its successful signal, an
    event that touches no offset, a mark on partition 0 of the
    processor's topic, and a buffer in which a message after the first
    has another schema id than the first. *)
Definition uploadedOk (r : response) (e : event) : Prop :=
  exists body, e = EvUpload (batchID r) (s3Key r) body true.

Definition signalledOk (b : batchProcessor) (r : response) : event :=
  EvSignal (batchID r) (loaderTopicPrefix b +:+ topic b) (jobOf b r) true.

Definition offsetFree (e : event) : Prop :=
  isMark e = false /\ isCommit e = false.

Definition markOnZero (b : batchProcessor) (e : event) : Prop :=
  match e with
  | EvMarkOffset t p _ => t = topic b /\ p = 0
  | _ => True
  end.


(** The body of the outer loop of [Process] after the read loop. *)
Definition round (b : batchProcessor) (msgBufs : list (list Message))
  : M roundEnd :=
  responses ← processBatches b 0 msgBufs;
  match last responses with
  | None => fatal "no batch to process (unexpected)"
  | Some lastResp =>
      match scanErrors responses [] with
      | None => mret ProcessorReturned
      | Some [] =>
          ok ← signalAll b responses;
          if ok : bool then
            markOffset (topic b) 0 (endOffset lastResp) (autoCommit b);;
            mret RoundDone
          else mret ProcessorReturned
      | Some errors =>
          handleShutdown;;
          done ← ctxDone;
          if done : bool then mret ProcessorReturned
          else
            emit (EvSendErr (SentMulti errors));;
            mret ProcessorReturned
      end
  end.

Inductive drained :=
| DrainDone
| DrainReady (msgBufs : list (list Message))
| DrainBlocked.

(** The read loop of [Process] over the choices of its [select]; an
    exhausted script leaves the processor blocked in the [select]. *)
Fixpoint readLoop (maxConcurrency : Z) (msgBufs : list (list Message))
    (sel : list selected) : drained * list selected :=
  match sel with
  | [] => (DrainBlocked, [])
  | SelDone :: rest => (DrainDone, rest)
  | SelBuf msgBuf :: rest =>
      let msgBufs := msgBufs ++ [msgBuf] in
      if Z.of_nat (length msgBufs) =? maxConcurrency
      then (DrainReady msgBufs, rest)
      else readLoop maxConcurrency msgBufs rest
  | SelTick :: rest =>
      if 0 <? Z.of_nat (length msgBufs)
      then (DrainReady msgBufs, rest)
      else readLoop maxConcurrency msgBufs rest
  end.

Definition drain (maxConcurrency : Z) : M drained := fun w =>
  let '(d, rest) := readLoop maxConcurrency [] (selects w) in
  (Val d, mkWorld (polls w) rest (trace w)).

Inductive processEnd :=
| Returned
| Blocked
| OutOfFuel.

(** [Process]: rounds until the processor returns or blocks. *)
Fixpoint ProcessLoop (b : batchProcessor) (fuel : nat) : M processEnd :=
  match fuel with
  | O => mret OutOfFuel
  | S fuel =>
      d ← drain (maxConcurrency b);
      match d with
      | DrainDone => mret Returned
      | DrainBlocked => mret Blocked
      | DrainReady msgBufs =>
          r ← round b msgBufs;
          match r with
          | ProcessorReturned => mret Returned
          | RoundDone => ProcessLoop b fuel
          end
      end
  end.

(** Every round takes at least one choice off the script, so this much
    fuel is never used up. *)
Definition Process (b : batchProcessor) : M processEnd := fun w =>
  ProcessLoop b (S (length (selects w))) w.

End Processor.

End Batcher.

(** ** The topic manager's consume loop (kafka-go/pkg/consumer/manager.go) *)

Module Manager.

(** What one pass of the loop of [Manager.Consume] meets: the topic list as
    [SyncTopics] left it, what the consumer group's blocking [Consume]
    returns (the error, if any), and whether [ctx.Err()] is set after it. *)
Record turn := mkTurn {
  snapshot : list string;
  consumeErr : option string;
  ctxErr : bool;
}.

Inductive event :=
| EvSleep (seconds : Z)
| EvConsume (topics : list string).

(** How the loop ends: it returns, the process exits in [klog.Fatalf], or
    (script exhausted) it is still inside the loop. *)
Inductive consumeEnd :=
| Returned
| FatalExit (err : string)
| Looping.

(** [deepCopyTopics]. *)
Definition deepCopyTopics (topics : list string) : list string := [] ++ topics.

(** [Manager.Consume] over a script of turns. *)
Fixpoint Consume (script : list turn) : list event * consumeEnd :=
  match script with
  | [] => ([], Looping)
  | t :: rest =>
      let topics := deepCopyTopics (snapshot t) in
      if Nat.eqb (length topics) 0 then
        let '(evs, e) := Consume rest in (EvSleep 5 :: evs, e)
      else
        match consumeErr t with
        | Some err => ([EvConsume topics], FatalExit err)
        | None =>
            if ctxErr t then ([EvConsume topics], Returned)
            else
              let '(evs, e) := Consume rest in (EvConsume topics :: evs, e)
        end
  end.

End Manager.

(** ** The batcher binary (cmd/redshiftbatcher/main.go) *)

Module BatcherMain.

(** A Go map variable: nil, or a map. *)
Definition goMap (V : Type) : Type := option (gmap string V).

(** [m[k] = v]: a run-time panic on a nil map. *)
Definition mapAssign {V : Type} (m : goMap V) (k : string) (v : V)
  : option (goMap V) :=
  match m with
  | None => None
  | Some entries => Some (Some (<[k := v]> entries))
  end.

Record GroupConfig := mkGroupConfig {
  GroupID : string;
  TopicRegexes : string;
}.

Section Run.
Variable ConsumerGroup : Type.
(** [consumer.NewConsumerGroup(groupConfig, ...)]. *)
Variable NewConsumerGroup : GroupConfig -> result ConsumerGroup.

(** How the start-up part of [run] ends: [os.Exit], a run-time panic, or
    every group registered and its manager goroutines started. *)
Inductive runEnd :=
| Exit (code : Z)
| Panic (msg : string)
| Registered (consumerGroups : goMap ConsumerGroup)
    (consumersReady : nat) (managers : list string).

(** The loop of [run] over [config.ConsumerGroups]. *)
Fixpoint registerLoop (configs : list GroupConfig)
    (consumerGroups : goMap ConsumerGroup) (consumersReady : nat)
    (managers : list string) : runEnd :=
  match configs with
  | [] => Registered consumerGroups consumersReady managers
  | groupConfig :: rest =>
      match NewConsumerGroup groupConfig with
      | Err _ => Exit 1
      | Ok consumerGroup =>
          let groupID := GroupID groupConfig in
          match mapAssign consumerGroups groupID consumerGroup with
          | None => Panic "assignment to entry in nil map"
          | Some consumerGroups =>
              registerLoop rest consumerGroups (S consumersReady)
                (managers ++ [groupID])
          end
      end
  end.

(** [run] up to the end of that loop: [var consumerGroups map[...]...]
    declares the map without making it. *)
Definition run (config : result (list GroupConfig)) : runEnd :=
  match config with
  | Err _ => Exit 1
  | Ok groups => registerLoop groups None 0 []
  end.
End Run.

End BatcherMain.

(** ** The "happy batch" scenario

    Two records at offsets 100 and 101 of topic "orders", partition 0, group
    "g1-batcher", [maxConcurrency = 1], no mask version, auto-commit off;
    every collaborator succeeds. *)

Module Scenario.
Import Batcher.

#[local] Instance schema : Schema :=
  {| Table := unit; zeroTable := tt; MaskInfo := unit; ExtraMaskInfo := unit |}.

#[local] Instance collaborators : Collaborators :=
  {| TransformValue := fun _ _ _ _ _ => Ok tt;
     Transform := fun m _ => Ok m;
     MaskTransform := fun m _ => Ok m;
     TrimSpace := fun v => v;
     jsonMarshal := fun _ => Ok "{}";
     GzipWrite := fun body => Ok body;
     Upload := fun _ _ => None;
     signalerAdd := fun _ _ _ => None |}.

Definition processor (partition : Z) : batchProcessor :=
  mkBatchProcessor "orders" partition "loader-" "g1-batcher" false "bucket"
    "bucketDir" "" false 1 1 2.

Definition record (schemaID offset : Z) : Message :=
  mkMessage schemaID "orders" 0 offset ∅ 10 OperationCreate ∅ ∅.

Definition start (bufs : list (list Message)) : world :=
  mkWorld [] (map SelBuf bufs) [].

(** The outcome and the trace of [Process] on the given buffers. *)
Definition run (partition : Z) (bufs : list (list Message))
  : outcome processEnd * list event :=
  let '(o, w) := Process (processor partition) (start bufs) in (o, trace w).

(** The slots of a round on the given buffers, and the world after them. *)
Definition slots (bufs : list (list Message)) (w : world) : list response :=
  match (processBatches (processor 0) 0 bufs w).1 with
  | Val rs => rs
  | Fatal _ => []
  end.

Definition afterSlots (bufs : list (list Message)) (w : world) : world :=
  (processBatches (processor 0) 0 bufs w).2.

Definition happyJob : Job :=
  mkJob "orders" 100 101 ","
    "s3://bucket/bucketDir/g1-batcher/orders/100_offset_0_partition.json.gz"
    7 2 ∅ ∅ false 20 2 0 0.
End Scenario.

(** ** Scenarios of the realtime calculation

    A sink "sink" in namespace "ns" with loader topic prefix "loader-" and
    both maximal lags 100, and the topic "orders" reloading in group
    "reload".  [staleWatcher]: the batcher group is at 990 of 1000, the
    loader group is gone from the broker (-1) while the loader topic ends at
    5050.  [downWatcher]: every offset query fails. *)

Module RealtimeScenario.
Import Realtime.

Definition sink : RedshiftSink :=
  mkRedshiftSink "sink" "ns" "loader-"
    (Some (mkReleaseCondition (Some 100) (Some 100))) None ∅.

Definition staleWatcher : Watcher :=
  mkWatcher (Ok ["orders"; "loader-reload-orders"])
    (fun topic _ => if String.eqb topic "orders" then Ok 1000 else Ok 5050)
    (fun _ topic _ => if String.eqb topic "orders" then Ok 990 else Ok (-1)).

Definition liveWatcher : Watcher :=
  mkWatcher (Ok ["orders"; "loader-reload-orders"])
    (fun topic _ => if String.eqb topic "orders" then Ok 1000 else Ok 5050)
    (fun _ topic _ => if String.eqb topic "orders" then Ok 990 else Ok 5040).

Definition downWatcher : Watcher :=
  mkWatcher (Ok ["orders"; "loader-reload-orders"])
    (fun _ _ => Err "broker unreachable")
    (fun _ _ _ => Err "broker unreachable").

Definition calculator (w : Watcher) (persisted : option Z) : realtimeCalculator :=
  mkCalc sink w {[ "orders" := mkGroup "reload" persisted ]} ∅ [] [] [] [].

Definition ticks (i : nat) : tick := mkTick 1000 0 1000 1000.

Definition allTopics : gset string := toMap ["orders"; "loader-reload-orders"].
End RealtimeScenario.

(** ** Topic discovery (manager.go, redshiftsink_controller.go)

    A compiled regular expression is what its [MatchString] answers;
    [regexp.Compile] and [strings.TrimSpace] belong to Go's library and are
    oracles. *)

Module Discovery.

Definition Regexp : Type := string -> bool.

(** [strings.Split(s, sep)] for a separator of one character: never empty;
    n separators give n+1 pieces. *)
Fixpoint split (sep : ascii) (s : string) : list string :=
  match s with
  | EmptyString => [EmptyString]
  | String c rest =>
      if Ascii.eqb c sep then EmptyString :: split sep rest
      else match split sep rest with
           | [] => [String c EmptyString]
           | x :: xs => String c x :: xs
           end
  end.

(** The body of the two nested loops of [updatetopics] and of
    [fetchLatestTopics]: one regular expression against one topic, with the
    topics collected so far and the set [topicsAppended]. *)
Definition visit (regex : Regexp) (topic : string)
    (st : list string * gset string) : list string * gset string :=
  let '(topics, topicsAppended) := st in
  if negb (regex topic) then st
  else if bool_decide (topic ∈ topicsAppended) then st
  else (topics ++ [topic], {[ topic ]} ∪ topicsAppended).

(** A sound loop state: no topic twice, and the set holds exactly the topics
    collected. *)
Definition collected (st : list string * gset string) : Prop :=
  NoDup st.1 /\ forall x, x ∈ st.2 <-> x ∈ st.1.

(** [Manager.updatetopics]: the new value of [c.topics].  The outer loop
    runs over the topics, the inner one over the regular expressions. *)
Definition updatetopics (topicRegexes : list Regexp) (allTopics : list string)
  : list string :=
  (fold_left
     (fun st topic => fold_left (fun st regex => visit regex topic st) topicRegexes st)
     allTopics ([], ∅)).1.

(** How [NewManager] ends: the manager's regular expressions, or
    [klog.Fatalf] on the expression that does not compile. *)
Inductive compiled :=
| Compiled (topicRegexes : list Regexp)
| CompileFatal (expression : string).

Section Compile.
Variable Compile : string -> result Regexp.
Variable TrimSpace : string -> string.

(** The loop of [NewManager] over the expressions. *)
Fixpoint compileAll (expressions : list string) (topicRegexes : list Regexp)
  : compiled :=
  match expressions with
  | [] => Compiled topicRegexes
  | expression :: rest =>
      match Compile (TrimSpace expression) with
      | Err _ => CompileFatal expression
      | Ok rgx => compileAll rest (topicRegexes ++ [rgx])
      end
  end.

(** [NewManager], by the regular expressions of the manager it returns. *)
Definition NewManager (regexes : string) : compiled :=
  compileAll (split "," regexes) [].

(** The regular expression [fetchLatestTopics] uses for an expression: the
    one loaded from [KafkaTopicRegexes], else the one compiled from the
    trimmed expression. *)
Definition regexFor (cache : gmap string Regexp) (expression : string)
  : result Regexp :=
  match cache !! expression with
  | Some rgx => Ok rgx
  | None => Compile (TrimSpace expression)
  end.

(** The loop of [fetchLatestTopics] over the expressions: topics and set so
    far, the map [KafkaTopicRegexes], and the expression that failed to
    compile, if any. *)
Fixpoint fetchLoop (allTopics : list string) (expressions : list string)
    (st : list string * gset string) (cache : gmap string Regexp)
  : list string * gmap string Regexp * option string :=
  match expressions with
  | [] => (st.1, cache, None)
  | expression :: rest =>
      match cache !! expression with
      | Some rgx =>
          fetchLoop allTopics rest
            (fold_left (fun st topic => visit rgx topic st) allTopics st) cache
      | None =>
          match Compile (TrimSpace expression) with
          | Err _ => (st.1, cache, Some expression)
          | Ok rgx =>
              fetchLoop allTopics rest
                (fold_left (fun st topic => visit rgx topic st) allTopics st)
                (<[expression := rgx]> cache)
          end
      end
  end.

Inductive fetchError :=
| ErrTopics (msg : string)
| ErrCompile (expression : string).

(** [RedshiftSinkReconciler.fetchLatestTopics]: the topics, the map
    [KafkaTopicRegexes] after the call and the error.  [watcherTopics] is
    what [KafkaWatcher.Topics()] returns. *)
Definition fetchLatestTopics (watcherTopics : result (list string))
    (cache : gmap string Regexp) (regexes : string)
  : list string * gmap string Regexp * option fetchError :=
  let expressions := split "," regexes in
  match watcherTopics with
  | Err msg => ([], cache, Some (ErrTopics msg))
  | Ok allTopics =>
      let '(topics, cache, failed) := fetchLoop allTopics expressions ([], ∅) cache in
      (topics, cache, ErrCompile <$> failed)
  end.
End Compile.

End Discovery.

(** The "regex set" scenario: the expressions "^orders\." and "^users\."
    against the bus topics orders.x, users.y and inventory.z.  The oracle
    compiles these two expressions and no other. *)

Module DiscoveryScenario.
Import Discovery.

Definition compile (expression : string) : result Regexp :=
  if String.eqb expression "^orders\." then Ok (String.prefix "orders.")
  else if String.eqb expression "^users\." then Ok (String.prefix "users.")
  else Err "error parsing regexp".

Definition trim (s : string) : string := s.

Definition busTopics : list string := ["orders.x"; "users.y"; "inventory.z"].
End DiscoveryScenario.

(** ** Vocabulary for the traces of the batch processor *)

Module BatcherTrace.
Import Batcher.

Section Vocabulary.
Context `{Collaborators}.

Definition isSendErr (e : event) : bool :=
  match e with EvSendErr _ => true | _ => false end.

(** The number of errors written to the session's error channel. *)
Definition sentErrors (evs : list event) : nat :=
  length (List.filter isSendErr evs).

(** The buffers among the choices of the read loop's [select]. *)
Definition buffersOf (sel : list selected) : list (list Message) :=
  omap (fun s => match s with SelBuf msgBuf => Some msgBuf | _ => None end) sel.

(** The event of a signal that failed. *)
Definition signalFailed (b : batchProcessor) (r : response) : event :=
  EvSignal (batchID r) (loaderTopicPrefix b +:+ topic b) (jobOf b r) false.

(** How the signal loop ends when it does not signal every slot: the
    session is done before slot [k] is signalled, or the signal of slot [k]
    fails and then the session is done, or it fails and its error is sent
    and the signaler closed. *)
Definition signalEnding (b : batchProcessor) (rs : list response) (k : nat)
    (ending : list event) : Prop :=
  ending = [] \/
  exists r cause, rs !! k = Some r /\
    (ending = [signalFailed b r] \/
     ending = [signalFailed b r; EvSendErr (SentOne (ErrSignal cause));
               EvSignalerClose]).

(** What a round does after the uploads, by its outcome and its slots. *)
Definition roundTail (b : batchProcessor) (rs : list response)
    (o : outcome roundEnd) (tail : list event) : Prop :=
  match o with
  | Fatal _ => tail = []
  | Val RoundDone =>
      Forall (fun r => err r = None) rs /\
      exists lastResp, last rs = Some lastResp /\
        tail = map (signalledOk b) rs ++
               EvMarkOffset (topic b) 0 (add64 (endOffset lastResp) 1) ::
               (if autoCommit b then [] else [EvCommit])
  | Val ProcessorReturned =>
      (Exists (fun r => err r = Some ErrSaramaSessionContextDone) rs /\ tail = [])
      \/ (omap err rs <> [] /\
          (tail = [EvSignalerClose] \/
           tail = [EvSignalerClose; EvSendErr (SentMulti (omap err rs))]))
      \/ (Forall (fun r => err r = None) rs /\
          exists k ending, (k < length rs)%nat /\
            tail = map (signalledOk b) (take k rs) ++ ending /\
            signalEnding b rs k ending)
  end.
End Vocabulary.

End BatcherTrace.

(** ** More scenarios of the realtime calculation

    [cachedCalculator]: the broker is down, and the cache holds for
    "orders" the entry the error fallback stored at time 900.
    [coldWatcher]: the topics exist and end at 1000, no consumer group has
    ever committed (-1). *)

Module RealtimeCacheScenario.
Import Realtime.

Definition fallbackEntry : topicRealtimeInfo :=
  mkInfo (Some 900) None None true true.

Definition cachedCalculator : realtimeCalculator :=
  mkCalc RealtimeScenario.sink RealtimeScenario.downWatcher
    {[ "orders" := mkGroup "reload" None ]} {[ "orders" := fallbackEntry ]}
    [] [] [] [].

Definition coldWatcher : Watcher :=
  mkWatcher (Ok ["orders"; "loader-reload-orders"])
    (fun _ _ => Ok 1000) (fun _ _ _ => Ok (-1)).
End RealtimeCacheScenario.

(** ** Vocabulary for the text of an object key *)

Module KeyText.

(** The character [c] does not occur in [s]. *)
Fixpoint lacks (c : ascii) (s : string) : bool :=
  match s with
  | EmptyString => true
  | String x rest => negb (Ascii.eqb x c) && lacks c rest
  end.

(** A directory path of proper elements, absolute or relative, under which
    the proper elements [group] and [topic] and a mask version that is empty
    or a proper element are laid out. *)
Definition properLayout (dirs : list string) (mv group topic : string) : Prop :=
  dirs <> [] /\
  Forall (fun e => Filepath.plainElem e = true) (dirs ++ [group; topic]) /\
  (mv = "" \/ Filepath.plainElem mv = true).

End KeyText.

(** * Properties *)

(** ** Machine integers *)

Lemma wrap64_id z : in_int64 z -> wrap64 z = z.
Proof.
  unfold in_int64, int64_min, int64_max, wrap64. intros H.
  rewrite Z.mod_small; lia.
Qed.

Lemma wrap64_range z : in_int64 (wrap64 z).
Proof.
  unfold in_int64, int64_min, int64_max, wrap64.
  pose proof (Z.mod_pos_bound (z + 2 ^ 63) (2 ^ 64) ltac:(lia)). lia.
Qed.

Lemma add64_succ z : int64_min <= z < int64_max -> add64 z 1 = z + 1.
Proof.
  intros H. apply wrap64_id. unfold in_int64, int64_min, int64_max in *. lia.
Qed.

(** ** Release conditions of the realtime calculator *)

Section MaxLagFacts.
Import Realtime.
Variables dB dL : Z.

Lemma maxLag_no_release_condition rsk topic :
  SpecReleaseCondition rsk = None -> maxLag dB dL rsk topic = (dB, dL).
Proof. unfold maxLag. intros ->. reflexivity. Qed.

(** With a global release condition, one lag: the per-topic value wins when
    it is there, the global value stands otherwise. *)
Lemma maxLag_with_release_condition rsk topic rc :
  SpecReleaseCondition rsk = Some rc ->
  maxLag dB dL rsk topic =
    (assignIfSet (topicCondition rsk topic ≫= MaxBatcherLag)
       (assignIfSet (MaxBatcherLag rc) 0),
     assignIfSet (topicCondition rsk topic ≫= MaxLoaderLag)
       (assignIfSet (MaxLoaderLag rc) 0)).
Proof.
  unfold maxLag, topicCondition. intros ->.
  destruct (TopicReleaseCondition rsk) as [trc|]; simpl; [|reflexivity].
  destruct (trc !! topic) as [d|]; reflexivity.
Qed.

(** A global release condition that leaves a lag unset, and no per-topic
    value for it: the lag is Go's zero value, not the default. *)
Lemma maxLag_unset_is_zero rsk topic rc :
  SpecReleaseCondition rsk = Some rc ->
  MaxBatcherLag rc = None ->
  topicCondition rsk topic ≫= MaxBatcherLag = None ->
  (maxLag dB dL rsk topic).1 = 0.
Proof.
  intros Hrc Hb Ht. rewrite (maxLag_with_release_condition _ _ _ Hrc).
  simpl. rewrite Ht, Hb. reflexivity.
Qed.
End MaxLagFacts.

(** C3, as stated, fails: a sink without a global release condition and with
    a per-topic condition for "orders" (lags 5 and 7).  The stated precedence
    gives (5, 7); [maxLag] returns the defaults (here 100 and 10) because
    the per-topic condition is only looked at under a global one. *)
Lemma maxLag_ignores_topic_without_global :
  let rsk :=
    Realtime.mkRedshiftSink "sink" "ns" "loader-" None
      (Some {[ "orders" := Realtime.mkReleaseCondition (Some 5) (Some 7) ]}) ∅ in
  Realtime.maxLag_spec 100 10 rsk "orders" = (5, 7) /\
  Realtime.maxLag 100 10 rsk "orders" = (100, 10) /\
  Realtime.maxLag 100 10 rsk "orders" <> Realtime.maxLag_spec 100 10 rsk "orders".
Proof. vm_compute. repeat split; congruence. Qed.

(** C3 (amended): without a global release condition both lags are the
    defaults, whatever the per-topic conditions say; with a global release
    condition each lag is resolved on its own, the per-topic value if present,
    else the global value if present. *)
Theorem maxLag_precedence (dB dL : Z) (rsk : Realtime.RedshiftSink) (topic : string) :
  (Realtime.SpecReleaseCondition rsk = None ->
   Realtime.maxLag dB dL rsk topic = (dB, dL)) /\
  (forall rc, Realtime.SpecReleaseCondition rsk = Some rc ->
     (forall v, Realtime.topicCondition rsk topic ≫= Realtime.MaxBatcherLag = Some v ->
        (Realtime.maxLag dB dL rsk topic).1 = v) /\
     (forall v, Realtime.topicCondition rsk topic ≫= Realtime.MaxBatcherLag = None ->
        Realtime.MaxBatcherLag rc = Some v ->
        (Realtime.maxLag dB dL rsk topic).1 = v) /\
     (forall v, Realtime.topicCondition rsk topic ≫= Realtime.MaxLoaderLag = Some v ->
        (Realtime.maxLag dB dL rsk topic).2 = v) /\
     (forall v, Realtime.topicCondition rsk topic ≫= Realtime.MaxLoaderLag = None ->
        Realtime.MaxLoaderLag rc = Some v ->
        (Realtime.maxLag dB dL rsk topic).2 = v)).
Proof.
  split; [apply maxLag_no_release_condition|].
  intros rc Hrc. rewrite (maxLag_with_release_condition dB dL _ _ _ Hrc). simpl.
  repeat split; intros v.
  - intros ->. reflexivity.
  - intros -> ->. reflexivity.
  - intros ->. reflexivity.
  - intros -> ->. reflexivity.
Qed.

Lemma maxLag_precedence_witness :
  let rsk :=
    Realtime.mkRedshiftSink "sink" "ns" "loader-"
      (Some (Realtime.mkReleaseCondition (Some 50) (Some 20)))
      (Some {[ "orders" := Realtime.mkReleaseCondition (Some 5) None ]}) ∅ in
  Realtime.maxLag 100 10 rsk "orders" = (5, 20).
Proof.
  intros rsk.
  destruct (maxLag_precedence 100 10 rsk "orders") as [_ H].
  destruct (H (Realtime.mkReleaseCondition (Some 50) (Some 20)) eq_refl)
    as (Hb & _ & _ & Hl).
  rewrite (surjective_pairing (Realtime.maxLag 100 10 rsk "orders")).
  rewrite (Hb 5), (Hl 20); reflexivity.
Defined.

(** ** The realtime cache *)

Lemma fetchRealtimeCache_hit_iff cache topic info t draw now :
  cache !! topic = Some info ->
  Realtime.lastUpdate info = Some t ->
  (Realtime.fetchRealtimeCache cache draw now topic).2 = true <->
  now - t < Realtime.Second * (draw + 120).
Proof.
  intros Hc Ht. unfold Realtime.fetchRealtimeCache, Realtime.cacheValid.
  rewrite Hc, Ht. case_bool_decide; simpl; split; intros; try lia; congruence.
Qed.

Lemma fetchRealtimeCache_result cache topic draw now :
  Realtime.fetchRealtimeCache cache draw now topic =
    if (Realtime.fetchRealtimeCache cache draw now topic).2
    then (default Realtime.zeroInfo (cache !! topic), true)
    else (Realtime.zeroInfo, false).
Proof.
  unfold Realtime.fetchRealtimeCache.
  destruct (cache !! topic) as [info|]; simpl; [|reflexivity].
  destruct (Realtime.cacheValid _ _ _); reflexivity.
Qed.

(** C6: an entry with timestamp [t], probed at [now] (both UnixNano) with
    the draw [rand.Intn(120)] in [0,120): a hit whenever less than 120 s have
    passed, a miss whenever 240 s or more have passed, and in between a hit
    exactly while the elapsed time is below the drawn validity of
    [draw + 120] seconds, which lies in [120,240). *)
Theorem cache_validity_window
    (cache : gmap string Realtime.topicRealtimeInfo) (topic : string)
    (info : Realtime.topicRealtimeInfo) (t draw now : Z) :
  cache !! topic = Some info ->
  Realtime.lastUpdate info = Some t ->
  0 <= draw < 120 ->
  120 <= draw + 120 < 240 /\
  (now - t < 120 * Realtime.Second ->
   Realtime.fetchRealtimeCache cache draw now topic = (info, true)) /\
  (240 * Realtime.Second <= now - t ->
   Realtime.fetchRealtimeCache cache draw now topic = (Realtime.zeroInfo, false)) /\
  (Realtime.fetchRealtimeCache cache draw now topic = (info, true) <->
   now - t < (draw + 120) * Realtime.Second) /\
  (Realtime.fetchRealtimeCache cache draw now topic = (Realtime.zeroInfo, false) <->
   (draw + 120) * Realtime.Second <= now - t).
Proof.
  intros Hc Ht Hd.
  pose proof (fetchRealtimeCache_hit_iff cache topic info t draw now Hc Ht) as Hiff.
  pose proof (fetchRealtimeCache_result cache topic draw now) as Hres.
  rewrite Hc in Hres. simpl in Hres.
  unfold Realtime.Second in *.
  destruct (Realtime.fetchRealtimeCache cache draw now topic).2 eqn:E;
    rewrite Hres.
  - assert (now - t < 1000000000 * (draw + 120)) by (apply Hiff; reflexivity).
    repeat split; intros; try lia; try congruence.
  - assert (~ now - t < 1000000000 * (draw + 120))
      by (intros H; apply Hiff in H; congruence).
    repeat split; intros; try lia; try congruence.
Qed.

Lemma cache_validity_window_witness :
  let info := Realtime.mkInfo (Some 1000) None None true true in
  Realtime.fetchRealtimeCache {[ "orders" := info ]} 7 (1000 + 60 * Realtime.Second)
    "orders" = (info, true) /\
  Realtime.fetchRealtimeCache {[ "orders" := info ]} 7 (1000 + 300 * Realtime.Second)
    "orders" = (Realtime.zeroInfo, false).
Proof.
  intros info.
  assert (Hc : ({[ "orders" := info ]} : gmap string Realtime.topicRealtimeInfo)
                 !! "orders" = Some info) by (vm_compute; reflexivity).
  assert (Ht : Realtime.lastUpdate info = Some 1000) by reflexivity.
  assert (Hd : 0 <= 7 < 120) by lia.
  destruct (cache_validity_window _ _ _ _ _ (1000 + 60 * Realtime.Second) Hc Ht Hd)
    as (_ & Hhit & _).
  destruct (cache_validity_window _ _ _ _ _ (1000 + 300 * Realtime.Second) Hc Ht Hd)
    as (_ & _ & Hmiss & _).
  split; [apply Hhit | apply Hmiss]; unfold Realtime.Second; lia.
Defined.

(** ** The consume loop of the topic manager *)

Lemma Consume_error_fatal t rest e :
  Manager.snapshot t <> [] ->
  Manager.consumeErr t = Some e ->
  Manager.Consume (t :: rest) = ([Manager.EvConsume (Manager.snapshot t)], Manager.FatalExit e).
Proof.
  intros Hs He. simpl. unfold Manager.deepCopyTopics. simpl.
  destruct (Manager.snapshot t) as [|x l]; [congruence|]. simpl.
  rewrite He. reflexivity.
Qed.

(** C8, as stated, fails: the consumer group's [Consume] returns an error
    (a network timeout) in the first turn.  Re-entering the loop would run
    the second turn; the manager instead ends the process in [klog.Fatalf]
    and the second turn is never reached. *)
Lemma Consume_network_error_exits :
  let failing := Manager.mkTurn ["orders"] (Some "read tcp: i/o timeout") false in
  let next := Manager.mkTurn ["orders"] None true in
  Manager.Consume [failing; next] =
    ([Manager.EvConsume ["orders"]], Manager.FatalExit "read tcp: i/o timeout") /\
  Manager.Consume [failing; next] <>
    (Manager.EvConsume ["orders"] :: (Manager.Consume [next]).1,
     (Manager.Consume [next]).2).
Proof. vm_compute. split; [reflexivity | congruence]. Qed.

(** C8 (amended): with topics to consume, an error returned by the consumer
    group's [Consume] ends the process ([klog.Fatalf]), whatever the error;
    the manager re-enters its loop only when [Consume] returns without error
    and the context is not cancelled, and returns when it is cancelled. *)
Theorem Consume_reenters_only_without_error (t : Manager.turn) (rest : list Manager.turn) :
  Manager.snapshot t <> [] ->
  (forall e, Manager.consumeErr t = Some e ->
     Manager.Consume (t :: rest) =
       ([Manager.EvConsume (Manager.snapshot t)], Manager.FatalExit e)) /\
  (Manager.consumeErr t = None -> Manager.ctxErr t = false ->
     Manager.Consume (t :: rest) =
       (Manager.EvConsume (Manager.snapshot t) :: (Manager.Consume rest).1,
        (Manager.Consume rest).2)) /\
  (Manager.consumeErr t = None -> Manager.ctxErr t = true ->
     Manager.Consume (t :: rest) =
       ([Manager.EvConsume (Manager.snapshot t)], Manager.Returned)).
Proof.
  intros Hs. split; [intros e He; by apply Consume_error_fatal|].
  simpl. unfold Manager.deepCopyTopics. simpl.
  destruct (Manager.snapshot t) as [|x l]; [congruence|]. simpl.
  split; intros -> ->; [|reflexivity].
  destruct (Manager.Consume rest); reflexivity.
Qed.

Lemma Consume_reenters_only_without_error_witness :
  Manager.Consume [Manager.mkTurn ["orders"] None false;
                   Manager.mkTurn ["orders"; "users"] None true] =
    ([Manager.EvConsume ["orders"]; Manager.EvConsume ["orders"; "users"]],
     Manager.Returned).
Proof.
  destruct (Consume_reenters_only_without_error
              (Manager.mkTurn ["orders"] None false)
              [Manager.mkTurn ["orders"; "users"] None true]
              ltac:(discriminate)) as (_ & H & _).
  rewrite (H eq_refl eq_refl). reflexivity.
Defined.

(** ** Start-up of the batcher binary *)

Lemma registerLoop_nil_map {CG : Type} (New : BatcherMain.GroupConfig -> result CG)
    c rest ready managers :
  BatcherMain.registerLoop CG New (c :: rest) None ready managers =
    match New c with
    | Err _ => BatcherMain.Exit CG 1
    | Ok _ => BatcherMain.Panic CG "assignment to entry in nil map"
    end.
Proof. simpl. destruct (New c); reflexivity. Qed.

(** C9: [run] declares [consumerGroups] without making it, so with at least
    one consumer group configured the assignment
    [consumerGroups[groupID] = consumerGroup] writes to a nil map: the
    registration never completes, and once the first group's client is
    created the run-time panic of the nil-map write is what happens. *)
Theorem run_registration_faults (CG : Type)
    (New : BatcherMain.GroupConfig -> result CG)
    (configs : list BatcherMain.GroupConfig) :
  configs <> [] ->
  (forall groups ready managers,
     BatcherMain.run CG New (Ok configs) <> BatcherMain.Registered CG groups ready managers) /\
  (forall c rest consumerGroup, configs = c :: rest -> New c = Ok consumerGroup ->
     BatcherMain.mapAssign None (BatcherMain.GroupID c) consumerGroup = None /\
     BatcherMain.run CG New (Ok configs) =
       BatcherMain.Panic CG "assignment to entry in nil map").
Proof.
  intros Hne. destruct configs as [|c rest]; [congruence|].
  unfold BatcherMain.run. rewrite registerLoop_nil_map. split.
  - intros groups ready managers. destruct (New c); discriminate.
  - intros c' rest' cg [= <- <-] ->. split; reflexivity.
Qed.

Lemma run_registration_faults_witness :
  BatcherMain.run unit (fun _ => Ok tt)
    (Ok [BatcherMain.mkGroupConfig "g1" "^orders\."]) =
  BatcherMain.Panic unit "assignment to entry in nil map".
Proof.
  destruct (run_registration_faults unit (fun _ => Ok tt)
              [BatcherMain.mkGroupConfig "g1" "^orders\."] ltac:(discriminate))
    as [_ H].
  exact (proj2 (H _ _ tt eq_refl eq_refl)).
Defined.

(** ** Paths and keys *)

Section FilepathFacts.
Import Filepath.

Lemma append_nil_r (s : string) : s +:+ "" = s.
Proof. induction s as [|c s IH]; simpl; [reflexivity | by rewrite IH]. Qed.

Lemma append_assoc (a b c : string) : (a +:+ b) +:+ c = a +:+ (b +:+ c).
Proof. induction a as [|x a IH]; simpl; [reflexivity | by rewrite IH]. Qed.

Lemma append_length (a b : string) :
  String.length (a +:+ b) = (String.length a + String.length b)%nat.
Proof. induction a as [|x a IH]; simpl; [reflexivity | by rewrite IH]. Qed.

Lemma noSep_app (a b : string) : noSep (a +:+ b) = noSep a && noSep b.
Proof.
  induction a as [|x a IH]; simpl; [reflexivity|].
  rewrite IH. by rewrite andb_assoc.
Qed.

Lemma splitSep_noSep (s : string) : noSep s = true -> splitSep s = [s].
Proof.
  induction s as [|c s IH]; simpl; [reflexivity|].
  intros [Hc Hs]%andb_true_iff. apply negb_true_iff in Hc. rewrite Hc.
  by rewrite (IH Hs).
Qed.

Lemma splitSep_cons (a rest : string) :
  noSep a = true -> splitSep (a +:+ String "/" rest) = a :: splitSep rest.
Proof.
  induction a as [|c a IH]; simpl; [reflexivity|].
  intros [Hc Ha]%andb_true_iff. apply negb_true_iff in Hc. rewrite Hc.
  by rewrite (IH Ha).
Qed.

Lemma joinSep_cons (x y : string) (l : list string) :
  joinSep (x :: y :: l) = x +:+ String "/" (joinSep (y :: l)).
Proof. reflexivity. Qed.

Lemma joinSep_app (l1 l2 : list string) :
  l1 <> [] -> l2 <> [] ->
  joinSep (l1 ++ l2) = joinSep l1 +:+ String "/" (joinSep l2).
Proof.
  intros H1 H2. induction l1 as [|x l1 IH]; [congruence|].
  destruct l1 as [|y l1].
  - destruct l2 as [|z l2]; [congruence|]. reflexivity.
  - change ((x :: y :: l1) ++ l2) with (x :: y :: (l1 ++ l2)).
    rewrite !joinSep_cons. change (y :: l1 ++ l2) with ((y :: l1) ++ l2).
    rewrite IH by discriminate. by rewrite append_assoc.
Qed.

Lemma splitSep_joinSep (l : list string) :
  l <> [] -> Forall (fun e => noSep e = true) l -> splitSep (joinSep l) = l.
Proof.
  intros Hne Hl. induction Hl as [|x l Hx Hl IH]; [congruence|].
  destruct l as [|y l].
  - simpl. by apply splitSep_noSep.
  - rewrite joinSep_cons, splitSep_cons by done.
    by rewrite IH.
Qed.

Lemma plainElem_spec (e : string) :
  plainElem e = true <->
  noSep e = true /\ e <> "" /\ e <> "." /\ e <> "..".
Proof.
  unfold plainElem. rewrite !andb_true_iff, !negb_true_iff, !String.eqb_neq.
  tauto.
Qed.

Lemma cleanElem_plain (isRooted : bool) (out : list string) (e : string) :
  plainElem e = true -> cleanElem isRooted out e = e :: out.
Proof.
  intros (_ & H1 & H2 & H3)%plainElem_spec. unfold cleanElem.
  apply String.eqb_neq in H1, H2, H3. by rewrite H1, H2, H3.
Qed.

Lemma fold_cleanElem_plain (isRooted : bool) (l out : list string) :
  Forall (fun e => plainElem e = true) l ->
  fold_left (cleanElem isRooted) l out = rev l ++ out.
Proof.
  intros Hl. revert out. induction Hl as [|x l Hx Hl IH]; intros out; simpl.
  - reflexivity.
  - rewrite cleanElem_plain by done. rewrite IH. by rewrite <- app_assoc.
Qed.

Lemma Forall_plain_noSep (l : list string) :
  Forall (fun e => plainElem e = true) l -> Forall (fun e => noSep e = true) l.
Proof.
  intros Hl. eapply Forall_impl; [exact Hl|].
  intros e He. by apply plainElem_spec in He as [? _].
Qed.

Lemma joinSep_head (x : string) (l : list string) :
  exists tail, joinSep (x :: l) = x +:+ tail.
Proof.
  destruct l as [|y l].
  - exists "". simpl. by rewrite append_nil_r.
  - eexists. apply joinSep_cons.
Qed.

(** A relative path of proper elements is clean already. *)
Lemma Clean_plain (l : list string) :
  l <> [] -> Forall (fun e => plainElem e = true) l ->
  Clean (joinSep l) = joinSep l.
Proof.
  intros Hne Hl. unfold Clean.
  rewrite splitSep_joinSep by auto using Forall_plain_noSep.
  rewrite fold_cleanElem_plain by done. rewrite app_nil_r, rev_involutive.
  destruct l as [|x l]; [congruence|].
  apply Forall_cons in Hl as [Hx _].
  apply plainElem_spec in Hx as (Hs & Hx & _).
  destruct (joinSep_head x l) as [tail ->].
  destruct x as [|c x]; [congruence|]. simpl in *.
  apply andb_true_iff in Hs as [Hc _]. apply negb_true_iff in Hc.
  by rewrite Hc.
Qed.

(** So is an absolute one. *)
Lemma Clean_plain_rooted (l : list string) :
  l <> [] -> Forall (fun e => plainElem e = true) l ->
  Clean (String "/" (joinSep l)) = String "/" (joinSep l).
Proof.
  intros Hne Hl. unfold Clean. simpl.
  rewrite splitSep_joinSep by auto using Forall_plain_noSep.
  rewrite fold_cleanElem_plain by done. by rewrite app_nil_r, rev_involutive.
Qed.

Lemma Clean_nonempty (path : string) : Clean path <> "".
Proof.
  unfold Clean.
  destruct (String.eqb _ "") eqn:E; [discriminate | by apply String.eqb_neq].
Qed.

Lemma Join_nonempty (l : list string) (e : string) :
  e <> "" -> Join (l ++ [e]) <> "".
Proof.
  intros He. unfold Join.
  assert (dropLeadingEmpty (l ++ [e]) <> []) as Hd.
  { induction l as [|x l IH]; simpl.
    - apply String.eqb_neq in He. by rewrite He.
    - destruct (String.eqb x ""); [done | discriminate]. }
  destruct (dropLeadingEmpty (l ++ [e])); [congruence|]. apply Clean_nonempty.
Qed.

(** Decimal digits contain no separator. *)
Lemma noSep_string_of_uint (d : Decimal.uint) :
  noSep (NilEmpty.string_of_uint d) = true.
Proof. induction d; simpl; auto. Qed.

Lemma noSep_fmtInt (z : Z) : noSep (fmtInt z) = true.
Proof.
  unfold fmtInt, NilZero.string_of_int, NilZero.string_of_uint.
  destruct (Z.to_int z) as [d|d]; destruct d; simpl;
    auto using noSep_string_of_uint.
Qed.
End FilepathFacts.

Section KeyFacts.
Import Filepath Batcher.

Lemma s3FileName_length offset partition :
  (7 <= String.length (s3FileName offset partition))%nat.
Proof. unfold s3FileName. rewrite append_length. simpl. lia. Qed.

Lemma s3FileName_plain offset partition :
  plainElem (s3FileName offset partition) = true.
Proof.
  apply plainElem_spec. pose proof (s3FileName_length offset partition) as Hlen.
  split; [|repeat split; intros E; rewrite E in Hlen; simpl in Hlen; lia].
  unfold s3FileName. rewrite !noSep_app, !noSep_fmtInt. reflexivity.
Qed.

Lemma joinSep_plain_nonempty (l : list string) :
  l <> [] -> Forall (fun e => plainElem e = true) l -> joinSep l <> "".
Proof.
  intros Hne Hl. destruct l as [|x l]; [congruence|].
  apply Forall_cons in Hl as [(_ & Hx & _)%plainElem_spec _].
  destruct (joinSep_head x l) as [tail ->].
  destruct x; [congruence | discriminate].
Qed.

(** [Join] of a directory made of proper elements with further proper
    elements is the plain concatenation with separators. *)
Lemma Join_plain (abs : bool) (dirs rest : list string) :
  dirs <> [] -> rest <> [] ->
  Forall (fun e => plainElem e = true) (dirs ++ rest) ->
  Join (((if abs then "/" else "") +:+ joinSep dirs) :: rest) =
    ((if abs then "/" else "") +:+ joinSep dirs) +:+ String "/" (joinSep rest).
Proof.
  intros Hd Hr Hall.
  pose proof Hall as [Hdirs _]%Forall_app.
  pose proof (joinSep_plain_nonempty dirs Hd Hdirs) as Hne.
  assert (dirs ++ rest <> []) as Hne' by (destruct dirs; [congruence | discriminate]).
  unfold Join. simpl dropLeadingEmpty.
  replace (String.eqb ((if abs then "/" else "") +:+ joinSep dirs) "") with false.
  2: { symmetry. apply String.eqb_neq. destruct abs; simpl; [discriminate | done]. }
  destruct rest as [|y rest]; [congruence|]. rewrite joinSep_cons.
  destruct abs; simpl String.append.
  - rewrite <- joinSep_app by done. by apply Clean_plain_rooted.
  - rewrite <- joinSep_app by done. by apply Clean_plain.
Qed.

Lemma constructS3key_unfold mv dir group topic partition offset :
  constructS3key mv dir group topic partition offset =
    Join (dir :: group :: topic ::
            (if String.eqb mv "" then [] else [mv]) ++ [s3FileName offset partition]).
Proof. unfold constructS3key. by destruct (String.eqb mv ""). Qed.

Lemma constructS3key_nonempty mv dir group topic partition offset :
  constructS3key mv dir group topic partition offset <> "".
Proof.
  rewrite constructS3key_unfold.
  pose proof (s3FileName_length offset partition) as Hlen.
  assert (s3FileName offset partition <> "") as Hf
    by (intros E; rewrite E in Hlen; simpl in Hlen; lia).
  destruct (String.eqb mv "").
  - apply (Join_nonempty [dir; group; topic] _ Hf).
  - apply (Join_nonempty [dir; group; topic; mv] _ Hf).
Qed.

(** The layout of the key when the bucket directory is a path of proper
    elements (absolute or not) and group, topic and mask version are proper
    elements. *)
Lemma constructS3key_layout (abs : bool) (dirs : list string)
    (mv group topic : string) (partition offset : Z) :
  dirs <> [] ->
  Forall (fun e => plainElem e = true) (dirs ++ [group; topic]) ->
  mv = "" \/ plainElem mv = true ->
  constructS3key mv ((if abs then "/" else "") +:+ joinSep dirs) group topic
    partition offset =
  constructS3key_spec mv ((if abs then "/" else "") +:+ joinSep dirs) group topic
    partition offset.
Proof.
  intros Hd Hall Hmv. rewrite constructS3key_unfold. unfold constructS3key_spec.
  fold (s3FileName offset partition).
  pose proof (s3FileName_plain offset partition) as Hf.
  apply Forall_app in Hall as [Hdirs Hgt].
  apply Forall_cons in Hgt as [Hg Hgt]. apply Forall_cons in Hgt as [Ht _].
  destruct Hmv as [-> | Hmv].
  - simpl app. rewrite Join_plain; [reflexivity | done | discriminate |].
    apply Forall_app. split; [done|]. by repeat constructor.
  - assert (String.eqb mv "" = false) as ->.
    { apply String.eqb_neq. by apply plainElem_spec in Hmv as (_ & ? & _). }
    simpl app. rewrite Join_plain; [|done|discriminate|].
    + simpl. by rewrite !append_assoc.
    + apply Forall_app. split; [done|]. by repeat constructor.
Qed.
End KeyFacts.

(** ** The batch processor *)

Section BatchFacts.
Import Batcher.
Context `{Collaborators}.

Lemma bind_run {A B : Type} (m : M A) (f : A -> M B) (w : world) :
  (m ≫= f) w =
    match m w with
    | (Val a, w') => f a w'
    | (Fatal msg, w') => (Fatal msg, w')
    end.
Proof. reflexivity. Qed.

Lemma ret_run {A : Type} (a : A) (w : world) : mret (M := M) a w = (Val a, w).
Proof. reflexivity. Qed.

Lemma ctxDone_world (w w' : world) (d : outcome bool) :
  ctxDone w = (d, w') ->
  trace w' = trace w /\ selects w' = selects w /\ exists done, d = Val done.
Proof.
  unfold ctxDone. destruct (polls w); intros [= <- <-]; simpl; eauto.
Qed.

(** *** One message *)

Lemma processMessage_keeps b m r r' m' n e :
  processMessage b m r = (r', m', n, e) ->
  err r' = err r /\ batchID r' = batchID r.
Proof.
  unfold processMessage, lockSchema. intros Hp.
  repeat case_match; simplify_eq; simpl; auto.
Qed.

Lemma processMessage_locked b m r r' m' n e :
  s3Key r <> "" ->
  processMessage b m r = (r', m', n, e) ->
  s3Key r' = s3Key r /\ batchSchemaID r' = batchSchemaID r /\
  startOffset r' = startOffset r /\
  (SchemaId m <> batchSchemaID r ->
   r' = r /\ e = Some (ErrSchemaMismatch (topic b) (batchSchemaID r) (SchemaId m))).
Proof.
  intros Hk%String.eqb_neq. unfold processMessage, lockSchema. rewrite Hk.
  destruct (batchSchemaID r =? SchemaId m) eqn:E; simpl.
  - apply Z.eqb_eq in E. intros Hp.
    repeat case_match; simplify_eq; simpl; repeat split; auto; congruence.
  - intros [= <- <- <- <-]. auto.
Qed.

Lemma processMessage_fresh b m r r' m' n :
  s3Key r = "" ->
  processMessage b m r = (r', m', n, None) ->
  s3Key r' =
    constructS3key (maskFileVersion b) (s3BucketDir b) (consumerGroupID b)
      (Topic m) (Partition m) (Offset m) /\
  batchSchemaID r' = SchemaId m /\ startOffset r' = Offset m.
Proof.
  intros Hk. unfold processMessage, lockSchema. rewrite Hk. simpl.
  intros Hp. repeat case_match; simplify_eq; simpl; auto.
Qed.

(** *** The loop over a buffer *)

Lemma processMessages_world b buf : forall r t w o w',
  processMessages b buf r t w = (o, w') ->
  trace w' = trace w /\ selects w' = selects w.
Proof.
  induction buf as [|m buf IH]; intros r t w o w'; simpl.
  - rewrite ret_run. intros [= <- <-]. auto.
  - rewrite bind_run. destruct (ctxDone w) as [d w1] eqn:Ed.
    apply ctxDone_world in Ed as (Ht & Hs & done & ->).
    destruct done; [rewrite ret_run; intros [= <- <-]; auto|].
    destruct (processMessage b m r) as [[[r1 m1] n] e].
    destruct e; [rewrite ret_run; intros [= <- <-]; auto|].
    destruct (MsgOperation m1); try (intros Hp; apply IH in Hp; intuition congruence).
    unfold fatal. intros [= <- <-]. auto.
Qed.

Lemma processMessages_keeps b buf : forall r t w r' t' e w',
  processMessages b buf r t w = (Val (r', t', e), w') ->
  err r' = err r /\ batchID r' = batchID r.
Proof.
  induction buf as [|m buf IH]; intros r t w r' t' e w'; simpl.
  - rewrite ret_run. intros [= <- <- <- <-]. auto.
  - rewrite bind_run. destruct (ctxDone w) as [d w1] eqn:Ed.
    apply ctxDone_world in Ed as (_ & _ & done & ->).
    destruct done; [rewrite ret_run; intros [= <- <- <- <-]; auto|].
    destruct (processMessage b m r) as [[[r1 m1] n] e1] eqn:Ep.
    apply processMessage_keeps in Ep as [He Hb].
    destruct e1; [rewrite ret_run; intros [= <- <- <- <-]; auto|].
    destruct (MsgOperation m1);
      try (intros Hp; apply IH in Hp; simpl in Hp; intuition congruence).
    unfold fatal. discriminate.
Qed.

Lemma processMessages_locked_keeps b buf : forall r t w r' t' e w',
  s3Key r <> "" ->
  processMessages b buf r t w = (Val (r', t', e), w') ->
  s3Key r' = s3Key r /\ batchSchemaID r' = batchSchemaID r /\
  startOffset r' = startOffset r.
Proof.
  induction buf as [|m buf IH]; intros r t w r' t' e w' Hk; simpl.
  - rewrite ret_run. intros [= <- <- <- <-]. auto.
  - rewrite bind_run. destruct (ctxDone w) as [d w1] eqn:Ed.
    apply ctxDone_world in Ed as (_ & _ & done & ->).
    destruct done; [rewrite ret_run; intros [= <- <- <- <-]; auto|].
    destruct (processMessage b m r) as [[[r1 m1] n] e1] eqn:Ep.
    apply (processMessage_locked _ _ _ _ _ _ _ Hk) in Ep as (H1 & H2 & H3 & _).
    destruct e1; [rewrite ret_run; intros [= <- <- <- <-]; auto|].
    destruct (MsgOperation m1);
      try (intros Hp; apply IH in Hp; simpl in *; [intuition congruence | congruence]).
    unfold fatal. discriminate.
Qed.

(** A batch that got through took key, schema id and start offset from its
    first message. *)
Lemma processMessages_first b m0 rest r t w r' t' w' :
  s3Key r = "" ->
  processMessages b (m0 :: rest) r t w = (Val (r', t', None), w') ->
  s3Key r' =
    constructS3key (maskFileVersion b) (s3BucketDir b) (consumerGroupID b)
      (Topic m0) (Partition m0) (Offset m0) /\
  batchSchemaID r' = SchemaId m0 /\ startOffset r' = Offset m0.
Proof.
  intros Hk. simpl. rewrite bind_run. destruct (ctxDone w) as [d w1] eqn:Ed.
  apply ctxDone_world in Ed as (_ & _ & done & ->).
  destruct done; [rewrite ret_run; discriminate|].
  destruct (processMessage b m0 r) as [[[r1 m1] n] e1] eqn:Ep.
  destruct e1; [rewrite ret_run; discriminate|].
  apply (processMessage_fresh _ _ _ _ _ _ Hk) in Ep as (H1 & H2 & H3).
  assert (s3Key r1 <> "") as Hk1 by (rewrite H1; apply constructS3key_nonempty).
  destruct (MsgOperation m1);
    try (intros Hp; apply processMessages_locked_keeps in Hp; simpl in *;
         [intuition congruence | congruence]).
  unfold fatal. discriminate.
Qed.



End BatchFacts.

Section RoundFacts.
Import Batcher.
Context `{Collaborators}.

(** *** One slot *)

Lemma processBatch_spec b buf r w o w' :
  err r = None ->
  processBatch b buf r w = (o, w') ->
  selects w' = selects w /\
  exists evs, trace w' = trace w ++ evs /\
    Forall (fun e => isUpload e = true) evs /\
    match o with
    | Val r' =>
        batchID r' = batchID r /\
        (err r' = None -> exists e, evs = [e] /\ uploadedOk r' e)
    | Fatal _ => True
    end.
Proof.
  intros Herr. unfold processBatch. rewrite bind_run.
  destruct (ctxDone w) as [d w1] eqn:Ed.
  apply ctxDone_world in Ed as (Ht1 & Hs1 & done & ->).
  destruct done.
  { rewrite ret_run. intros [= <- <-]. split; [done|]. exists [].
    rewrite app_nil_r. simpl. repeat split; auto. discriminate. }
  rewrite bind_run.
  destruct (processMessages b buf r 0 w1) as [[[[r1 t1] e1]|msg] w2] eqn:Ep.
  2: { intros [= <- <-]. apply processMessages_world in Ep as [Ht2 Hs2].
       split; [congruence|]. exists []. rewrite app_nil_r.
       repeat split; auto; congruence. }
  pose proof (processMessages_world _ _ _ _ _ _ _ Ep) as [Ht2 Hs2].
  apply processMessages_keeps in Ep as [He2 Hb2].
  destruct e1 as [e1|].
  { rewrite ret_run. intros [= <- <-]. split; [congruence|]. exists [].
    rewrite app_nil_r. simpl. repeat split; auto; congruence. }
  simpl. destruct (GzipWrite (bodyBuf r1)) as [gz|msg].
  2: { unfold fatal. intros [= <- <-]. split; [congruence|]. exists [].
       rewrite app_nil_r. repeat split; auto; congruence. }
  destruct (Upload (s3Key r1) gz) as [cause|]; rewrite bind_run; simpl;
    rewrite ret_run; intros [= <- <-]; simpl; (split; [congruence|]);
    eexists [_]; (split; [by rewrite Ht2, Ht1|]);
    (split; [by repeat constructor|]); simpl; (split; [congruence|]).
  - discriminate.
  - intros _. eexists. split; [reflexivity|]. by eexists.
Qed.


(** *** The slots of a round *)

Lemma newResponse_fresh i : err (newResponse i) = None /\ s3Key (newResponse i) = "".
Proof. split; reflexivity. Qed.

Lemma processBatches_spec b bufs : forall i w o w',
  processBatches b i bufs w = (o, w') ->
  selects w' = selects w /\
  exists evs, trace w' = trace w ++ evs /\
    Forall (fun e => isUpload e = true) evs /\
    match o with
    | Val rs =>
        length rs = length bufs /\
        (Forall (fun r => err r = None) rs -> Forall2 uploadedOk rs evs)
    | Fatal _ => True
    end.
Proof.
  induction bufs as [|buf bufs IH]; intros i w o w'; simpl.
  - rewrite ret_run. intros [= <- <-]. split; [done|]. exists [].
    rewrite app_nil_r. repeat split; auto; intros _; constructor.
  - rewrite bind_run.
    destruct (processBatch b buf (newResponse i) w) as [[r1|msg] w1] eqn:E1;
      apply processBatch_spec in E1 as (Hs1 & evs1 & Ht1 & Hu1 & Ho1);
      try reflexivity.
    2: { intros [= <- <-]. split; [done|]. by exists evs1. }
    destruct Ho1 as [_ Hok1]. rewrite bind_run.
    destruct (processBatches b (i + 1) bufs w1) as [[rs|msg] w2] eqn:E2;
      apply IH in E2 as (Hs2 & evs2 & Ht2 & Hu2 & Ho2).
    2: { intros [= <- <-]. split; [congruence|]. exists (evs1 ++ evs2).
         rewrite Ht2, Ht1, app_assoc. repeat split; auto.
         by apply Forall_app. }
    rewrite ret_run. intros [= <- <-]. split; [congruence|].
    exists (evs1 ++ evs2). rewrite Ht2, Ht1, app_assoc.
    split; [done|]. split; [by apply Forall_app|].
    destruct Ho2 as [Hlen Hall]. simpl. split; [by rewrite Hlen|].
    intros [Hr1 Hrs]%Forall_cons.
    destruct (Hok1 Hr1) as (e & -> & He). simpl. constructor; auto.
Qed.


Lemma scanErrors_clean rs : forall acc,
  scanErrors rs acc = Some [] <-> acc = [] /\ Forall (fun r => err r = None) rs.
Proof.
  induction rs as [|r rs IH]; intros acc; simpl.
  - split; [intros [= ->]; auto | intros [-> _]; done].
  - destruct (err r) as [e|] eqn:Er.
    + split.
      * destruct (isContextDone e); [discriminate|].
        intros [Hacc _]%IH. by destruct acc.
      * intros [_ [Hr _]%Forall_cons]. congruence.
    + rewrite IH. split; intros [-> Hrs]; split; auto.
      by apply Forall_cons in Hrs as [_ ?].
Qed.
End RoundFacts.

Section ProcessFacts.
Import Batcher.
Context `{Collaborators}.

Lemma offsetFree_upload (e : event) : isUpload e = true -> offsetFree e.
Proof. by destruct e. Qed.

Lemma uploadedOk_offsetFree rs evs :
  Forall2 uploadedOk rs evs -> Forall offsetFree evs.
Proof. induction 1 as [|r e rs evs [body ->] _ IH]; by constructor. Qed.

(** *** The signal loop *)

Lemma signalAll_spec b rs : forall w o w',
  signalAll b rs w = (o, w') ->
  selects w' = selects w /\
  exists ok evs, o = Val ok /\ trace w' = trace w ++ evs /\
    Forall offsetFree evs /\
    (ok = true -> evs = map (signalledOk b) rs).
Proof.
  induction rs as [|r rs IH]; intros w o w'; simpl.
  - rewrite ret_run. intros [= <- <-]. split; [done|]. exists true, [].
    rewrite app_nil_r. auto.
  - rewrite bind_run. destruct (ctxDone w) as [d w1] eqn:Ed.
    apply ctxDone_world in Ed as (Ht1 & Hs1 & done & ->).
    destruct done.
    { rewrite ret_run. intros [= <- <-]. split; [done|]. exists false, [].
      rewrite app_nil_r. repeat split; auto. discriminate. }
    rewrite bind_run. unfold signalLoad.
    destruct (signalerAdd _ _ _) as [cause|]; rewrite bind_run; simpl.
    + rewrite bind_run.
      destruct (ctxDone _) as [d w2] eqn:Ed.
      apply ctxDone_world in Ed as (Ht2 & Hs2 & done & ->). simpl in Ht2, Hs2.
      destruct done; simpl; intros [= <- <-]; simpl;
        (split; [congruence|]); exists false; eexists;
        (split; [done|]); rewrite ?Ht2, Ht1, <- ?app_assoc;
        (split; [reflexivity|]); (split; [by repeat constructor | discriminate]).
    + intros Hrest. apply IH in Hrest as (Hs2 & ok & evs & -> & Ht2 & Hf & Hok).
      simpl in *. split; [congruence|].
      exists ok, (signalledOk b r :: evs). split; [done|]. rewrite Ht2, Ht1.
      split; [by rewrite <- app_assoc|]. split; [by constructor|].
      intros Ht. by rewrite (Hok Ht).
Qed.

(** *** A round *)

(** The events of a round.  A round that ends with [RoundDone] has, in this
    order: the successful upload of every slot, the successful signal of
    every slot, the mark of the last slot's end offset plus one on
    partition 0, and the commit when auto-commit is off.  Any other round
    has neither mark nor commit. *)
Lemma round_spec b msgBufs w o w' :
  round b msgBufs w = (o, w') ->
  selects w' = selects w /\
  exists evs, trace w' = trace w ++ evs /\
    match o with
    | Val RoundDone =>
        exists responses lastResp uploads,
          (processBatches b 0 msgBufs w).1 = Val responses /\
          length responses = length msgBufs /\
          last responses = Some lastResp /\
          Forall (fun r => err r = None) responses /\
          Forall2 uploadedOk responses uploads /\
          evs = uploads ++ map (signalledOk b) responses ++
                EvMarkOffset (topic b) 0 (add64 (endOffset lastResp) 1) ::
                (if autoCommit b then [] else [EvCommit])
    | _ => Forall offsetFree evs
    end.
Proof.
  unfold round. rewrite bind_run.
  destruct (processBatches b 0 msgBufs w) as [[rs|msg] w1] eqn:Eb;
    apply processBatches_spec in Eb as (Hs1 & ups & Ht1 & Hup & Ho1).
  2: { intros [= <- <-]. split; [done|]. exists ups. split; [done|].
       eapply Forall_impl; [exact Hup | apply offsetFree_upload]. }
  destruct Ho1 as [Hlen Hok].
  assert (Forall offsetFree ups) as Hfree
    by (eapply Forall_impl; [exact Hup | apply offsetFree_upload]).
  destruct (last rs) as [lastResp|] eqn:El.
  2: { unfold fatal. intros [= <- <-]. split; [done|]. by exists ups. }
  destruct (scanErrors rs []) as [[|e errs]|] eqn:Es.
  - apply scanErrors_clean in Es as [_ Hall]. specialize (Hok Hall).
    rewrite bind_run.
    destruct (signalAll b rs w1) as [o2 w2] eqn:Esig.
    apply signalAll_spec in Esig as (Hs2 & ok & sigs & -> & Ht2 & Hf2 & Hsig).
    destruct ok.
    + specialize (Hsig eq_refl). subst sigs. unfold markOffset.
      destruct (autoCommit b); simpl; intros [= <- <-]; simpl;
        (split; [congruence|]); eexists;
        (split; [rewrite Ht2, Ht1, <- !app_assoc; simpl; reflexivity|]);
        exists rs, lastResp, ups; repeat split; auto;
        by rewrite <- ?app_assoc.
    + rewrite ret_run. intros [= <- <-]. split; [congruence|].
      exists (ups ++ sigs). rewrite Ht2, Ht1, app_assoc. split; [done|].
      by apply Forall_app.
  - rewrite bind_run. unfold handleShutdown. simpl. rewrite bind_run.
    destruct (ctxDone _) as [d w2] eqn:Ed.
    apply ctxDone_world in Ed as (Ht2 & Hs2 & done & ->). simpl in Ht2, Hs2.
    destruct done; simpl; intros [= <- <-]; simpl;
      (split; [congruence|]); eexists;
      (split; [rewrite ?Ht2, Ht1, <- ?app_assoc; reflexivity|]);
      apply Forall_app; (split; [done | by repeat constructor]).
  - rewrite ret_run. intros [= <- <-]. split; [done|]. by exists ups.
Qed.

Lemma round_markOnZero b msgBufs w o w' :
  round b msgBufs w = (o, w') ->
  selects w' = selects w /\
  exists evs, trace w' = trace w ++ evs /\ Forall (markOnZero b) evs.
Proof.
  intros Hr. apply round_spec in Hr as (Hs & evs & Ht & Ho).
  split; [done|]. exists evs. split; [done|].
  assert (forall l, Forall offsetFree l -> Forall (markOnZero b) l) as Hfree.
  { intros l Hl. eapply Forall_impl; [exact Hl|]. intros e [Hm _]. by destruct e. }
  destruct o as [[|]|]; auto.
  destruct Ho as (rs & lastResp & ups & _ & _ & _ & _ & Hups & ->).
  apply Forall_app. split; [eauto using uploadedOk_offsetFree|].
  apply Forall_app. split.
  - apply Forall_forall. intros e (r & -> & _)%list_elem_of_fmap. exact I.
  - constructor; [done|]. destruct (autoCommit b); by repeat constructor.
Qed.

(** *** The read loop and the processor *)

Lemma readLoop_spec mc sel : forall bufs d rest,
  readLoop mc bufs sel = (d, rest) ->
  (length rest <= length sel)%nat /\
  forall ready, d = DrainReady ready ->
    (length rest < length sel)%nat /\ ready <> [].
Proof.
  induction sel as [|s sel IH]; intros bufs d rest; simpl.
  - intros [= <- <-]. split; [done | discriminate].
  - destruct s as [|buf|].
    + intros [= <- <-]. split; [lia | discriminate].
    + destruct (Z.of_nat (length (bufs ++ [buf])) =? mc).
      * intros [= <- <-]. split; [lia|]. intros ready [= <-].
        split; [lia|]. by destruct bufs.
      * intros [Hle Hr]%IH. split; [lia|]. intros ready ->.
        destruct (Hr ready eq_refl). split; [lia | done].
    + destruct (0 <? Z.of_nat (length bufs)) eqn:E.
      * intros [= <- <-]. split; [lia|]. intros ready [= <-].
        split; [lia|]. destruct bufs; [done | discriminate].
      * intros [Hle Hr]%IH. split; [lia|]. intros ready ->.
        destruct (Hr ready eq_refl). split; [lia | done].
Qed.

Lemma drain_spec mc w :
  exists d w', drain mc w = (Val d, w') /\ trace w' = trace w /\
    (length (selects w') <= length (selects w))%nat /\
    forall ready, d = DrainReady ready ->
      (length (selects w') < length (selects w))%nat /\ ready <> [].
Proof.
  unfold drain. destruct (readLoop mc [] (selects w)) as [d rest] eqn:E.
  apply readLoop_spec in E as [Hle Hr]. exists d. eexists.
  split; [reflexivity|]. simpl. auto.
Qed.

Lemma ProcessLoop_markOnZero b fuel : forall w,
  exists evs, trace (ProcessLoop b fuel w).2 = trace w ++ evs /\
    Forall (markOnZero b) evs.
Proof.
  induction fuel as [|fuel IH]; intros w; simpl.
  - exists []. by rewrite app_nil_r.
  - rewrite bind_run.
    destruct (drain_spec (maxConcurrency b) w) as (d & w1 & -> & Ht1 & _).
    destruct d as [|msgBufs|]; try (exists []; by rewrite app_nil_r).
    rewrite bind_run. destruct (round b msgBufs w1) as [o w2] eqn:Er.
    apply round_markOnZero in Er as (_ & evs & Ht2 & Hm).
    destruct o as [[|]|]; simpl; try (exists evs; by rewrite Ht2, Ht1).
    destruct (IH w2) as (evs2 & Ht3 & Hm2).
    exists (evs ++ evs2). rewrite Ht3, Ht2, Ht1, app_assoc.
    split; [done | by apply Forall_app].
Qed.

(** The fuel of [Process] is enough. *)
Lemma ProcessLoop_fuel b fuel : forall w,
  (length (selects w) < fuel)%nat ->
  (ProcessLoop b fuel w).1 <> Val OutOfFuel.
Proof.
  induction fuel as [|fuel IH]; intros w Hlt; [lia|]. simpl.
  rewrite bind_run.
  destruct (drain_spec (maxConcurrency b) w) as (d & w1 & -> & _ & _ & Hr).
  destruct d as [|msgBufs|]; try discriminate.
  destruct (Hr msgBufs eq_refl) as [Hlt1 _].
  rewrite bind_run. destruct (round b msgBufs w1) as [o w2] eqn:Er.
  apply round_spec in Er as (Hs & _).
  destruct o as [[|]|]; simpl; try discriminate.
  apply IH. rewrite Hs. lia.
Qed.

Lemma Process_returns_or_blocks b w :
  (Process b w).1 <> Val OutOfFuel.
Proof. unfold Process. apply ProcessLoop_fuel. lia. Qed.

End ProcessFacts.

(** ** The claims about the batch processor *)

(** C1: a round that completes ([RoundDone]) ran every slot without error;
    its events are, in this order, the successful upload of every slot, the
    successful load-job signal of every slot, the mark of the last slot's
    end offset plus one, and the synchronous commit when auto-commit is off.
    A round that does not complete marks and commits nothing.  In the
    scenario with the records at offsets 100 and 101 the marked and
    committed offset is 102. *)
Theorem round_marks_after_uploads_and_signals `{Batcher.Collaborators}
    (b : Batcher.batchProcessor) (msgBufs : list (list Batcher.Message))
    (w : Batcher.world) :
  (forall w', Batcher.round b msgBufs w = (Batcher.Val Batcher.RoundDone, w') ->
     exists responses lastResp uploads,
       (Batcher.processBatches b 0 msgBufs w).1 = Batcher.Val responses /\
       length responses = length msgBufs /\
       last responses = Some lastResp /\
       Forall (fun r => Batcher.err r = None) responses /\
       Forall2 Batcher.uploadedOk responses uploads /\
       Batcher.trace w' =
         Batcher.trace w ++ uploads ++ map (Batcher.signalledOk b) responses ++
         Batcher.EvMarkOffset (Batcher.topic b) 0
           (add64 (Batcher.endOffset lastResp) 1) ::
         (if Batcher.autoCommit b then [] else [Batcher.EvCommit]) /\
       (int64_min <= Batcher.endOffset lastResp < int64_max ->
        add64 (Batcher.endOffset lastResp) 1 = Batcher.endOffset lastResp + 1)) /\
  (forall o w', Batcher.round b msgBufs w = (o, w') ->
     o <> Batcher.Val Batcher.RoundDone ->
     exists evs, Batcher.trace w' = Batcher.trace w ++ evs /\
       Forall Batcher.offsetFree evs) /\
  Scenario.run 0 [[Scenario.record 7 100; Scenario.record 7 101]] =
    (Batcher.Val Batcher.Blocked,
     [Batcher.EvUpload 1 "bucketDir/g1-batcher/orders/100_offset_0_partition.json.gz"
        ("{}" +:+ Batcher.newline +:+ "{}" +:+ Batcher.newline) true;
      Batcher.EvSignal 1 "loader-orders" Scenario.happyJob true;
      Batcher.EvMarkOffset "orders" 0 102;
      Batcher.EvCommit]).
Proof.
  split; [|split].
  - intros w' Hr. apply round_spec in Hr as (_ & evs & Ht & Ho).
    destruct Ho as (rs & lastResp & ups & Hrs & Hlen & Hlast & Hall & Hups & ->).
    exists rs, lastResp, ups. repeat split; auto using add64_succ.
  - intros o w' Hr Ho. apply round_spec in Hr as (_ & evs & Ht & Hevs).
    exists evs. split; [done|]. by destruct o as [[|]|].
  - vm_compute. reflexivity.
Qed.

Section HappyBatchWitness.
#[local] Existing Instance Scenario.schema.
#[local] Existing Instance Scenario.collaborators.

Lemma round_marks_after_uploads_and_signals_witness :
  let b := Scenario.processor 0 in
  let bufs := [[Scenario.record 7 100; Scenario.record 7 101]] in
  let w := Scenario.start [] in
  let w' := (Batcher.round b bufs w).2 in
  Batcher.round b bufs w = (Batcher.Val Batcher.RoundDone, w') /\
  exists responses lastResp uploads,
    (Batcher.processBatches b 0 bufs w).1 = Batcher.Val responses /\
    length responses = length bufs /\
    last responses = Some lastResp /\
    Forall (fun r => Batcher.err r = None) responses /\
    Forall2 Batcher.uploadedOk responses uploads /\
    Batcher.trace w' =
      Batcher.trace w ++ uploads ++ map (Batcher.signalledOk b) responses ++
      Batcher.EvMarkOffset (Batcher.topic b) 0
        (add64 (Batcher.endOffset lastResp) 1) ::
      (if Batcher.autoCommit b then [] else [Batcher.EvCommit]) /\
    (int64_min <= Batcher.endOffset lastResp < int64_max ->
     add64 (Batcher.endOffset lastResp) 1 = Batcher.endOffset lastResp + 1).
Proof.
  intros b bufs w w'.
  assert (Batcher.round b bufs w = (Batcher.Val Batcher.RoundDone, w')) as Hr
    by (vm_compute; reflexivity).
  split; [exact Hr|].
  exact (proj1 (round_marks_after_uploads_and_signals b bufs w) w' Hr).
Defined.
End HappyBatchWitness.

(** C10: whatever the partition of the processor, the mark of a completed
    round is made on partition 0, and every mark in a run of [Process] is a
    mark on partition 0 of the processor's topic; a processor on another
    partition never marks an offset under its own partition. *)
Theorem mark_offset_on_partition_zero `{Batcher.Collaborators}
    (b : Batcher.batchProcessor) (w : Batcher.world) :
  (forall msgBufs w',
     Batcher.round b msgBufs w = (Batcher.Val Batcher.RoundDone, w') ->
     exists before offset after,
       Batcher.trace w' =
         Batcher.trace w ++ before ++
         Batcher.EvMarkOffset (Batcher.topic b) 0 offset :: after /\
       Forall Batcher.offsetFree before /\
       Forall (fun e => Batcher.isMark e = false) after) /\
  (exists evs,
     Batcher.trace (Batcher.Process b w).2 = Batcher.trace w ++ evs /\
     Forall (Batcher.markOnZero b) evs /\
     (Batcher.partition b <> 0 ->
      forall t o, Batcher.EvMarkOffset t (Batcher.partition b) o ∉ evs)).
Proof.
  split.
  - intros msgBufs w' Hr. apply round_spec in Hr as (_ & evs & Ht & Ho).
    destruct Ho as (rs & lastResp & ups & _ & _ & _ & _ & Hups & ->).
    exists (ups ++ map (Batcher.signalledOk b) rs),
      (add64 (Batcher.endOffset lastResp) 1),
      (if Batcher.autoCommit b then [] else [Batcher.EvCommit]).
    rewrite Ht, <- !app_assoc. split; [done|]. split.
    + apply Forall_app. split; [eauto using uploadedOk_offsetFree|].
      apply Forall_forall. intros e (r & -> & _)%list_elem_of_fmap. by split.
    + destruct (Batcher.autoCommit b); by repeat constructor.
  - unfold Batcher.Process.
    destruct (ProcessLoop_markOnZero b (S (length (Batcher.selects w))) w)
      as (evs & Ht & Hm).
    exists evs. split; [done|]. split; [done|].
    intros Hp t o Hin. rewrite Forall_forall in Hm.
    apply Hm in Hin as [_ ?]. done.
Qed.

Section PartitionWitness.
#[local] Existing Instance Scenario.schema.
#[local] Existing Instance Scenario.collaborators.

Lemma mark_offset_on_partition_zero_witness :
  let b := Scenario.processor 3 in
  let bufs := [[Scenario.record 7 100; Scenario.record 7 101]] in
  (Scenario.run 3 bufs).2 !! 2%nat = Some (Batcher.EvMarkOffset "orders" 0 102) /\
  forall t o, Batcher.EvMarkOffset t 3 o ∉ (Scenario.run 3 bufs).2.
Proof.
  intros b bufs. split; [vm_compute; reflexivity|].
  destruct (mark_offset_on_partition_zero b (Scenario.start bufs)) as [_ Hp].
  destruct Hp as (evs & Ht & _ & Hno).
  assert ((Scenario.run 3 bufs).2 = evs) as ->.
  { unfold Scenario.run. fold b.
    destruct (Batcher.Process b (Scenario.start bufs)) as [o w']. simpl in *.
    exact Ht. }
  apply Hno. vm_compute. discriminate.
Defined.
End PartitionWitness.


Section MixedBatchWitness.
#[local] Existing Instance Scenario.schema.
#[local] Existing Instance Scenario.collaborators.

End MixedBatchWitness.

(** C7, as stated, fails: with the bucket directory left empty, [Join] drops
    the empty element and the key has no leading separator, where the stated
    layout "{bucketDir}/{consumerGroupID}/..." begins with one. *)
Lemma constructS3key_empty_bucketDir :
  Batcher.constructS3key "" "" "g1-batcher" "orders" 0 100 =
    "g1-batcher/orders/100_offset_0_partition.json.gz" /\
  Batcher.constructS3key_spec "" "" "g1-batcher" "orders" 0 100 =
    "/g1-batcher/orders/100_offset_0_partition.json.gz" /\
  Batcher.constructS3key "" "" "g1-batcher" "orders" 0 100 <>
    Batcher.constructS3key_spec "" "" "g1-batcher" "orders" 0 100.
Proof. vm_compute. repeat split; congruence. Qed.

(** C7 (amended): [constructS3key] is [filepath.Join] of bucket directory,
    group, topic, the mask version when it is not empty, and the file name
    "{offset}_offset_{partition}_partition.json.gz".  When the bucket
    directory is a path of proper elements (non-empty, without separator,
    neither "." nor ".."), absolute or relative, and group, topic and a
    non-empty mask version are proper elements, that is exactly
    {bucketDir}/{group}/{topic}/[{maskVersion}/]{offset}_offset_{partition}_partition.json.gz.
    The key of a batch that went through is the one built from topic,
    partition and offset of its first message. *)
Theorem constructS3key_joins_segments `{Batcher.Collaborators} :
  (forall mv dir group topic partition offset,
     Batcher.constructS3key mv dir group topic partition offset =
       Filepath.Join
         (dir :: group :: topic ::
            (if String.eqb mv "" then [] else [mv]) ++
            [Batcher.s3FileName offset partition])) /\
  (forall (abs : bool) dirs mv group topic partition offset,
     dirs <> [] ->
     Forall (fun e => Filepath.plainElem e = true) (dirs ++ [group; topic]) ->
     mv = "" \/ Filepath.plainElem mv = true ->
     Batcher.constructS3key mv ((if abs then "/" else "") +:+ Filepath.joinSep dirs)
       group topic partition offset =
     Batcher.constructS3key_spec mv
       ((if abs then "/" else "") +:+ Filepath.joinSep dirs)
       group topic partition offset) /\
  (forall b m0 rest t w r' t' w',
     Batcher.processMessages b (m0 :: rest) (Batcher.newResponse t) 0 w =
       (Batcher.Val (r', t', None), w') ->
     Batcher.s3Key r' =
       Batcher.constructS3key (Batcher.maskFileVersion b) (Batcher.s3BucketDir b)
         (Batcher.consumerGroupID b) (Batcher.Topic m0) (Batcher.Partition m0)
         (Batcher.Offset m0) /\
     Batcher.startOffset r' = Batcher.Offset m0).
Proof.
  split; [|split].
  - apply constructS3key_unfold.
  - intros. by apply constructS3key_layout.
  - intros b m0 rest t w r' t' w' Hp.
    apply processMessages_first in Hp as (Hk & _ & Hs); [auto | reflexivity].
Qed.

Section KeyWitness.
#[local] Existing Instance Scenario.schema.
#[local] Existing Instance Scenario.collaborators.

Lemma constructS3key_joins_segments_witness :
  Batcher.constructS3key "" "bucketDir" "g1-batcher" "orders" 0 100 =
    "bucketDir/g1-batcher/orders/100_offset_0_partition.json.gz" /\
  Batcher.constructS3key "v2" "/data/staging" "g1-batcher" "orders" 0 100 =
    "/data/staging/g1-batcher/orders/v2/100_offset_0_partition.json.gz".
Proof.
  destruct constructS3key_joins_segments as (_ & Hlayout & _).
  split.
  - exact (Hlayout false ["bucketDir"] "" "g1-batcher" "orders" 0 100
             ltac:(discriminate) ltac:(by repeat constructor) ltac:(by left)).
  - exact (Hlayout true ["data"; "staging"] "v2" "g1-batcher" "orders" 0 100
             ltac:(discriminate) ltac:(by repeat constructor) ltac:(by right)).
Defined.
End KeyWitness.

(** ** The realtime calculation *)

Section CalculateFacts.
Import Realtime.
Variables dB dL : Z.

Lemma maxLag_status rsk topic t g :
  maxLag dB dL (updateTopicGroup rsk t g) topic = maxLag dB dL rsk topic.
Proof. reflexivity. Qed.

(** An error of [fetchRealtimeInfo] leaves both flags false, the loader's
    current offset unset and the sink untouched. *)
Lemma fetchRealtimeInfo_error w rsk now topic loaderTopic group info e rsk' :
  fetchRealtimeInfo w rsk now topic loaderTopic group = (info, Some e, rsk') ->
  batcherRealtime info = false /\ loaderRealtime info = false /\
  loader info ≫= current = None /\ rsk' = rsk.
Proof.
  unfold fetchRealtimeInfo. intros Hf.
  repeat case_match; simplify_eq; simpl; auto.
Qed.

Lemma batcherSide_loader mb topic info r :
  loader (batcherSide mb topic (info, r)).1 = loader info /\
  loaderRealtime (batcherSide mb topic (info, r)).1 = loaderRealtime info /\
  cache (batcherSide mb topic (info, r)).2 = cache r /\
  rsk (batcherSide mb topic (info, r)).2 = rsk r.
Proof. unfold batcherSide. repeat case_match; simplify_eq; simpl; auto. Qed.

Lemma loaderSide_state ml ltopic info r :
  cache (loaderSide ml ltopic (info, r)).2 = cache r /\
  rsk (loaderSide ml ltopic (info, r)).2 = rsk r.
Proof. unfold loaderSide. repeat case_match; simplify_eq; simpl; auto. Qed.

Lemma loaderSide_no_current ml ltopic info r :
  loader info ≫= current = None ->
  loaderRealtime (loaderSide ml ltopic (info, r)).1 = loaderRealtime info.
Proof.
  unfold loaderSide. intros ->. repeat case_match; simplify_eq; simpl; auto.
Qed.

(** What "compute realtime" appends: the topic, or nothing. *)
Lemma computeRealtime_appends now hit topic ltopic info r rt :
  (computeRealtime dB dL now hit topic ltopic info r rt).2 = rt \/
  (computeRealtime dB dL now hit topic ltopic info r rt).2 = rt ++ [topic].
Proof.
  unfold computeRealtime. destruct (maxLag dB dL (rsk r) topic) as [mb ml].
  destruct (batcherSide mb topic (info, r)) as [i1 r1].
  destruct (loaderSide ml ltopic (i1, r1)) as [i2 r2].
  destruct (batcherRealtime i2 && loaderRealtime i2); simpl; auto.
Qed.

Lemma computeRealtime_full now topic ltopic r rt tU bl bc ll lc :
  (computeRealtime dB dL now false topic ltopic
     (mkInfo tU (Some (mkOffsetPosition (Some bl) (Some bc)))
        (Some (mkOffsetPosition (Some ll) (Some lc))) false false) r rt).2 =
    if (sub64 bl bc <=? (maxLag dB dL (rsk r) topic).1)
       && (sub64 ll lc <=? (maxLag dB dL (rsk r) topic).2)
    then rt ++ [topic] else rt.
Proof.
  unfold computeRealtime, batcherSide, loaderSide.
  destruct (maxLag dB dL (rsk r) topic) as [mb ml]. simpl.
  destruct (sub64 bl bc <=? mb); simpl;
    destruct (sub64 ll lc <=? ml); reflexivity.
Qed.

Lemma computeRealtime_no_loader_current now hit topic ltopic info r rt :
  loaderRealtime info = false ->
  loader info ≫= current = None ->
  (computeRealtime dB dL now hit topic ltopic info r rt).2 = rt.
Proof.
  intros Hl Hc. unfold computeRealtime.
  destruct (maxLag dB dL (rsk r) topic) as [mb ml].
  pose proof (batcherSide_loader mb topic info r) as (H1 & H2 & _).
  destruct (batcherSide mb topic (info, r)) as [i1 r1]. cbn [fst snd] in *.
  pose proof (loaderSide_no_current ml ltopic i1 r1) as H3.
  destruct (loaderSide ml ltopic (i1, r1)) as [i2 r2]. cbn [fst snd] in *.
  rewrite H3 by congruence. rewrite H2, Hl, andb_false_r. reflexivity.
Qed.

Lemma computeRealtime_cache now hit topic ltopic info r rt k :
  k <> topic ->
  cache (computeRealtime dB dL now hit topic ltopic info r rt).1 !! k = cache r !! k.
Proof.
  intros Hk. unfold computeRealtime.
  destruct (maxLag dB dL (rsk r) topic) as [mb ml].
  pose proof (batcherSide_loader mb topic info r) as (_ & _ & H1 & _).
  destruct (batcherSide mb topic (info, r)) as [i1 r1]. cbn [fst snd] in *.
  pose proof (loaderSide_state ml ltopic i1 r1) as [H2 _].
  destruct (loaderSide ml ltopic (i1, r1)) as [i2 r2]. cbn [fst snd] in *.
  simpl. rewrite lookup_insert_ne by done. congruence.
Qed.

(** One iteration appends its own topic or nothing, and stores in the cache
    under its own topic only. *)
Lemma calcTopic_step allTopics cur tk topic r rt :
  ((calcTopic dB dL allTopics cur tk topic (r, rt)).2 = rt \/
   (calcTopic dB dL allTopics cur tk topic (r, rt)).2 = rt ++ [topic]) /\
  forall k, k <> topic ->
    cache (calcTopic dB dL allTopics cur tk topic (r, rt)).1 !! k = cache r !! k.
Proof.
  unfold calcTopic. destruct (topicGroups r !! topic) as [group|]; [|by auto].
  destruct (fetchRealtimeCache _ _ _ _) as [info hit]. destruct hit.
  { split; [apply computeRealtime_appends|].
    intros k Hk. by rewrite computeRealtime_cache. }
  destruct (fetchRealtimeInfo _ _ _ _ _ _) as [[info' e] rsk'].
  destruct e as [e|]; [destruct (bool_decide (topic ∈ cur))|].
  - simpl. split; [auto|]. intros k Hk. by rewrite lookup_insert_ne.
  - split; [apply computeRealtime_appends|].
    intros k Hk. by rewrite computeRealtime_cache.
  - split; [apply computeRealtime_appends|].
    intros k Hk. by rewrite computeRealtime_cache.
Qed.

Lemma calcLoop_app allTopics cur ticks l1 l2 : forall i acc,
  calcLoop dB dL allTopics cur ticks i (l1 ++ l2) acc =
    calcLoop dB dL allTopics cur ticks (length l1 + i) l2
      (calcLoop dB dL allTopics cur ticks i l1 acc).
Proof.
  induction l1 as [|t l1 IH]; intros i acc; simpl; [reflexivity|].
  rewrite IH. f_equal. lia.
Qed.

Lemma calcLoop_cons allTopics cur ticks t l i acc :
  calcLoop dB dL allTopics cur ticks i (t :: l) acc =
    calcLoop dB dL allTopics cur ticks (S i) l
      (calcTopic dB dL allTopics cur (ticks i) t acc).
Proof. reflexivity. Qed.

Lemma calcLoop_spec allTopics cur ticks l : forall i r rt,
  (exists added,
     (calcLoop dB dL allTopics cur ticks i l (r, rt)).2 = rt ++ added /\
     forall x, x ∈ added -> x ∈ l) /\
  forall k, k ∉ l ->
    cache (calcLoop dB dL allTopics cur ticks i l (r, rt)).1 !! k = cache r !! k.
Proof.
  induction l as [|t l IH]; intros i r rt.
  - simpl. split; [exists []; by rewrite app_nil_r | done].
  - rewrite calcLoop_cons.
    destruct (calcTopic_step allTopics cur (ticks i) t r rt) as [Hrt Hc].
    destruct (calcTopic dB dL allTopics cur (ticks i) t (r, rt)) as [r1 rt1].
    cbn [fst snd] in *.
    destruct (IH (S i) r1 rt1) as [(added & Hrt1 & Hadd) Hcache].
    rewrite Hrt1.
    split.
    + destruct Hrt as [-> | ->].
      * exists added. split; [done|]. intros x Hx. right. auto.
      * exists (t :: added). rewrite <- app_assoc. split; [done|].
        intros x [-> | Hx]%elem_of_cons; [left | right; auto].
    + intros k Hk. apply not_elem_of_cons in Hk as [Hkt Hkl].
      rewrite Hcache by done. by apply Hc.
Qed.
End CalculateFacts.

Section FetchFacts.
Import Realtime.
Variables dB dL : Z.

Lemma calculate_loop ticks r0 l currentRealtime allTopics :
  Topics (watcher r0) = Ok allTopics -> l <> [] ->
  calculate dB dL ticks r0 l currentRealtime =
    ((calcLoop dB dL (toMap allTopics) (toMap currentRealtime) ticks 0 l (r0, [])).2,
     (calcLoop dB dL (toMap allTopics) (toMap currentRealtime) ticks 0 l (r0, [])).1).
Proof.
  intros HT Hl. unfold calculate. destruct l as [|x l]; [done|]. rewrite HT.
  by destruct (calcLoop _ _ _ _ _ _ _ _).
Qed.

(** The iteration of a topic whose fetch fails after a cache miss. *)
Lemma calcTopic_fetch_error allTopics cur tk topic r rt group info e rsk' :
  topicGroups r !! topic = Some group ->
  (fetchRealtimeCache (cache r) (tDraw tk) (tProbe tk) topic).2 = false ->
  fetchRealtimeInfo (watcher r) (rsk r) (tFetch tk) topic
    (if bool_decide (loaderTopicName (rsk r) group topic ∈ allTopics)
     then Some (loaderTopicName (rsk r) group topic) else None) group =
    (info, Some e, rsk') ->
  (topic ∈ cur ->
   (calcTopic dB dL allTopics cur tk topic (r, rt)).2 = rt ++ [topic] /\
   cache (calcTopic dB dL allTopics cur tk topic (r, rt)).1 !! topic =
     Some (mkInfo (Some (tNow tk)) None None true true) /\
   batchersRealtime (calcTopic dB dL allTopics cur tk topic (r, rt)).1 =
     batchersRealtime r ++ [topic] /\
   loadersRealtime (calcTopic dB dL allTopics cur tk topic (r, rt)).1 =
     loadersRealtime r ++ [loaderTopicName (rsk r) group topic]) /\
  (topic ∉ cur ->
   (calcTopic dB dL allTopics cur tk topic (r, rt)).2 = rt).
Proof.
  intros Hg Hmiss Hfetch. unfold calcTopic. rewrite Hg.
  destruct (fetchRealtimeCache _ _ _ _) as [i0 hit]. simpl in Hmiss. subst hit.
  rewrite Hfetch.
  apply fetchRealtimeInfo_error in Hfetch as (_ & Hl & Hc & ->).
  split; intros Hin.
  - rewrite bool_decide_eq_true_2 by done. simpl.
    rewrite lookup_insert_eq. auto.
  - rewrite bool_decide_eq_false_2 by done.
    by apply computeRealtime_no_loader_current.
Qed.
End FetchFacts.

(** C5: a reloading [topic], once in [reloading], whose iteration of
    [calculate] misses the cache and gets an error from [fetchRealtimeInfo].
    [r] is the calculator as the iteration finds it.  If the topic was
    realtime in the previous round it is in the returned list, and the cache
    holds an entry for it with both flags true; otherwise it is not in the
    returned list.  The result of [calculate] is a list of topics: no error
    reaches the caller. *)
Theorem fetch_error_keeps_previous_realtime (dB dL : Z)
    (ticks : nat -> Realtime.tick) (r0 : Realtime.realtimeCalculator)
    (pre post currentRealtime allTopics : list string) (topic : string)
    (group : Realtime.Group) (info : Realtime.topicRealtimeInfo)
    (e : Realtime.error) (rsk' : Realtime.RedshiftSink) :
  let r :=
    (Realtime.calcLoop dB dL (Realtime.toMap allTopics)
       (Realtime.toMap currentRealtime) ticks 0 pre (r0, [])).1 in
  let tk := ticks (length pre) in
  let ltopic := Realtime.loaderTopicName (Realtime.rsk r) group topic in
  let res := Realtime.calculate dB dL ticks r0 (pre ++ topic :: post) currentRealtime in
  Realtime.Topics (Realtime.watcher r0) = Ok allTopics ->
  topic ∉ pre -> topic ∉ post ->
  Realtime.topicGroups r !! topic = Some group ->
  (Realtime.fetchRealtimeCache (Realtime.cache r) (Realtime.tDraw tk)
     (Realtime.tProbe tk) topic).2 = false ->
  Realtime.fetchRealtimeInfo (Realtime.watcher r) (Realtime.rsk r)
    (Realtime.tFetch tk) topic
    (if bool_decide (ltopic ∈ Realtime.toMap allTopics) then Some ltopic else None)
    group = (info, Some e, rsk') ->
  (topic ∈ currentRealtime ->
   topic ∈ res.1 /\
   Realtime.cache res.2 !! topic =
     Some (Realtime.mkInfo (Some (Realtime.tNow tk)) None None true true)) /\
  (topic ∉ currentRealtime -> topic ∉ res.1).
Proof.
  intros r tk ltopic res HT Hpre Hpost Hg Hmiss Hfetch.
  subst res. rewrite (calculate_loop dB dL ticks r0 _ _ allTopics HT)
    by (by destruct pre).
  cbn [fst snd]. rewrite calcLoop_app, calcLoop_cons, Nat.add_0_r.
  subst ltopic r tk.
  destruct (calcLoop_spec dB dL (Realtime.toMap allTopics)
              (Realtime.toMap currentRealtime) ticks pre 0 r0 [])
    as [(added1 & Hadd1 & Hsub1) _].
  destruct (Realtime.calcLoop dB dL (Realtime.toMap allTopics)
              (Realtime.toMap currentRealtime) ticks 0 pre (r0, []))
    as [r1 rt1] eqn:E1.
  cbn [fst snd] in *. simpl in Hadd1. subst rt1.
  pose proof (calcTopic_fetch_error dB dL (Realtime.toMap allTopics)
                (Realtime.toMap currentRealtime) (ticks (length pre)) topic r1
                added1 group info e rsk' Hg Hmiss Hfetch) as [Hkeep Hdrop].
  destruct (Realtime.calcTopic dB dL (Realtime.toMap allTopics)
              (Realtime.toMap currentRealtime) (ticks (length pre)) topic
              (r1, added1))
    as [r2 rt2] eqn:E2.
  cbn [fst snd] in *.
  destruct (calcLoop_spec dB dL (Realtime.toMap allTopics)
              (Realtime.toMap currentRealtime) ticks post (S (length pre)) r2 rt2)
    as [(added2 & Hadd2 & Hsub2) Hcache].
  rewrite Hadd2.
  assert (topic ∉ added1) as Hn1 by (intros Hin; apply Hpre; auto).
  assert (topic ∉ added2) as Hn2 by (intros Hin; apply Hpost; auto).
  split; intros Hin.
  - destruct Hkeep as (-> & Hc & _).
    { unfold Realtime.toMap. by apply elem_of_list_to_set. }
    split; [|by rewrite Hcache].
    apply elem_of_app. left. apply elem_of_app. right. by left.
  - rewrite Hdrop.
    + by intros [?|?]%elem_of_app.
    + unfold Realtime.toMap. by rewrite elem_of_list_to_set.
Qed.

Section FallbackWitness.
Import Realtime RealtimeScenario.

Lemma fetch_error_keeps_previous_realtime_witness :
  "orders" ∈ (calculate 100 10 ticks (calculator downWatcher None)
                ["orders"] ["orders"]).1 /\
  "orders" ∉ (calculate 100 10 ticks (calculator downWatcher None)
                ["orders"] []).1.
Proof.
  split.
  - refine (proj1 (proj1 (fetch_error_keeps_previous_realtime 100 10 ticks
                     (calculator downWatcher None) [] [] ["orders"]
                     ["orders"; "loader-reload-orders"] "orders"
                     (mkGroup "reload" None)
                     (mkInfo (Some 1000) (Some (mkOffsetPosition None None))
                        (Some (mkOffsetPosition None None)) false false)
                     (ErrLastOffset "orders") sink eq_refl _ _ _ eq_refl _) _));
      try (vm_compute; reflexivity); try apply not_elem_of_nil.
    by left.
  - refine (proj2 (fetch_error_keeps_previous_realtime 100 10 ticks
                     (calculator downWatcher None) [] [] []
                     ["orders"; "loader-reload-orders"] "orders"
                     (mkGroup "reload" None)
                     (mkInfo (Some 1000) (Some (mkOffsetPosition None None))
                        (Some (mkOffsetPosition None None)) false false)
                     (ErrLastOffset "orders") sink eq_refl _ _ _ eq_refl _) _);
      try (vm_compute; reflexivity); apply not_elem_of_nil.
Defined.
End FallbackWitness.

(** C4: an iteration of [calculate] that misses the cache and whose
    [fetchRealtimeInfo] gets as far as the loader group's current offset
    [lc].  When [lc] is -1 and the topic group carries a persisted offset
    [old], the loader's current offset of the fetched info is [old], the
    sink is left as it is, and the topic is appended to the realtime list
    exactly when both lags, the loader's computed against [old], are within
    their limits.  When [lc] is -1 and nothing is persisted, the loader's
    current offset stays unset and the topic is not appended.  When [lc] is
    0 or more it becomes the loader's current offset and is stored as
    [LoaderCurrentOffset] of the topic's group on the sink's status. *)
Theorem loader_current_offset_fallback (dB dL : Z)
    (r : Realtime.realtimeCalculator) (allTopics cur : gset string)
    (tk : Realtime.tick) (topic : string) (group : Realtime.Group)
    (rt : list string) (bl bc ll lc : Z) :
  let ltopic := Realtime.loaderTopicName (Realtime.rsk r) group topic in
  let cg := Realtime.consumerGroupID (Realtime.Name (Realtime.rsk r))
              (Realtime.Namespace (Realtime.rsk r)) (Realtime.ID group) in
  let fetched :=
    Realtime.fetchRealtimeInfo (Realtime.watcher r) (Realtime.rsk r)
      (Realtime.tFetch tk) topic (Some ltopic) group in
  let after := Realtime.calcTopic dB dL allTopics cur tk topic (r, rt) in
  let lags := Realtime.maxLag dB dL (Realtime.rsk r) topic in
  let info (loaderCurrent : option Z) :=
    Realtime.mkInfo (Some (Realtime.tFetch tk))
      (Some (Realtime.mkOffsetPosition (Some bl) (Some bc)))
      (Some (Realtime.mkOffsetPosition (Some ll) loaderCurrent)) false false in
  Realtime.topicGroups r !! topic = Some group ->
  ltopic ∈ allTopics ->
  (Realtime.fetchRealtimeCache (Realtime.cache r) (Realtime.tDraw tk)
     (Realtime.tProbe tk) topic).2 = false ->
  Realtime.LastOffset (Realtime.watcher r) topic 0 = Ok bl ->
  Realtime.CurrentOffset (Realtime.watcher r) (cg "-batcher") topic 0 = Ok bc ->
  bc <> -1 ->
  Realtime.LastOffset (Realtime.watcher r) ltopic 0 = Ok ll ->
  Realtime.CurrentOffset (Realtime.watcher r) (cg "-loader") ltopic 0 = Ok lc ->
  (lc = -1 -> forall old, Realtime.LoaderCurrentOffset group = Some old ->
     fetched = (info (Some old), None, Realtime.rsk r) /\
     after.2 =
       if (sub64 bl bc <=? lags.1) && (sub64 ll old <=? lags.2)
       then rt ++ [topic] else rt) /\
  (lc = -1 -> Realtime.LoaderCurrentOffset group = None ->
     fetched = (info None, None, Realtime.rsk r) /\ after.2 = rt) /\
  (0 <= lc ->
     fetched =
       (info (Some lc), None,
        Realtime.updateTopicGroup (Realtime.rsk r) topic
          (Realtime.mkGroup (Realtime.ID group) (Some lc))) /\
     Realtime.StatusTopicGroup (Realtime.rsk after.1) !! topic =
       Some (Realtime.mkGroup (Realtime.ID group) (Some lc))).
Proof.
  intros ltopic cg fetched after lags info Hg Hlt Hmiss Hbl Hbc Hbc1 Hll Hlc.
  assert ((bc =? -1) = false) as Ebc by (by apply Z.eqb_neq).
  assert (fetched =
            if lc =? -1 then
              match Realtime.LoaderCurrentOffset group with
              | None => (info None, None, Realtime.rsk r)
              | Some old => (info (Some old), None, Realtime.rsk r)
              end
            else (info (Some lc), None,
                  Realtime.updateTopicGroup (Realtime.rsk r) topic
                    (Realtime.mkGroup (Realtime.ID group) (Some lc)))) as Hf.
  { unfold fetched, Realtime.fetchRealtimeInfo.
    rewrite Hbl. fold (cg "-batcher"). rewrite Hbc, Ebc, Hll.
    fold (cg "-loader"). rewrite Hlc.
    destruct (lc =? -1); [destruct (Realtime.LoaderCurrentOffset group)|];
      reflexivity. }
  assert (after =
            let '(i, e, rsk') := fetched in
            Realtime.computeRealtime dB dL (Realtime.tNow tk) false topic ltopic i
              (Realtime.setRsk r rsk') rt) as Ha.
  { unfold after, Realtime.calcTopic. rewrite Hg. fold ltopic.
    destruct (Realtime.fetchRealtimeCache _ _ _ _) as [i0 hit].
    simpl in Hmiss. subst hit.
    rewrite bool_decide_eq_true_2 by done. fold fetched. rewrite Hf.
    destruct (lc =? -1); [destruct (Realtime.LoaderCurrentOffset group)|];
      reflexivity. }
  split; [|split].
  - intros -> old Hold. rewrite Hold in Hf. simpl in Hf.
    split; [done|]. rewrite Ha, Hf. apply computeRealtime_full.
  - intros -> Hnone. rewrite Hnone in Hf. simpl in Hf.
    split; [done|]. rewrite Ha, Hf.
    by apply computeRealtime_no_loader_current.
  - intros Hpos. assert ((lc =? -1) = false) as E by (apply Z.eqb_neq; lia).
    rewrite E in Hf. split; [done|]. rewrite Ha, Hf.
    unfold Realtime.computeRealtime.
    destruct (Realtime.maxLag _ _ _ _) as [mb ml].
    pose proof (batcherSide_loader mb topic (info (Some lc))
                  (Realtime.setRsk r
                     (Realtime.updateTopicGroup (Realtime.rsk r) topic
                        (Realtime.mkGroup (Realtime.ID group) (Some lc)))))
      as (_ & _ & _ & H1).
    destruct (Realtime.batcherSide _ _ _) as [i1 r1]. cbn [fst snd] in *.
    pose proof (loaderSide_state ml ltopic i1 r1) as [_ H2].
    destruct (Realtime.loaderSide _ _ _) as [i2 r2]. cbn [fst snd] in *.
    simpl. rewrite H2, H1. simpl. apply lookup_insert_eq.
Qed.

Section StaleLoaderWitness.
Import Realtime RealtimeScenario.

#[local] Ltac evaluate :=
  first [ by (vm_compute; reflexivity) | lia
        | by (apply bool_decide_unpack; vm_compute) ].

Lemma loader_current_offset_fallback_witness :
  (calcTopic 100 10 allTopics ∅ (ticks 0) "orders"
     (calculator staleWatcher (Some 5000), [])).2 = ["orders"] /\
  (calcTopic 100 10 allTopics ∅ (ticks 0) "orders"
     (calculator staleWatcher None, [])).2 = [] /\
  StatusTopicGroup
    (rsk (calcTopic 100 10 allTopics ∅ (ticks 0) "orders"
            (calculator liveWatcher None, [])).1) !! "orders" =
    Some (mkGroup "reload" (Some 5040)).
Proof.
  split; [|split].
  - destruct (loader_current_offset_fallback 100 10
                (calculator staleWatcher (Some 5000)) allTopics ∅ (ticks 0)
                "orders" (mkGroup "reload" (Some 5000)) [] 1000 990 5050 (-1))
      as (Hstale & _ & _); [evaluate..|].
    destruct (Hstale eq_refl 5000 eq_refl) as [_ ->]. reflexivity.
  - destruct (loader_current_offset_fallback 100 10
                (calculator staleWatcher None) allTopics ∅ (ticks 0)
                "orders" (mkGroup "reload" None) [] 1000 990 5050 (-1))
      as (_ & Hnone & _); [evaluate..|].
    by destruct (Hnone eq_refl eq_refl) as [_ ->].
  - destruct (loader_current_offset_fallback 100 10
                (calculator liveWatcher None) allTopics ∅ (ticks 0)
                "orders" (mkGroup "reload" None) [] 1000 990 5050 5040)
      as (_ & _ & Hlive); [evaluate..|].
    by destruct (Hlive ltac:(lia)) as [_ ->].
Defined.
End StaleLoaderWitness.

(** ** Topic discovery *)

Section DiscoveryFacts.
Import Discovery.

Lemma collected_empty : collected ([], ∅).
Proof. split; [constructor|]. intros x. simpl. set_solver. Qed.

Lemma visit_spec regex topic st :
  collected st ->
  collected (visit regex topic st) /\
  (visit regex topic st).1 =
    st.1 ++ (if regex topic && bool_decide (topic ∉ st.1) then [topic] else []).
Proof.
  destruct st as [topics appended]. intros [Hnd Hset]. simpl in *.
  unfold visit. destruct (regex topic); simpl.
  2: { rewrite app_nil_r. by split. }
  destruct (decide (topic ∈ appended)) as [Hin | Hin].
  - rewrite bool_decide_eq_true_2 by done.
    rewrite bool_decide_eq_false_2 by (rewrite <- Hset; auto).
    rewrite app_nil_r. by split.
  - rewrite bool_decide_eq_false_2 by done.
    rewrite bool_decide_eq_true_2 by (by rewrite <- Hset).
    split; [|done]. split; simpl.
    + apply NoDup_app. repeat split; [done | | apply NoDup_singleton].
      intros x Hx ->%list_elem_of_singleton. apply Hin. by apply Hset.
    + intros x. rewrite elem_of_union, elem_of_singleton, elem_of_app,
        list_elem_of_singleton, Hset. tauto.
Qed.

Lemma visit_regexes_spec regexes topic : forall st,
  collected st ->
  collected (fold_left (fun st regex => visit regex topic st) regexes st) /\
  (fold_left (fun st regex => visit regex topic st) regexes st).1 =
    st.1 ++ (if existsb (fun r : Regexp => r topic) regexes
                && bool_decide (topic ∉ st.1)
             then [topic] else []).
Proof.
  induction regexes as [|r regexes IH]; intros st Hst; simpl.
  - rewrite app_nil_r. by split.
  - destruct (visit_spec r topic st Hst) as [Hc Hv].
    destruct (IH _ Hc) as [Hc' Hf]. split; [done|]. rewrite Hf, Hv.
    destruct (r topic), (existsb _ regexes); simpl;
      repeat case_bool_decide; simpl; rewrite ?app_nil_r, <- ?app_assoc;
      try done; exfalso;
      repeat match goal with
             | H : ¬ (_ ∉ _) |- _ => apply dec_stable in H
             | H : _ ∉ _ ++ _ |- _ => apply not_elem_of_app in H as [? ?]
             | H : _ ∉ [_] |- _ => apply not_elem_of_cons in H as [? _]
             | H : _ ∈ _ ++ [] |- _ => rewrite app_nil_r in H
             | H : _ ∈ _ ++ _ |- _ => apply elem_of_app in H as [?|?]
             end; done.
Qed.

Lemma visit_topics_spec regexes allTopics : forall st,
  collected st ->
  let st' :=
    fold_left
      (fun st topic => fold_left (fun st regex => visit regex topic st) regexes st)
      allTopics st in
  collected st' /\
  (exists added, st'.1 = st.1 ++ added /\ added `sublist_of` allTopics) /\
  forall x, x ∈ st'.1 <->
    x ∈ st.1 \/ (x ∈ allTopics /\ existsb (fun r : Regexp => r x) regexes = true).
Proof.
  induction allTopics as [|t allTopics IH]; intros st Hst; simpl.
  - split; [done|]. split.
    + exists []. by rewrite app_nil_r.
    + intros x. rewrite elem_of_nil. tauto.
  - destruct (visit_regexes_spec regexes t st Hst) as [Hc Hv].
    destruct (IH _ Hc) as (Hc' & (added & Hadd & Hsub) & Hmem).
    split; [done|]. split.
    + rewrite Hadd, Hv, <- app_assoc. eexists. split; [reflexivity|].
      destruct (_ && _); simpl; [by apply sublist_skip | by apply sublist_cons].
    + intros x. rewrite Hmem, Hv, elem_of_app, elem_of_cons.
      assert (x ∈ (if existsb (fun r : Regexp => r t) regexes
                      && bool_decide (t ∉ st.1) then [t] else []) <->
              x = t /\ existsb (fun r : Regexp => r t) regexes = true /\ t ∉ st.1)
        as ->.
      { destruct (existsb _ regexes); simpl; [case_bool_decide|];
          rewrite ?list_elem_of_singleton, ?elem_of_nil; naive_solver. }
      destruct (decide (x ∈ st.1)); naive_solver.
Qed.

Lemma visit_one_regex_spec rgx allTopics st :
  collected st ->
  collected (fold_left (fun st topic => visit rgx topic st) allTopics st) /\
  forall x, x ∈ (fold_left (fun st topic => visit rgx topic st) allTopics st).1 <->
    x ∈ st.1 \/ (x ∈ allTopics /\ rgx x = true).
Proof.
  intros Hst.
  destruct (visit_topics_spec [rgx] allTopics st Hst) as (Hc & _ & Hmem).
  simpl in Hc, Hmem. split; [done|]. intros x. rewrite Hmem.
  by rewrite orb_false_r.
Qed.

Section FetchLoop.
Variable Compile : string -> result Regexp.
Variable TrimSpace : string -> string.

Lemma regexFor_insert cache expression rgx e :
  cache !! expression = None ->
  Compile (TrimSpace expression) = Ok rgx ->
  regexFor Compile TrimSpace (<[expression := rgx]> cache) e =
    regexFor Compile TrimSpace cache e.
Proof.
  intros Hnone Hok. unfold regexFor.
  destruct (decide (expression = e)) as [<- | Hne].
  - by rewrite lookup_insert_eq, Hnone.
  - by rewrite lookup_insert_ne.
Qed.

Lemma fetchLoop_spec allTopics exprs : forall st cache topics cache' failed,
  collected st ->
  fetchLoop Compile TrimSpace allTopics exprs st cache = (topics, cache', failed) ->
  NoDup topics /\ cache ⊆ cache' /\
  (forall e, regexFor Compile TrimSpace cache' e = regexFor Compile TrimSpace cache e) /\
  (forall x, x ∈ topics -> x ∈ st.1 \/ x ∈ allTopics) /\
  match failed with
  | None =>
      (forall x, x ∈ topics <->
         x ∈ st.1 \/
         (x ∈ allTopics /\
          exists e rgx, e ∈ exprs /\ regexFor Compile TrimSpace cache e = Ok rgx /\
                        rgx x = true)) /\
      forall e, e ∈ exprs -> is_Some (cache' !! e)
  | Some e =>
      e ∈ exprs /\ cache !! e = None /\
      exists msg, Compile (TrimSpace e) = Err msg
  end.
Proof.
  induction exprs as [|expr exprs IH]; intros st cache topics cache' failed Hst; simpl.
  - intros [= <- <- <-]. destruct Hst as [Hnd _].
    repeat split; auto.
    + intros [?|(_ & e & r & He & _)]; [done | by apply elem_of_nil in He].
    + intros e He. by apply elem_of_nil in He.
  - destruct (cache !! expr) as [rgx|] eqn:Ec.
    + destruct (visit_one_regex_spec rgx allTopics st Hst) as [Hc Hmem].
      intros Hloop. apply IH in Hloop as (Hnd & Hsub & Hrf & Hin & Hres); [|done].
      split; [done|]. split; [done|]. split; [done|]. split.
      { intros x Hx. apply Hin in Hx as [Hx|Hx]; [|auto].
        apply Hmem in Hx. tauto. }
      destruct failed as [e|].
      * destruct Hres as (He & Hn & Hmsg). split; [by right | done].
      * destruct Hres as [Hall Hcached]. split.
        -- intros x. rewrite Hall, Hmem. split.
           ++ intros [[?|[? ?]]|[? (e & r & He & Hr & Hx)]]; auto.
              ** right. split; [done|]. exists expr, rgx.
                 split; [by left|]. unfold regexFor. by rewrite Ec.
              ** right. split; [done|]. exists e, r. split; [by right | done].
           ++ intros [?|[Hx (e & r & [->|He]%elem_of_cons & Hr & Hrx)]]; auto.
              ** unfold regexFor in Hr. rewrite Ec in Hr. injection Hr as <-.
                 auto.
              ** right. split; [done|]. by exists e, r.
        -- intros e [->|He]%elem_of_cons; [|auto].
           exists rgx. by eapply lookup_weaken.
    + destruct (Compile (TrimSpace expr)) as [rgx|msg] eqn:Ecomp.
      2: { intros [= <- <- <-]. destruct Hst as [Hnd _].
           repeat split; auto. { by left. } by exists msg. }
      destruct (visit_one_regex_spec rgx allTopics st Hst) as [Hc Hmem].
      intros Hloop. apply IH in Hloop as (Hnd & Hsub & Hrf & Hin & Hres); [|done].
      pose proof (regexFor_insert cache expr rgx) as Hins.
      split; [done|]. split.
      { etrans; [|exact Hsub]. by apply insert_subseteq. }
      split; [intros e; rewrite Hrf; by apply Hins|]. split.
      { intros x Hx. apply Hin in Hx as [Hx|Hx]; [|auto].
        apply Hmem in Hx. tauto. }
      destruct failed as [e|].
      * destruct Hres as (He & Hn & Hmsg). split; [by right|]. split; [|done].
        destruct (decide (expr = e)) as [->|Hne];
          [by rewrite lookup_insert_eq in Hn | by rewrite lookup_insert_ne in Hn].
      * destruct Hres as [Hall Hcached]. split.
        -- intros x. rewrite Hall, Hmem. split.
           ++ intros [[?|[? ?]]|[? (e & r & He & Hr & Hx)]]; auto.
              ** right. split; [done|]. exists expr, rgx.
                 split; [by left|]. unfold regexFor. by rewrite Ec.
              ** right. split; [done|]. exists e, r. split; [by right|].
                 rewrite <- Hins by done. done.
           ++ intros [?|[Hx (e & r & [->|He]%elem_of_cons & Hr & Hrx)]]; auto.
              ** unfold regexFor in Hr. rewrite Ec, Ecomp in Hr.
                 injection Hr as <-. auto.
              ** right. split; [done|]. exists e, r. split; [done|].
                 rewrite Hins by done. done.
        -- intros e [->|He]%elem_of_cons; [|auto].
           exists rgx. eapply lookup_weaken; [|exact Hsub].
           apply lookup_insert_eq.
Qed.
End FetchLoop.

End DiscoveryFacts.

(** X1: the topic list that [updatetopics] leaves in the manager has no
    topic twice, keeps the order of the bus's list, and holds exactly the
    bus topics that some regular expression of the manager matches. *)
Theorem updatetopics_filters_and_dedups (topicRegexes : list Discovery.Regexp)
    (allTopics : list string) :
  NoDup (Discovery.updatetopics topicRegexes allTopics) /\
  Discovery.updatetopics topicRegexes allTopics `sublist_of` allTopics /\
  forall x, x ∈ Discovery.updatetopics topicRegexes allTopics <->
    x ∈ allTopics /\ exists regex, regex ∈ topicRegexes /\ regex x = true.
Proof.
  unfold Discovery.updatetopics.
  destruct (visit_topics_spec topicRegexes allTopics ([], ∅) collected_empty)
    as ([Hnd _] & (added & Hadd & Hsub) & Hmem).
  simpl in *. split; [done|]. split; [by rewrite Hadd|].
  intros x. rewrite Hmem, elem_of_nil, existsb_exists.
  setoid_rewrite <- list_elem_of_In. tauto.
Qed.

(** X2: a call of [fetchLatestTopics] that returns without error.  The
    topics have no duplicate and are exactly the bus topics matched by the
    regular expression of some comma-separated expression, the one found in
    [KafkaTopicRegexes] or else the one compiled from the trimmed
    expression; afterwards [KafkaTopicRegexes] extends the map before the
    call and holds every expression. *)
Theorem fetchLatestTopics_matches (Compile : string -> result Discovery.Regexp)
    (TrimSpace : string -> string) (allTopics : list string)
    (cache cache' : gmap string Discovery.Regexp) (regexes : string)
    (topics : list string) :
  Discovery.fetchLatestTopics Compile TrimSpace (Ok allTopics) cache regexes =
    (topics, cache', None) ->
  NoDup topics /\
  (forall x, x ∈ topics <->
     x ∈ allTopics /\
     exists e rgx, e ∈ Discovery.split "," regexes /\
       Discovery.regexFor Compile TrimSpace cache e = Ok rgx /\ rgx x = true) /\
  cache ⊆ cache' /\
  (forall e, e ∈ Discovery.split "," regexes -> is_Some (cache' !! e)).
Proof.
  unfold Discovery.fetchLatestTopics.
  destruct (Discovery.fetchLoop _ _ _ _ _ _) as [[ts c] failed] eqn:E.
  destruct failed; [discriminate|]. intros [= <- <-].
  apply fetchLoop_spec in E as (Hnd & Hsub & _ & _ & Hmem & Hc);
    [|apply collected_empty].
  split; [done|]. split; [|by split].
  intros x. rewrite Hmem. simpl. rewrite elem_of_nil. tauto.
Qed.

(** X3: a call of [fetchLatestTopics] that fails.  When the watcher cannot
    list the topics, no topic is returned and [KafkaTopicRegexes] is left as
    it was.  When an expression does not compile, it is one that was not in
    [KafkaTopicRegexes]; the topics returned alongside the error have no
    duplicate and are bus topics, and the expressions compiled before it
    stay in [KafkaTopicRegexes]. *)
Theorem fetchLatestTopics_errors (Compile : string -> result Discovery.Regexp)
    (TrimSpace : string -> string) (watcherTopics : result (list string))
    (cache cache' : gmap string Discovery.Regexp) (regexes : string)
    (topics : list string) (err : Discovery.fetchError) :
  Discovery.fetchLatestTopics Compile TrimSpace watcherTopics cache regexes =
    (topics, cache', Some err) ->
  match err with
  | Discovery.ErrTopics msg =>
      watcherTopics = Err msg /\ topics = [] /\ cache' = cache
  | Discovery.ErrCompile e =>
      exists allTopics, watcherTopics = Ok allTopics /\
        e ∈ Discovery.split "," regexes /\ cache !! e = None /\
        (exists msg, Compile (TrimSpace e) = Err msg) /\
        NoDup topics /\ (forall x, x ∈ topics -> x ∈ allTopics) /\
        cache ⊆ cache'
  end.
Proof.
  unfold Discovery.fetchLatestTopics. destruct watcherTopics as [allTopics|msg].
  2: { intros [= <- <- <-]. auto. }
  destruct (Discovery.fetchLoop _ _ _ _ _ _) as [[ts c] failed] eqn:E.
  destruct failed as [e|]; [|discriminate]. intros [= <- <- <-].
  apply fetchLoop_spec in E as (Hnd & Hsub & _ & Hin & He & Hn & Hmsg);
    [|apply collected_empty].
  exists allTopics. repeat split; auto.
  intros x Hx. apply Hin in Hx as [Hx|?]; [|done]. by apply elem_of_nil in Hx.
Qed.

Section DiscoveryWitnesses.
Import Discovery DiscoveryScenario.

Lemma fetchLatestTopics_matches_witness :
  let res := fetchLatestTopics compile trim (Ok busTopics) ∅ "^orders\.,^users\." in
  res.1.1 = ["orders.x"; "users.y"] /\ res.2 = None /\
  NoDup res.1.1 /\ "inventory.z" ∉ res.1.1.
Proof.
  intros res.
  assert (fetchLatestTopics compile trim (Ok busTopics) ∅ "^orders\.,^users\." =
            (res.1.1, res.1.2, None)) as E by (vm_compute; reflexivity).
  destruct (fetchLatestTopics_matches _ _ _ _ _ _ _ E) as (Hnd & Hmem & _).
  split; [vm_compute; reflexivity|]. split; [vm_compute; reflexivity|].
  split; [exact Hnd|].
  intros Hin. apply Hmem in Hin as (_ & e & rgx & He & Hr & Hx).
  change (split "," "^orders\.,^users\.") with ["^orders\."; "^users\."] in He.
  apply elem_of_cons in He as [->|He];
    [|apply elem_of_cons in He as [->|He]; [|by apply elem_of_nil in He]];
    vm_compute in Hr; injection Hr as <-; vm_compute in Hx; discriminate.
Defined.

Lemma fetchLatestTopics_errors_witness :
  let res := fetchLatestTopics compile trim (Ok busTopics) ∅ "^orders\.,[bad" in
  res.1.1 = ["orders.x"] /\ res.2 = Some (ErrCompile "[bad") /\
  exists msg, compile (trim "[bad") = Err msg.
Proof.
  intros res.
  assert (fetchLatestTopics compile trim (Ok busTopics) ∅ "^orders\.,[bad" =
            (res.1.1, res.1.2, Some (ErrCompile "[bad"))) as E
    by (vm_compute; reflexivity).
  destruct (fetchLatestTopics_errors _ _ _ _ _ _ _ _ E)
    as (allTopics & _ & _ & _ & Hmsg & _).
  split; [vm_compute; reflexivity|]. split; [vm_compute; reflexivity|].
  exact Hmsg.
Defined.
End DiscoveryWitnesses.

(** ** The manager's regular expressions and its consume loop *)

Section ManagerFacts.
Import Discovery.
Variable Compile : string -> result Regexp.
Variable TrimSpace : string -> string.

Lemma split_nonempty sep s : split sep s <> [].
Proof.
  destruct s as [|c s]; simpl; [discriminate|].
  destruct (Ascii.eqb c sep); [discriminate|].
  destruct (split sep s); discriminate.
Qed.

Lemma compileAll_spec exprs : forall acc,
  match compileAll Compile TrimSpace exprs acc with
  | Compiled rs =>
      exists new, rs = acc ++ new /\
        Forall2 (fun e r => Compile (TrimSpace e) = Ok r) exprs new
  | CompileFatal e =>
      exists before after, exprs = before ++ e :: after /\
        Forall (fun e' => exists r, Compile (TrimSpace e') = Ok r) before /\
        exists msg, Compile (TrimSpace e) = Err msg
  end.
Proof.
  induction exprs as [|e exprs IH]; intros acc; simpl.
  - exists []. rewrite app_nil_r. split; [done | constructor].
  - destruct (Compile (TrimSpace e)) as [r|msg] eqn:Ec.
    + specialize (IH (acc ++ [r])).
      destruct (compileAll Compile TrimSpace exprs (acc ++ [r])) as [rs|bad].
      * destruct IH as (new & -> & Hall). exists (r :: new).
        rewrite <- app_assoc. split; [done | by constructor].
      * destruct IH as (before & after & -> & Hall & Hmsg).
        exists (e :: before), after. split; [done|]. split; [|done].
        constructor; eauto.
    + exists [], exprs. split; [done|]. split; [constructor | eauto].
Qed.
End ManagerFacts.

(** X4: [NewManager] compiles the trimmed comma-separated expressions in
    order.  A manager it returns has one regular expression per expression
    and at least one; otherwise the process ends on the first expression
    that does not compile, all the expressions before it having compiled. *)
Theorem NewManager_compiles_every_expression
    (Compile : string -> result Discovery.Regexp) (TrimSpace : string -> string)
    (regexes : string) :
  match Discovery.NewManager Compile TrimSpace regexes with
  | Discovery.Compiled topicRegexes =>
      topicRegexes <> [] /\
      Forall2 (fun e r => Compile (TrimSpace e) = Ok r)
        (Discovery.split "," regexes) topicRegexes
  | Discovery.CompileFatal e =>
      exists before after, Discovery.split "," regexes = before ++ e :: after /\
        Forall (fun e' => exists r, Compile (TrimSpace e') = Ok r) before /\
        exists msg, Compile (TrimSpace e) = Err msg
  end.
Proof.
  unfold Discovery.NewManager.
  pose proof (compileAll_spec Compile TrimSpace (Discovery.split "," regexes) [])
    as Hspec.
  destruct (Discovery.compileAll _ _ _ _) as [rs|e]; [|done].
  destruct Hspec as (new & -> & Hall). simpl. split; [|done].
  intros ->. apply Forall2_nil_inv_r in Hall.
  by apply (split_nonempty "," regexes).
Qed.

(** X5: [Manager.Consume] never calls the consumer group with an empty list
    of topics: every call is made with the non-empty topic list of some pass,
    and every sleep lasts five seconds. *)
Theorem Consume_never_with_empty_topics (script : list Manager.turn) :
  Forall (fun e =>
            match e with
            | Manager.EvConsume topics =>
                topics <> [] /\
                exists t, t ∈ script /\ topics = Manager.snapshot t
            | Manager.EvSleep seconds => seconds = 5
            end) (Manager.Consume script).1.
Proof.
  induction script as [|t script IH]; simpl; [constructor|].
  assert (forall evs,
            Forall (fun e =>
                      match e with
                      | Manager.EvConsume topics =>
                          topics <> [] /\
                          exists t, t ∈ script /\ topics = Manager.snapshot t
                      | Manager.EvSleep seconds => seconds = 5
                      end) evs ->
            Forall (fun e =>
                      match e with
                      | Manager.EvConsume topics =>
                          topics <> [] /\
                          exists t', t' ∈ t :: script /\ topics = Manager.snapshot t'
                      | Manager.EvSleep seconds => seconds = 5
                      end) evs) as Hmono.
  { intros evs Hevs. eapply Forall_impl; [exact Hevs|]. intros [n|topics]; [done|].
    intros [Hne (t' & Hin & ->)]. split; [done|]. exists t'. split; [by right|done]. }
  unfold Manager.deepCopyTopics. simpl.
  destruct (Manager.snapshot t) as [|x l] eqn:Es; simpl.
  - destruct (Manager.Consume script) as [evs e]. simpl in *.
    constructor; [done | auto].
  - assert (x :: l <> [] /\ exists t', t' ∈ t :: script /\ x :: l = Manager.snapshot t')
      as Hhead by (split; [done|]; exists t; split; [by left | by rewrite Es]).
    destruct (Manager.consumeErr t); [constructor; [exact Hhead | constructor]|].
    destruct (Manager.ctxErr t); [constructor; [exact Hhead | constructor]|].
    destruct (Manager.Consume script) as [evs e]. simpl in *.
    constructor; [done | auto].
Qed.

(** X6: as long as no topic is known, [Manager.Consume] only sleeps: it makes
    no call to the consumer group and does not return, whatever the state of
    the context. *)
Theorem Consume_without_topics_only_sleeps (script : list Manager.turn) :
  Forall (fun t => Manager.snapshot t = []) script ->
  Manager.Consume script =
    (replicate (length script) (Manager.EvSleep 5), Manager.Looping).
Proof.
  induction 1 as [|t script Ht _ IH]; simpl; [reflexivity|].
  unfold Manager.deepCopyTopics. rewrite Ht. simpl. by rewrite IH.
Qed.

Lemma Consume_without_topics_only_sleeps_witness :
  Manager.Consume [Manager.mkTurn [] None true; Manager.mkTurn [] (Some "down") true] =
    ([Manager.EvSleep 5; Manager.EvSleep 5], Manager.Looping).
Proof.
  apply (Consume_without_topics_only_sleeps
           [Manager.mkTurn [] None true; Manager.mkTurn [] (Some "down") true]).
  by repeat constructor.
Defined.

(** ** The shape of a round *)

Section RoundShape.
Import Batcher BatcherTrace.
Context `{Collaborators}.

Lemma isContextDone_spec e :
  isContextDone e = true <-> e = ErrSaramaSessionContextDone.
Proof. destruct e; simpl; split; congruence. Qed.

Lemma scanErrors_spec rs : forall acc,
  match scanErrors rs acc with
  | None => Exists (fun r => err r = Some ErrSaramaSessionContextDone) rs
  | Some errs =>
      errs = acc ++ omap err rs /\
      Forall (fun r => err r <> Some ErrSaramaSessionContextDone) rs
  end.
Proof.
  induction rs as [|r rs IH]; intros acc; simpl.
  - rewrite app_nil_r. by split.
  - destruct (err r) as [e|] eqn:Er; simpl.
    + destruct (isContextDone e) eqn:Ed.
      * apply isContextDone_spec in Ed as ->. by left.
      * specialize (IH (acc ++ [e])).
        destruct (scanErrors rs (acc ++ [e])) as [errs|]; [|by right].
        destruct IH as [-> Hall]. rewrite <- app_assoc. split; [done|].
        constructor; [|done]. rewrite Er. intros [= ->]. discriminate.
    + specialize (IH acc). destruct (scanErrors rs acc) as [errs|]; [|by right].
      destruct IH as [-> Hall]. split; [done|]. constructor; [|done].
      by rewrite Er.
Qed.

Lemma signalAll_shape b rs : forall w o w',
  signalAll b rs w = (o, w') ->
  exists ok k ending,
    o = Val ok /\
    trace w' = trace w ++ map (signalledOk b) (take k rs) ++ ending /\
    (if ok then k = length rs /\ ending = []
     else (k < length rs)%nat /\ signalEnding b rs k ending).
Proof.
  induction rs as [|r rs IH]; intros w o w'; simpl.
  - rewrite ret_run. intros [= <- <-]. exists true, 0%nat, [].
    simpl. by rewrite app_nil_r.
  - rewrite bind_run. destruct (ctxDone w) as [d w1] eqn:Ed.
    apply ctxDone_world in Ed as (Ht1 & Hs1 & done & ->).
    destruct done.
    { rewrite ret_run. intros [= <- <-]. exists false, 0%nat, [].
      simpl. rewrite app_nil_r. repeat split; [done | lia | by left]. }
    rewrite bind_run. unfold signalLoad.
    destruct (signalerAdd _ _ _) as [cause|]; rewrite bind_run; simpl.
    + rewrite bind_run. destruct (ctxDone _) as [d w2] eqn:Ed.
      apply ctxDone_world in Ed as (Ht2 & Hs2 & done & ->). simpl in Ht2, Hs2.
      destruct done; simpl; intros [= <- <-]; simpl;
        exists false, 0%nat; eexists; (split; [done|]);
        rewrite ?Ht2, Ht1, <- ?app_assoc; simpl;
        (split; [reflexivity|]); (split; [lia|]); right; exists r, cause;
        (split; [done|]); [left | right]; reflexivity.
    + intros Hrest.
      apply IH in Hrest as (ok & k & ending & -> & Ht2 & Hok).
      simpl in Ht2. exists ok, (S k), ending. split; [done|]. split.
      * rewrite Ht2, Ht1, <- app_assoc. reflexivity.
      * destruct ok; simpl; [destruct Hok as [-> ->]; done|].
        destruct Hok as [Hlt Hend]. split; [lia|].
        destruct Hend as [->|(r' & c & Hr & Hend)]; [by left|].
        right. by exists r', c.
Qed.

(** The events of a round, whatever its outcome: the uploads of the slots,
    then the tail that the outcome and the slots determine. *)
Lemma round_shape b msgBufs w o w' :
  round b msgBufs w = (o, w') ->
  exists ups tail, trace w' = trace w ++ ups ++ tail /\
    Forall (fun e => isUpload e = true) ups /\
    match (processBatches b 0 msgBufs w).1 with
    | Val rs =>
        length rs = length msgBufs /\
        (Forall (fun r => err r = None) rs -> Forall2 uploadedOk rs ups) /\
        roundTail b rs o tail /\
        (rs = [] -> exists msg, o = Fatal msg)
    | Fatal msg => o = Fatal msg /\ tail = []
    end.
Proof.
  unfold round. rewrite bind_run.
  destruct (processBatches b 0 msgBufs w) as [[rs|msg] w1] eqn:Eb;
    apply processBatches_spec in Eb as (Hs1 & ups & Ht1 & Hup & Ho1); simpl.
  2: { intros [= <- <-]. exists ups, []. by rewrite app_nil_r. }
  destruct Ho1 as [Hlen Hok].
  destruct (last rs) as [lastResp|] eqn:El.
  2: { unfold fatal. intros [= <- <-]. exists ups, []. rewrite app_nil_r.
       repeat split; eauto. }
  assert (rs <> []) as Hne by (intros ->; discriminate).
  pose proof (scanErrors_spec rs []) as Hscan. simpl in Hscan.
  destruct (scanErrors rs []) as [[|e errs]|] eqn:Es.
  - destruct Hscan as [Hnil Hall].
    apply scanErrors_clean in Es as [_ Hclean].
    rewrite bind_run.
    destruct (signalAll b rs w1) as [o2 w2] eqn:Esig.
    apply signalAll_shape in Esig as (ok & k & ending & -> & Ht2 & Hend).
    destruct ok.
    + destruct Hend as [-> ->]. rewrite firstn_all, app_nil_r in Ht2.
      unfold markOffset.
      destruct (autoCommit b) eqn:Ea; simpl; intros [= <- <-]; simpl;
        exists ups; eexists;
        (split; [rewrite Ht2, Ht1, <- !app_assoc; simpl; reflexivity|]);
        (split; [done|]); repeat split; auto; try done;
        exists lastResp; rewrite Ea; split; done.
    + rewrite ret_run. intros [= <- <-]. destruct Hend as [Hlt Hend].
      exists ups, (map (signalledOk b) (take k rs) ++ ending).
      split; [by rewrite Ht2, Ht1, <- app_assoc|]. split; [done|].
      repeat split; auto; try done.
      right. right. split; [done|]. by exists k, ending.
  - destruct Hscan as [Herrs Hall].
    rewrite bind_run. unfold handleShutdown. simpl. rewrite bind_run.
    destruct (ctxDone _) as [d w2] eqn:Ed.
    apply ctxDone_world in Ed as (Ht2 & Hs2 & done & ->). simpl in Ht2, Hs2.
    destruct done; simpl; intros [= <- <-]; simpl;
      exists ups; eexists;
      (split; [rewrite ?Ht2, Ht1, <- ?app_assoc; reflexivity|]);
      (split; [done|]); repeat split; auto; try done;
      right; left; rewrite <- Herrs; (split; [done|]); [left | right]; done.
  - rewrite ret_run. intros [= <- <-]. exists ups, []. rewrite app_nil_r.
    repeat split; auto; try done. by left.
Qed.
End RoundShape.

Section RoundConsequences.
Import Batcher BatcherTrace.
Context `{Collaborators}.

Lemma uploadedOk_lookup rs ups r :
  Forall2 uploadedOk rs ups -> r ∈ rs ->
  exists body, EvUpload (batchID r) (s3Key r) body true ∈ ups.
Proof.
  intros Hall Hin. apply list_elem_of_lookup in Hin as [i Hi].
  destruct (Forall2_lookup_l _ _ _ _ _ Hall Hi) as (e & He & body & ->).
  exists body. by eapply list_elem_of_lookup_2.
Qed.

Lemma sentErrors_app (l1 l2 : list event) :
  sentErrors (l1 ++ l2) = (sentErrors l1 + sentErrors l2)%nat.
Proof. unfold sentErrors. by rewrite List.filter_app, length_app. Qed.

Lemma sentErrors_uploads (ups : list event) :
  Forall (fun e => isUpload e = true) ups -> sentErrors ups = 0%nat.
Proof.
  unfold sentErrors. induction 1 as [|e ups He _ IH]; [done|].
  simpl. by destruct e.
Qed.

Lemma sentErrors_signals b (rs : list response) :
  sentErrors (map (signalledOk b) rs) = 0%nat.
Proof. unfold sentErrors. induction rs as [|r rs IH]; [done | exact IH]. Qed.

Lemma roundTail_sentErrors b rs o tail :
  roundTail b rs o tail ->
  (sentErrors tail <= 1)%nat /\
  (sentErrors tail = 1%nat -> o = Val ProcessorReturned).
Proof.
  destruct o as [[|]|msg]; simpl.
  - intros (_ & lastResp & _ & ->). rewrite sentErrors_app, sentErrors_signals.
    destruct (autoCommit b); unfold sentErrors; simpl; split;
      (lia || discriminate).
  - intros [[_ ->]|[[_ [->| ->]]|(_ & k & ending & _ & -> & Hend)]];
      try (unfold sentErrors; simpl; split; [lia | done]).
    rewrite sentErrors_app, sentErrors_signals. split; [|done].
    destruct Hend as [->|(r & c & _ & [->| ->])]; unfold sentErrors; simpl; lia.
  - intros ->. unfold sentErrors. simpl. split; [lia | discriminate].
Qed.

Lemma round_sentErrors b msgBufs w o w' :
  round b msgBufs w = (o, w') ->
  selects w' = selects w /\
  exists evs, trace w' = trace w ++ evs /\
    (sentErrors evs <= 1)%nat /\
    (sentErrors evs = 1%nat -> o = Val ProcessorReturned).
Proof.
  intros Hr. pose proof (round_spec _ _ _ _ _ Hr) as [Hs _]. split; [done|].
  apply round_shape in Hr as (ups & tail & Ht & Hup & Hrest).
  exists (ups ++ tail). split; [done|].
  rewrite sentErrors_app, (sentErrors_uploads _ Hup). simpl.
  destruct (processBatches b 0 msgBufs w).1 as [rs|msg].
  - destruct Hrest as (_ & _ & Htail & _). by apply roundTail_sentErrors in Htail.
  - destruct Hrest as [-> ->]. unfold sentErrors. simpl.
    split; [lia | discriminate].
Qed.

Lemma ProcessLoop_sentErrors b fuel : forall w,
  exists evs, trace (ProcessLoop b fuel w).2 = trace w ++ evs /\
    (sentErrors evs <= 1)%nat /\
    (sentErrors evs = 1%nat -> (ProcessLoop b fuel w).1 = Val Returned).
Proof.
  induction fuel as [|fuel IH]; intros w; simpl.
  - exists []. rewrite app_nil_r. unfold sentErrors. simpl.
    repeat split; [lia | discriminate].
  - rewrite bind_run.
    destruct (drain_spec (maxConcurrency b) w) as (d & w1 & -> & Ht1 & _).
    destruct d as [|msgBufs|].
    1, 3: exists []; rewrite app_nil_r; unfold sentErrors; simpl;
      (split; [done|]); split; [lia | done].
    rewrite bind_run. destruct (round b msgBufs w1) as [o w2] eqn:Er.
    apply round_sentErrors in Er as (_ & evs & Ht2 & Hle & Hone).
    destruct o as [[|]|]; simpl.
    + destruct (IH w2) as (evs2 & Ht3 & Hle2 & Hone2).
      exists (evs ++ evs2). rewrite Ht3, Ht2, Ht1, app_assoc.
      split; [done|]. rewrite sentErrors_app.
      assert (sentErrors evs = 0%nat) as ->.
      { destruct (sentErrors evs) as [|[|n]]; [done | | lia].
        by specialize (Hone eq_refl). }
      simpl. by split.
    + exists evs. rewrite Ht2, Ht1. by repeat split.
    + exists evs. rewrite Ht2, Ht1. repeat split; [done|].
      intros H1. by specialize (Hone H1).
Qed.
End RoundConsequences.

(** X7: in a round, every load-job signal (sent or failed) goes to the loader
    topic of the processor's topic and comes after the successful upload of
    the same slot; the object of the job is the uploaded key in the
    processor's bucket. *)
Theorem signal_follows_its_upload `{Batcher.Collaborators}
    (b : Batcher.batchProcessor) (msgBufs : list (list Batcher.Message))
    (w w' : Batcher.world) (o : Batcher.outcome Batcher.roundEnd) :
  Batcher.round b msgBufs w = (o, w') ->
  exists ups tail,
    Batcher.trace w' = Batcher.trace w ++ ups ++ tail /\
    Forall (fun e => Batcher.isUpload e = true) ups /\
    forall batch toTopic job ok,
      Batcher.EvSignal batch toTopic job ok ∈ tail ->
      toTopic = Batcher.loaderTopicPrefix b +:+ Batcher.topic b /\
      exists key body,
        Batcher.EvUpload batch key body true ∈ ups /\
        Batcher.s3Path job = Batcher.GetKeyURI (Batcher.bucket b) key.
Proof.
  intros Hr. apply round_shape in Hr as (ups & tail & Ht & Hup & Hrest).
  exists ups, tail. split; [done|]. split; [done|].
  intros batch toTopic job ok Hin.
  destruct (Batcher.processBatches b 0 msgBufs w).1 as [rs|msg].
  2: { destruct Hrest as [_ ->]. by apply elem_of_nil in Hin. }
  destruct Hrest as (_ & Hok & Htail & _).
  assert (forall r, r ∈ rs -> Forall (fun r => Batcher.err r = None) rs ->
            forall ok', Batcher.EvSignal batch toTopic job ok =
                        Batcher.EvSignal (Batcher.batchID r)
                          (Batcher.loaderTopicPrefix b +:+ Batcher.topic b)
                          (Batcher.jobOf b r) ok' ->
            toTopic = Batcher.loaderTopicPrefix b +:+ Batcher.topic b /\
            exists key body,
              Batcher.EvUpload batch key body true ∈ ups /\
              Batcher.s3Path job = Batcher.GetKeyURI (Batcher.bucket b) key)
    as Hslot.
  { intros r Hr Hall ok' [= -> -> -> _]. split; [done|].
    destruct (uploadedOk_lookup rs ups r (Hok Hall) Hr) as [body Hbody].
    by exists (Batcher.s3Key r), body. }
  destruct o as [[|]|msg]; simpl in Htail.
  - destruct Htail as (Hall & lastResp & _ & ->).
    apply elem_of_app in Hin as [Hin|Hin].
    + apply list_elem_of_fmap in Hin as (r & Heq & Hr). by eapply Hslot.
    + apply elem_of_cons in Hin as [?|Hin]; [done|].
      destruct (Batcher.autoCommit b); [by apply elem_of_nil in Hin|].
      apply list_elem_of_singleton in Hin. done.
  - destruct Htail as [[_ ->]|[[_ [->| ->]]|(Hall & k & ending & _ & -> & Hend)]].
    + by apply elem_of_nil in Hin.
    + by apply list_elem_of_singleton in Hin.
    + apply elem_of_cons in Hin as [?|Hin]; [done|].
      by apply list_elem_of_singleton in Hin.
    + apply elem_of_app in Hin as [Hin|Hin].
      * apply list_elem_of_fmap in Hin as (r & Heq & Hr).
        eapply Hslot; [|done|exact Heq]. by eapply subseteq_take.
      * destruct Hend as [->|(r & c & Hr & [->| ->])].
        -- by apply elem_of_nil in Hin.
        -- apply list_elem_of_singleton in Hin.
           eapply Hslot; [|done|exact Hin]. by eapply list_elem_of_lookup_2.
        -- apply elem_of_cons in Hin as [Hin|Hin].
           ++ eapply Hslot; [|done|exact Hin]. by eapply list_elem_of_lookup_2.
           ++ apply elem_of_cons in Hin as [?|Hin]; [done|].
              by apply list_elem_of_singleton in Hin.
  - subst tail. by apply elem_of_nil in Hin.
Qed.

(** X8: a run of [Process] writes at most one error to the session's error
    channel, and a run that writes one returns. *)
Theorem Process_sends_at_most_one_error `{Batcher.Collaborators}
    (b : Batcher.batchProcessor) (w : Batcher.world) :
  exists evs,
    Batcher.trace (Batcher.Process b w).2 = Batcher.trace w ++ evs /\
    (BatcherTrace.sentErrors evs <= 1)%nat /\
    (BatcherTrace.sentErrors evs = 1%nat ->
     (Batcher.Process b w).1 = Batcher.Val Batcher.Returned).
Proof. unfold Batcher.Process. apply ProcessLoop_sentErrors. Qed.

Section HappyRoundWitness.
#[local] Existing Instance Scenario.schema.
#[local] Existing Instance Scenario.collaborators.

Lemma signal_follows_its_upload_witness :
  let b := Scenario.processor 0 in
  let bufs := [[Scenario.record 7 100; Scenario.record 7 101]] in
  let w := Scenario.start [] in
  let w' := (Batcher.round b bufs w).2 in
  exists ups tail,
    Batcher.trace w' = Batcher.trace w ++ ups ++ tail /\
    Forall (fun e => Batcher.isUpload e = true) ups /\
    forall batch toTopic job ok,
      Batcher.EvSignal batch toTopic job ok ∈ tail ->
      toTopic = Batcher.loaderTopicPrefix b +:+ Batcher.topic b /\
      exists key body,
        Batcher.EvUpload batch key body true ∈ ups /\
        Batcher.s3Path job = Batcher.GetKeyURI (Batcher.bucket b) key.
Proof.
  intros b bufs w w'.
  apply (signal_follows_its_upload b bufs w w' (Batcher.Val Batcher.RoundDone)).
  vm_compute. reflexivity.
Defined.
End HappyRoundWitness.

(** X9: a round with a slot abandoned because the session ended returns
    right after the slots: it closes nothing, sends no error, signals and
    marks nothing, whatever the other slots did. *)
Theorem abandoned_slot_ends_round_silently `{Batcher.Collaborators}
    (b : Batcher.batchProcessor) (msgBufs : list (list Batcher.Message))
    (w w1 : Batcher.world) (rs : list Batcher.response) :
  Batcher.processBatches b 0 msgBufs w = (Batcher.Val rs, w1) ->
  Exists (fun r => Batcher.err r = Some Batcher.ErrSaramaSessionContextDone) rs ->
  Batcher.round b msgBufs w = (Batcher.Val Batcher.ProcessorReturned, w1).
Proof.
  intros Hb Hex. unfold Batcher.round. rewrite bind_run, Hb.
  destruct (last rs) as [lastResp|] eqn:El.
  2: { apply last_None in El as ->. by apply Exists_nil in Hex. }
  pose proof (scanErrors_spec rs []) as Hscan.
  destruct (Batcher.scanErrors rs []) as [errs|]; [|reflexivity].
  destruct Hscan as [_ Hall]. apply Exists_exists in Hex as (r & Hin & Hr).
  rewrite Forall_forall in Hall. by destruct (Hall r Hin).
Qed.

(** X10: a round in which no slot was abandoned and some slot failed: the
    signaler is closed, and the errors of the failed slots, in slot order,
    are sent as one error unless the session is found done at that point;
    the processor returns, and nothing is signalled or marked. *)
Theorem failed_slots_are_reported_together `{Batcher.Collaborators}
    (b : Batcher.batchProcessor) (msgBufs : list (list Batcher.Message))
    (w w1 : Batcher.world) (rs : list Batcher.response) :
  Batcher.processBatches b 0 msgBufs w = (Batcher.Val rs, w1) ->
  Forall (fun r => Batcher.err r <> Some Batcher.ErrSaramaSessionContextDone) rs ->
  Exists (fun r => is_Some (Batcher.err r)) rs ->
  exists w',
    Batcher.round b msgBufs w = (Batcher.Val Batcher.ProcessorReturned, w') /\
    (Batcher.trace w' = Batcher.trace w1 ++ [Batcher.EvSignalerClose] \/
     Batcher.trace w' =
       Batcher.trace w1 ++
       [Batcher.EvSignalerClose;
        Batcher.EvSendErr (Batcher.SentMulti (omap Batcher.err rs))]).
Proof.
  intros Hb Hall Hex.
  destruct (Batcher.round b msgBufs w) as [o w'] eqn:Er. exists w'.
  revert Er. unfold Batcher.round. rewrite bind_run, Hb.
  destruct (last rs) as [lastResp|] eqn:El.
  2: { apply last_None in El as ->. by apply Exists_nil in Hex. }
  pose proof (scanErrors_spec rs []) as Hscan.
  destruct (Batcher.scanErrors rs []) as [errs|] eqn:Es.
  2: { apply Exists_exists in Hscan as (r & Hin & Hr).
       rewrite Forall_forall in Hall. by destruct (Hall r Hin). }
  destruct Hscan as [-> _]. simpl in Es.
  destruct (omap Batcher.err rs) as [|e errs] eqn:Eo.
  { apply scanErrors_clean in Es as [_ Hclean].
    apply Exists_exists in Hex as (r & Hin & [e He]).
    rewrite Forall_forall in Hclean. specialize (Hclean r Hin). congruence. }
  change ([] ++ e :: errs) with (e :: errs). cbv iota.
  rewrite bind_run. unfold Batcher.handleShutdown. simpl. rewrite bind_run.
  destruct (Batcher.ctxDone _) as [d w2] eqn:Ed.
  apply ctxDone_world in Ed as (Ht2 & _ & done & ->). simpl in Ht2.
  destruct done; simpl; intros [= <- <-]; (split; [reflexivity|]); simpl;
    rewrite ?Ht2, <- ?app_assoc; auto.
Qed.

Section SlotWitnesses.
#[local] Existing Instance Scenario.schema.
#[local] Existing Instance Scenario.collaborators.

Lemma abandoned_slot_ends_round_silently_witness :
  Batcher.round (Scenario.processor 0)
    [[Scenario.record 7 100]; [Scenario.record 7 101]]
    (Batcher.mkWorld [false; false; true] [] []) =
  (Batcher.Val Batcher.ProcessorReturned,
   Batcher.mkWorld [] []
     [Batcher.EvUpload 1 "bucketDir/g1-batcher/orders/100_offset_0_partition.json.gz"
        ("{}" +:+ Batcher.newline) true]).
Proof.
  eapply abandoned_slot_ends_round_silently.
  - vm_compute. reflexivity.
  - apply Exists_cons_tl, Exists_cons_hd. reflexivity.
Defined.

Lemma failed_slots_are_reported_together_witness :
  let bufs := [[Scenario.record 7 5; Scenario.record 7 6; Scenario.record 8 7]] in
  let w := Scenario.start [] in
  exists w',
    Batcher.round (Scenario.processor 0) bufs w =
      (Batcher.Val Batcher.ProcessorReturned, w') /\
    (Batcher.trace w' =
       Batcher.trace (Scenario.afterSlots bufs w) ++ [Batcher.EvSignalerClose] \/
     Batcher.trace w' =
       Batcher.trace (Scenario.afterSlots bufs w) ++
       [Batcher.EvSignalerClose;
        Batcher.EvSendErr
          (Batcher.SentMulti (omap Batcher.err (Scenario.slots bufs w)))]).
Proof.
  intros bufs w.
  apply (failed_slots_are_reported_together (Scenario.processor 0) bufs w
           (Scenario.afterSlots bufs w) (Scenario.slots bufs w)).
  - vm_compute. reflexivity.
  - vm_compute. by repeat constructor.
  - vm_compute. apply Exists_cons_hd. by eexists.
Defined.
End SlotWitnesses.

(** ** The read loop *)

Section ReadLoopFacts.
Import Batcher BatcherTrace.
Context `{Collaborators}.

Lemma buffersOf_app (l1 l2 : list selected) :
  buffersOf (l1 ++ l2) = buffersOf l1 ++ buffersOf l2.
Proof. unfold buffersOf. apply omap_app. Qed.

Lemma readLoop_ready mc sel : forall bufs ready rest,
  readLoop mc bufs sel = (DrainReady ready, rest) ->
  ready <> [] /\
  (Z.of_nat (length bufs) < mc -> Z.of_nat (length ready) <= mc) /\
  exists taken, sel = taken ++ rest /\ ready = bufs ++ buffersOf taken /\
    Forall (fun s => s <> SelDone) taken.
Proof.
  induction sel as [|s sel IH]; intros bufs ready rest; simpl; [discriminate|].
  destruct s as [|buf|]; [discriminate| |].
  - destruct (Z.of_nat (length (bufs ++ [buf])) =? mc) eqn:E.
    + intros [= <- <-]. apply Z.eqb_eq in E. split; [by destruct bufs|].
      split; [lia|]. exists [SelBuf buf].
      split; [reflexivity|]. split; [reflexivity|]. by repeat constructor.
    + intros Hr. apply Z.eqb_neq in E.
      apply IH in Hr as (Hne & Hlen & taken & -> & -> & Hnd).
      split; [done|]. split.
      * intros Hlt. apply Hlen. rewrite length_app in *. simpl in *. lia.
      * exists (SelBuf buf :: taken). rewrite <- app_assoc.
        split; [reflexivity|]. split; [reflexivity|]. by constructor.
  - destruct (0 <? Z.of_nat (length bufs)) eqn:E.
    + intros [= <- <-]. apply Z.ltb_lt in E. split; [by destruct bufs|].
      split; [lia|]. exists [SelTick]. rewrite app_nil_r.
      split; [reflexivity|]. split; [reflexivity|]. by repeat constructor.
    + intros Hr.
      apply IH in Hr as (Hne & Hlen & taken & -> & -> & Hnd).
      split; [done|]. split; [done|].
      exists (SelTick :: taken).
      split; [reflexivity|]. split; [reflexivity|]. by constructor.
Qed.

Lemma readLoop_done_drops mc bufs rest : forall acc,
  Z.of_nat (length (acc ++ bufs)) < mc ->
  readLoop mc acc (map SelBuf bufs ++ SelDone :: rest) = (DrainDone, rest).
Proof.
  induction bufs as [|buf bufs IH]; intros acc Hlt; simpl; [reflexivity|].
  assert ((Z.of_nat (length (acc ++ [buf])) =? mc) = false) as ->.
  { apply Z.eqb_neq. rewrite !length_app in *. simpl in *. lia. }
  apply IH. by rewrite <- app_assoc.
Qed.
End ReadLoopFacts.

(** X11: the buffers the read loop of [Process] hands to a round are never
    none; they are the buffers its [select] received since the last round, in
    order, the session not having ended meanwhile; and with a concurrency of
    at least 1 they are at most [maxConcurrency]. *)
Theorem readLoop_hands_over_bounded_batches `{Batcher.Collaborators}
    (maxConcurrency : Z) (sel rest : list Batcher.selected)
    (ready : list (list Batcher.Message)) :
  Batcher.readLoop maxConcurrency [] sel = (Batcher.DrainReady ready, rest) ->
  ready <> [] /\
  (1 <= maxConcurrency -> Z.of_nat (length ready) <= maxConcurrency) /\
  exists taken, sel = taken ++ rest /\ ready = BatcherTrace.buffersOf taken /\
    Forall (fun s => s <> Batcher.SelDone) taken.
Proof.
  intros Hr. apply readLoop_ready in Hr as (Hne & Hlen & taken & Hsel & Hready & Hnd).
  split; [done|]. split; [intros; apply Hlen; simpl; lia|]. by exists taken.
Qed.

(** X12: when the session ends while the read loop is still collecting
    (fewer than [maxConcurrency] buffers, no tick), [Process] returns and
    the buffers collected so far are dropped: nothing is uploaded, signalled
    or marked. *)
Theorem session_done_drops_collected_buffers `{Batcher.Collaborators}
    (b : Batcher.batchProcessor) (bufs : list (list Batcher.Message))
    (rest : list Batcher.selected) (w : Batcher.world) :
  Batcher.selects w = map Batcher.SelBuf bufs ++ Batcher.SelDone :: rest ->
  Z.of_nat (length bufs) < Batcher.maxConcurrency b ->
  Batcher.Process b w =
    (Batcher.Val Batcher.Returned,
     Batcher.mkWorld (Batcher.polls w) rest (Batcher.trace w)).
Proof.
  intros Hsel Hlt. unfold Batcher.Process. simpl. rewrite bind_run.
  unfold Batcher.drain. rewrite Hsel, readLoop_done_drops by done.
  reflexivity.
Qed.

Section ReadLoopWitnesses.
#[local] Existing Instance Scenario.schema.
#[local] Existing Instance Scenario.collaborators.

Lemma readLoop_hands_over_bounded_batches_witness :
  let m := Scenario.record 7 100 in
  Batcher.readLoop 2 []
    [Batcher.SelTick; Batcher.SelBuf [m]; Batcher.SelTick; Batcher.SelBuf [m]] =
    (Batcher.DrainReady [[m]], [Batcher.SelBuf [m]]) /\
  [[m]] <> [] /\ Z.of_nat (length [[m]]) <= 2.
Proof.
  intros m.
  assert (Batcher.readLoop 2 []
            [Batcher.SelTick; Batcher.SelBuf [m]; Batcher.SelTick; Batcher.SelBuf [m]] =
            (Batcher.DrainReady [[m]], [Batcher.SelBuf [m]])) as E
    by (vm_compute; reflexivity).
  split; [exact E|].
  destruct (readLoop_hands_over_bounded_batches _ _ _ _ E) as (Hne & Hlen & _).
  split; [exact Hne | apply Hlen; lia].
Defined.

Lemma session_done_drops_collected_buffers_witness :
  let m := Scenario.record 7 100 in
  let b := Batcher.mkBatchProcessor "orders" 0 "loader-" "g1-batcher" false
             "bucket" "bucketDir" "" false 3 1 2 in
  let w := Batcher.mkWorld []
             [Batcher.SelBuf [m]; Batcher.SelBuf [m]; Batcher.SelDone; Batcher.SelTick] [] in
  Batcher.Process b w =
  (Batcher.Val Batcher.Returned,
   Batcher.mkWorld (Batcher.polls w) [Batcher.SelTick] (Batcher.trace w)).
Proof.
  intros m b w.
  exact (session_done_drops_collected_buffers b [[m]; [m]] [Batcher.SelTick] w
           eq_refl ltac:(vm_compute; reflexivity)).
Defined.
End ReadLoopWitnesses.

(** ** The fatal endings of the processor *)

Section FatalFacts.
Import Batcher BatcherTrace.
Context `{Collaborators}.

Lemma processMessages_fatal b buf : forall r t w msg w',
  processMessages b buf r t w = (Fatal msg, w') -> msg = "Unkown operation".
Proof.
  induction buf as [|m buf IH]; intros r t w msg w'; simpl.
  - rewrite ret_run. discriminate.
  - rewrite bind_run. destruct (ctxDone w) as [d w1] eqn:Ed.
    apply ctxDone_world in Ed as (_ & _ & done & ->).
    destruct done; [rewrite ret_run; discriminate|].
    destruct (processMessage b m r) as [[[r1 m1] n] e].
    destruct e; [rewrite ret_run; discriminate|].
    destruct (MsgOperation m1); try (intros Hp; by apply IH in Hp).
    unfold fatal. by intros [= <- <-].
Qed.

Lemma processBatch_fatal b buf r w msg w' :
  processBatch b buf r w = (Fatal msg, w') ->
  msg = "Unkown operation" \/ msg = "Error in compressing, exitting".
Proof.
  unfold processBatch. rewrite bind_run.
  destruct (ctxDone w) as [d w1] eqn:Ed.
  apply ctxDone_world in Ed as (_ & _ & done & ->).
  destruct done; [rewrite ret_run; discriminate|].
  rewrite bind_run.
  destruct (processMessages b buf r 0 w1) as [[[[r1 t1] e1]|m] w2] eqn:Ep.
  2: { intros [= <- <-]. left. by eapply processMessages_fatal. }
  destruct e1; [rewrite ret_run; discriminate|].
  destruct (GzipWrite _); [|unfold fatal; intros [= <- <-]; by right].
  destruct (Upload _ _); rewrite bind_run; unfold emit; simpl; discriminate.
Qed.

Lemma processBatches_fatal b bufs : forall i w msg w',
  processBatches b i bufs w = (Fatal msg, w') ->
  msg = "Unkown operation" \/ msg = "Error in compressing, exitting".
Proof.
  induction bufs as [|buf bufs IH]; intros i w msg w'; simpl.
  - rewrite ret_run. discriminate.
  - rewrite bind_run.
    destruct (processBatch b buf (newResponse i) w) as [[r1|m] w1] eqn:E1.
    2: { intros [= <- <-]. by eapply processBatch_fatal. }
    rewrite bind_run.
    destruct (processBatches b (i + 1) bufs w1) as [[rs|m] w2] eqn:E2.
    + rewrite ret_run. discriminate.
    + intros [= <- <-]. by eapply IH.
Qed.

Lemma round_fatal b msgBufs w msg w' :
  msgBufs <> [] ->
  round b msgBufs w = (Fatal msg, w') ->
  msg = "Unkown operation" \/ msg = "Error in compressing, exitting".
Proof.
  intros Hne. unfold round. rewrite bind_run.
  destruct (processBatches b 0 msgBufs w) as [[rs|m] w1] eqn:E.
  2: { intros [= <- <-]. by eapply processBatches_fatal. }
  apply processBatches_spec in E as (_ & evs & _ & _ & Hlen & _).
  destruct (last rs) as [lastResp|] eqn:El.
  2: { apply last_None in El as ->. by destruct msgBufs. }
  destruct (scanErrors rs []) as [[|e errs]|]; [| |rewrite ret_run; discriminate].
  - rewrite bind_run. destruct (signalAll b rs w1) as [o w2] eqn:Es.
    apply signalAll_shape in Es as (ok & _ & _ & -> & _).
    destruct ok; [|rewrite ret_run; discriminate].
    unfold markOffset, emit. destruct (autoCommit b); discriminate.
  - unfold handleShutdown, emit. rewrite !bind_run. simpl.
    match goal with |- context [ctxDone ?x] =>
      destruct (ctxDone x) as [d w3] eqn:Ed end.
    apply ctxDone_world in Ed as (_ & _ & done & ->).
    destruct done; discriminate.
Qed.

Lemma ProcessLoop_fatal b fuel : forall w msg w',
  ProcessLoop b fuel w = (Fatal msg, w') ->
  msg = "Unkown operation" \/ msg = "Error in compressing, exitting".
Proof.
  induction fuel as [|fuel IH]; intros w msg w'; simpl.
  - rewrite ret_run. discriminate.
  - rewrite bind_run.
    destruct (drain_spec (maxConcurrency b) w) as (d & w1 & -> & _ & _ & Hd).
    destruct d as [|ready|]; try (rewrite ret_run; discriminate).
    rewrite bind_run. destruct (round b ready w1) as [[[]|m] w2] eqn:Er.
    + apply IH.
    + rewrite ret_run. discriminate.
    + intros [= <- <-]. eapply round_fatal; [|exact Er].
      by destruct (Hd ready eq_refl).
Qed.
End FatalFacts.

(** X13: [Process] ends the program ([klog.Fatalf]) for two reasons only: a
    message whose operation is none of create, update and delete, and a
    failure to compress the batch body.  In particular the fatal branch
    for a round without batches is never taken. *)
Theorem Process_dies_only_on_operation_or_compression `{Batcher.Collaborators}
    (b : Batcher.batchProcessor) (w w' : Batcher.world) (msg : string) :
  Batcher.Process b w = (Batcher.Fatal msg, w') ->
  msg = "Unkown operation" \/ msg = "Error in compressing, exitting".
Proof. unfold Batcher.Process. apply ProcessLoop_fatal. Qed.

Section FatalWitnesses.
#[local] Existing Instance Scenario.schema.
#[local] Existing Instance Scenario.collaborators.

Lemma Process_dies_only_on_operation_or_compression_witness :
  let m := Batcher.mkMessage 7 "orders" 0 100 ∅ 10
             (Batcher.OperationOther "TRUNCATE") ∅ ∅ in
  let w := Scenario.start [[m]] in
  (Batcher.Process (Scenario.processor 0) w).1 = Batcher.Fatal "Unkown operation" /\
  ("Unkown operation" = "Unkown operation" \/
   "Unkown operation" = "Error in compressing, exitting").
Proof.
  intros m w.
  assert (Batcher.Process (Scenario.processor 0) w =
            (Batcher.Fatal "Unkown operation", Batcher.mkWorld [] [] [])) as E
    by (vm_compute; reflexivity).
  split; [by rewrite E|].
  exact (Process_dies_only_on_operation_or_compression _ _ _ _ E).
Defined.
End FatalWitnesses.

(** ** The event counters of a batch *)

Section CounterFacts.
Import Batcher.
Context `{Collaborators}.

Lemma processMessage_counters b m r r' m' n e :
  processMessage b m r = (r', m', n, e) ->
  createEvents r' = createEvents r /\ updateEvents r' = updateEvents r /\
  deleteEvents r' = deleteEvents r.
Proof.
  unfold processMessage, lockSchema. intros Hp.
  repeat case_match; simplify_eq; simpl; auto.
Qed.

Lemma processMessages_counts b buf : forall r t w r' t' w',
  processMessages b buf r t w = (Val (r', t', None), w') ->
  0 <= createEvents r -> 0 <= updateEvents r -> 0 <= deleteEvents r ->
  createEvents r + updateEvents r + deleteEvents r + Z.of_nat (length buf)
    <= int64_max ->
  createEvents r <= createEvents r' /\ updateEvents r <= updateEvents r' /\
  deleteEvents r <= deleteEvents r' /\
  createEvents r' + updateEvents r' + deleteEvents r' =
    createEvents r + updateEvents r + deleteEvents r + Z.of_nat (length buf).
Proof.
  induction buf as [|m buf IH]; intros r t w r' t' w'; simpl length.
  - simpl. rewrite ret_run. intros [= <- <- <-]. lia.
  - cbn [processMessages]. rewrite bind_run.
    destruct (ctxDone w) as [d w1] eqn:Ed.
    apply ctxDone_world in Ed as (_ & _ & done & ->).
    destruct done; [rewrite ret_run; discriminate|].
    destruct (processMessage b m r) as [[[r1 m1] n] e] eqn:Ep.
    apply processMessage_counters in Ep as (Hc & Hu & Hd).
    destruct e; [rewrite ret_run; discriminate|].
    intros Hp H0c H0u H0d Hsum.
    unfold int64_max in Hsum.
    destruct (MsgOperation m1); [| | |discriminate];
      apply IH in Hp; simpl in *;
      rewrite ?add64_succ in * by (unfold int64_min, int64_max; lia);
      unfold int64_max; lia.
Qed.
End CounterFacts.

(** X14: a batch that [processBatch] ends without error (so the batch was
    uploaded) counts every message once: with a buffer of at most MaxInt64
    messages, [messagesProcessed] is the length of the buffer, the create,
    update and delete counters are non-negative and add up to it, and the
    body buffer has been reset. *)
Theorem uploaded_batch_counts_every_message `{Batcher.Collaborators}
    (b : Batcher.batchProcessor) (msgBuf : list Batcher.Message) (i : Z)
    (w w' : Batcher.world) (r : Batcher.response) :
  Batcher.processBatch b msgBuf (Batcher.newResponse i) w = (Batcher.Val r, w') ->
  Batcher.err r = None ->
  Z.of_nat (length msgBuf) <= int64_max ->
  Batcher.messagesProcessed r = Z.of_nat (length msgBuf) /\
  0 <= Batcher.createEvents r /\ 0 <= Batcher.updateEvents r /\
  0 <= Batcher.deleteEvents r /\
  Batcher.createEvents r + Batcher.updateEvents r + Batcher.deleteEvents r =
    Batcher.messagesProcessed r /\
  Batcher.bodyBuf r = "".
Proof.
  unfold Batcher.processBatch. rewrite bind_run.
  destruct (Batcher.ctxDone w) as [d w1] eqn:Ed.
  apply ctxDone_world in Ed as (_ & _ & done & ->).
  destruct done; [rewrite ret_run; by intros [= <- <-]|].
  rewrite bind_run.
  destruct (Batcher.processMessages b msgBuf (Batcher.newResponse i) 0 w1)
    as [[[[r1 t1] e1]|m] w2] eqn:Ep; [|discriminate].
  destruct e1; [rewrite ret_run; by intros [= <- <-]|].
  destruct (Batcher.GzipWrite _); [|discriminate].
  destruct (Batcher.Upload _ _); rewrite bind_run; unfold Batcher.emit; simpl;
    rewrite ?ret_run; intros [= <- <-]; [discriminate|].
  intros _ Hlen.
  apply processMessages_counts in Ep; simpl in *; unfold int64_max in *;
    try lia.
  destruct Ep as (? & ? & ? & ?). repeat split; lia.
Qed.

Section CounterWitnesses.
#[local] Existing Instance Scenario.schema.
#[local] Existing Instance Scenario.collaborators.

Lemma uploaded_batch_counts_every_message_witness :
  let msgBuf :=
    [Scenario.record 7 100;
     Batcher.mkMessage 7 "orders" 0 101 ∅ 10 Batcher.OperationDelete ∅ ∅;
     Batcher.mkMessage 7 "orders" 0 102 ∅ 10 Batcher.OperationUpdate ∅ ∅] in
  let r := Scenario.slots [msgBuf] (Scenario.start []) in
  exists r0, r = [r0] /\
    Batcher.messagesProcessed r0 = 3 /\
    0 <= Batcher.createEvents r0 /\ 0 <= Batcher.updateEvents r0 /\
    0 <= Batcher.deleteEvents r0 /\
    Batcher.createEvents r0 + Batcher.updateEvents r0 + Batcher.deleteEvents r0 =
      Batcher.messagesProcessed r0 /\
    Batcher.bodyBuf r0 = "".
Proof.
  intros msgBuf r.
  destruct (Batcher.processBatch (Scenario.processor 0) msgBuf
              (Batcher.newResponse 0) (Scenario.start [])) as [o w'] eqn:E.
  assert (exists r0, o = Batcher.Val r0 /\ r = [r0] /\ Batcher.err r0 = None)
    as (r0 & -> & Hr & He).
  { revert E. vm_compute. intros [= <- <-]. eexists. repeat split. }
  exists r0. split; [exact Hr|].
  apply (uploaded_batch_counts_every_message _ _ _ _ _ _ E He).
  vm_compute. discriminate.
Defined.
End CounterWitnesses.

(** ** Empty and null columns *)

Section ColumnFacts.
Import Batcher.
Context `{Collaborators}.

Lemma removeEmptyNullValues_lookup value k x :
  removeEmptyNullValues value !! k = Some x <->
  exists v, x = Some v /\ value !! k = Some (Some v) /\ TrimSpace v <> "".
Proof.
  unfold removeEmptyNullValues. rewrite lookup_omap.
  destruct (value !! k) as [[v|]|] eqn:E; simpl.
  - destruct (String.eqb (TrimSpace v) "") eqn:Et.
    + apply String.eqb_eq in Et. split; [discriminate|].
      intros (v' & _ & [= <-] & Hne). done.
    + apply String.eqb_neq in Et. split.
      * intros [= <-]. by exists v.
      * by intros (v' & -> & [= <-] & _).
  - split; [discriminate|]. by intros (v' & _ & [=] & _).
  - split; [discriminate|]. by intros (v' & _ & [=] & _).
Qed.
End ColumnFacts.

(** X15: [removeEmptyNullValues] leaves exactly the columns whose pointer is
    not nil and whose string is not blank after [strings.TrimSpace], each
    with its value untouched (the stored string is not trimmed); a second
    pass over its result removes nothing. *)
Theorem removeEmptyNullValues_keeps_filled_columns `{Batcher.Collaborators}
    (value : gmap string (option string)) :
  (forall k x,
     Batcher.removeEmptyNullValues value !! k = Some x <->
     exists v, x = Some v /\ value !! k = Some (Some v) /\
               Batcher.TrimSpace v <> "") /\
  Batcher.removeEmptyNullValues (Batcher.removeEmptyNullValues value) =
    Batcher.removeEmptyNullValues value.
Proof.
  split; [intros; apply removeEmptyNullValues_lookup|].
  apply map_eq. intros k. apply option_eq. intros x.
  rewrite !removeEmptyNullValues_lookup. split.
  - intros (v & -> & (v' & [= <-] & Hv & _)%removeEmptyNullValues_lookup & Hne).
    by exists v.
  - intros (v & -> & Hv & Hne). exists v. split; [done|]. split; [|done].
    apply removeEmptyNullValues_lookup. by exists v.
Qed.

(** ** Object keys of different batches *)

Section KeyInjectivity.
Import Filepath Batcher KeyText.

Lemma lacks_string_of_uint (d : Decimal.uint) :
  lacks "_" (NilEmpty.string_of_uint d) = true.
Proof. induction d; simpl; auto. Qed.

Lemma lacks_fmtInt (z : Z) : lacks "_" (fmtInt z) = true.
Proof.
  unfold fmtInt, NilZero.string_of_int, NilZero.string_of_uint.
  destruct (Z.to_int z) as [d|d]; destruct d; simpl;
    auto using lacks_string_of_uint.
Qed.

Lemma to_int_proper (z : Z) :
  Z.to_int z <> Decimal.Pos Decimal.Nil /\ Z.to_int z <> Decimal.Neg Decimal.Nil.
Proof.
  pose proof (DecimalZ.to_of (Z.to_int z)) as E. rewrite DecimalZ.of_to in E.
  split; intros Hz; rewrite Hz in E; discriminate.
Qed.

Lemma fmtInt_inj (z1 z2 : Z) : fmtInt z1 = fmtInt z2 -> z1 = z2.
Proof.
  unfold fmtInt. intros E.
  destruct (to_int_proper z1) as [H1 H1']. destruct (to_int_proper z2) as [H2 H2'].
  pose proof (NilZero.isi _ H1 H1') as E1. pose proof (NilZero.isi _ H2 H2') as E2.
  rewrite E in E1. rewrite E1 in E2. injection E2 as E2.
  rewrite <- (DecimalZ.of_to z1), <- (DecimalZ.of_to z2). by rewrite E2.
Qed.

Lemma append_inj_prefix (p a b : string) : p +:+ a = p +:+ b -> a = b.
Proof. induction p as [|c p IH]; simpl; [done|]. intros [= E]. auto. Qed.

Lemma append_split_at (c : ascii) : forall a1 a2 r1 r2,
  lacks c a1 = true -> lacks c a2 = true ->
  a1 +:+ String c r1 = a2 +:+ String c r2 -> a1 = a2 /\ r1 = r2.
Proof.
  induction a1 as [|x a1 IH]; intros [|y a2] r1 r2; simpl.
  - by intros _ _ [= ->].
  - intros _ [Hy _]%andb_true_iff [= <- _].
    by rewrite Ascii.eqb_refl in Hy.
  - intros [Hx _]%andb_true_iff _ [= -> _].
    by rewrite Ascii.eqb_refl in Hx.
  - intros [_ H1]%andb_true_iff [_ H2]%andb_true_iff [= -> E].
    destruct (IH _ _ _ H1 H2 E) as [-> ->]. done.
Qed.

Lemma s3FileName_inj o1 p1 o2 p2 :
  s3FileName o1 p1 = s3FileName o2 p2 -> o1 = o2 /\ p1 = p2.
Proof.
  unfold s3FileName. simpl. intros E.
  apply append_split_at in E as [Eo E]; auto using lacks_fmtInt.
  apply (append_inj_prefix "offset_") in E.
  apply append_split_at in E as [Ep _]; auto using lacks_fmtInt.
  split; by apply fmtInt_inj.
Qed.
End KeyInjectivity.

(** X16: under one directory layout (a bucket directory of proper path
    elements, proper group and topic, a mask version that is empty or
    proper) [constructS3key] gives different keys to batches that start at
    different offsets or lie on different partitions. *)
Theorem constructS3key_separates_batches (abs : bool) (dirs : list string)
    (mv group topic : string) (p1 o1 p2 o2 : Z) :
  KeyText.properLayout dirs mv group topic ->
  p1 <> p2 \/ o1 <> o2 ->
  Batcher.constructS3key mv ((if abs then "/" else "") +:+ Filepath.joinSep dirs)
    group topic p1 o1 <>
  Batcher.constructS3key mv ((if abs then "/" else "") +:+ Filepath.joinSep dirs)
    group topic p2 o2.
Proof.
  intros (Hne & Hall & Hmv) Hd.
  rewrite !constructS3key_layout by done.
  unfold Batcher.constructS3key_spec. rewrite ?append_assoc. intros E.
  repeat (apply append_inj_prefix in E).
  destruct (s3FileName_inj o1 p1 o2 p2) as [-> ->]; [exact E|].
  by destruct Hd.
Qed.

Lemma constructS3key_separates_batches_witness :
  KeyText.properLayout ["bucketDir"] "v1" "g1-batcher" "orders" /\
  Batcher.constructS3key "v1" "/bucketDir" "g1-batcher" "orders" 0 100 <>
  Batcher.constructS3key "v1" "/bucketDir" "g1-batcher" "orders" 0 102.
Proof.
  assert (KeyText.properLayout ["bucketDir"] "v1" "g1-batcher" "orders") as Hl.
  { split; [done|]. split; [by repeat constructor | by right]. }
  split; [exact Hl|].
  exact (constructS3key_separates_batches true ["bucketDir"] "v1" "g1-batcher"
           "orders" 0 100 0 102 Hl ltac:(right; lia)).
Defined.

(** ** What [calculate] returns *)

Section CalculateResult.
Import Realtime.
Variables dB dL : Z.

Lemma batcherSide_fixed mb topic info r :
  topicGroups (batcherSide mb topic (info, r)).2 = topicGroups r /\
  watcher (batcherSide mb topic (info, r)).2 = watcher r.
Proof. unfold batcherSide. repeat case_match; simplify_eq; auto. Qed.

Lemma loaderSide_fixed ml ltopic info r :
  topicGroups (loaderSide ml ltopic (info, r)).2 = topicGroups r /\
  watcher (loaderSide ml ltopic (info, r)).2 = watcher r.
Proof. unfold loaderSide. repeat case_match; simplify_eq; auto. Qed.

Lemma computeRealtime_fixed now hit topic ltopic info r rt :
  topicGroups (computeRealtime dB dL now hit topic ltopic info r rt).1 = topicGroups r /\
  watcher (computeRealtime dB dL now hit topic ltopic info r rt).1 = watcher r.
Proof.
  unfold computeRealtime. destruct (maxLag dB dL (rsk r) topic) as [mb ml].
  destruct (batcherSide_fixed mb topic info r) as [Hb1 Hb2].
  destruct (batcherSide mb topic (info, r)) as [i1 r1].
  destruct (loaderSide_fixed ml ltopic i1 r1) as [Hl1 Hl2].
  destruct (loaderSide ml ltopic (i1, r1)) as [i2 r2].
  simpl in *. split; congruence.
Qed.

Lemma calcTopic_fixed allTopics cur tk topic r rt :
  topicGroups (calcTopic dB dL allTopics cur tk topic (r, rt)).1 = topicGroups r /\
  watcher (calcTopic dB dL allTopics cur tk topic (r, rt)).1 = watcher r.
Proof.
  unfold calcTopic. destruct (topicGroups r !! topic) as [group|]; [|by auto].
  destruct (fetchRealtimeCache _ _ _ _) as [info hit]. destruct hit.
  { apply computeRealtime_fixed. }
  destruct (fetchRealtimeInfo _ _ _ _ _ _) as [[info' e] rsk'].
  destruct e as [e|]; [destruct (bool_decide (topic ∈ cur))|];
    [by auto | ..];
    match goal with
    | |- context [computeRealtime _ _ ?n ?h ?t ?lt ?i ?r0 ?rt0] =>
        destruct (computeRealtime_fixed n h t lt i r0 rt0) as [-> ->]; auto
    end.
Qed.

Lemma calcTopic_grouped allTopics cur tk topic r rt :
  (calcTopic dB dL allTopics cur tk topic (r, rt)).2 = rt \/
  ((calcTopic dB dL allTopics cur tk topic (r, rt)).2 = rt ++ [topic] /\
   is_Some (topicGroups r !! topic)).
Proof.
  destruct (topicGroups r !! topic) as [group|] eqn:Eg.
  - destruct (calcTopic_step dB dL allTopics cur tk topic r rt) as [[?|?] _]; eauto.
  - left. unfold calcTopic. by rewrite Eg.
Qed.

Lemma calcLoop_sublist allTopics cur ticks l : forall i r rt,
  exists added,
    (calcLoop dB dL allTopics cur ticks i l (r, rt)).2 = rt ++ added /\
    added `sublist_of` l /\
    Forall (fun t => is_Some (topicGroups r !! t)) added /\
    topicGroups (calcLoop dB dL allTopics cur ticks i l (r, rt)).1 = topicGroups r /\
    watcher (calcLoop dB dL allTopics cur ticks i l (r, rt)).1 = watcher r.
Proof.
  induction l as [|t l IH]; intros i r rt.
  - exists []. simpl. rewrite app_nil_r. repeat split; auto.
  - rewrite calcLoop_cons.
    destruct (calcTopic_fixed allTopics cur (ticks i) t r rt) as [Hg Hw].
    pose proof (calcTopic_grouped allTopics cur (ticks i) t r rt) as Hrt.
    destruct (calcTopic dB dL allTopics cur (ticks i) t (r, rt)) as [r1 rt1].
    cbn [fst snd] in *.
    destruct (IH (S i) r1 rt1) as (added & -> & Hsub & Hall & Hg1 & Hw1).
    rewrite Hg in Hall, Hg1. rewrite Hw in Hw1.
    destruct Hrt as [-> | [-> Hsome]].
    + exists added. repeat split; auto. by apply sublist_cons.
    + exists (t :: added). rewrite <- app_assoc. repeat split; auto.
      by apply sublist_skip.
Qed.
End CalculateResult.


(** ** One topic of [calculate] *)

Section CalculateTopic.
Import Realtime.
Variables dB dL : Z.

Lemma app_singleton_neq {A : Type} (l : list A) (x : A) : l ++ [x] <> l.
Proof.
  intros E. apply (f_equal length) in E. rewrite length_app in E. simpl in E. lia.
Qed.

Lemma batcherSide_info mb topic info r :
  let info' := (batcherSide mb topic (info, r)).1 in
  lastUpdate info' = lastUpdate info /\ batcher info' = batcher info /\
  loader info' = loader info /\ loaderRealtime info' = loaderRealtime info /\
  (batcherRealtime info = true -> batcherRealtime info' = true).
Proof. unfold batcherSide. repeat case_match; simplify_eq; simpl; auto. Qed.

Lemma loaderSide_info ml ltopic info r :
  let info' := (loaderSide ml ltopic (info, r)).1 in
  lastUpdate info' = lastUpdate info /\ batcher info' = batcher info /\
  loader info' = loader info /\ batcherRealtime info' = batcherRealtime info /\
  (loaderRealtime info = true -> loaderRealtime info' = true).
Proof. unfold loaderSide. repeat case_match; simplify_eq; simpl; auto. Qed.

(** The entry "compute realtime" stores for the topic. *)
Lemma computeRealtime_stored now hit topic ltopic info r rt :
  exists info',
    cache (computeRealtime dB dL now hit topic ltopic info r rt).1 !! topic =
      Some info' /\
    lastUpdate info' = (if hit then lastUpdate info else Some now) /\
    batcher info' = batcher info /\ loader info' = loader info /\
    (batcherRealtime info = true -> batcherRealtime info' = true) /\
    (loaderRealtime info = true -> loaderRealtime info' = true) /\
    ((computeRealtime dB dL now hit topic ltopic info r rt).2 = rt ++ [topic] <->
     batcherRealtime info' = true /\ loaderRealtime info' = true).
Proof.
  unfold computeRealtime. destruct (maxLag dB dL (rsk r) topic) as [mb ml].
  pose proof (batcherSide_info mb topic info r) as Hb.
  destruct (batcherSide mb topic (info, r)) as [i1 r1].
  pose proof (loaderSide_info ml ltopic i1 r1) as Hl.
  destruct (loaderSide ml ltopic (i1, r1)) as [i2 r2].
  cbn [fst snd] in *.
  destruct Hb as (Hb1 & Hb2 & Hb3 & Hb4 & Hb5).
  destruct Hl as (Hl1 & Hl2 & Hl3 & Hl4 & Hl5).
  exists (if hit then i2 else setLastUpdate i2 now).
  split; [simpl; by rewrite lookup_insert_eq|].
  assert (forall i, batcherRealtime (if hit then i else setLastUpdate i now) =
                    batcherRealtime i) as Eb by (by destruct hit).
  assert (forall i, loaderRealtime (if hit then i else setLastUpdate i now) =
                    loaderRealtime i) as El by (by destruct hit).
  rewrite Eb, El.
  split; [destruct hit; simpl; congruence|].
  split; [destruct hit; simpl; congruence|].
  split; [destruct hit; simpl; congruence|].
  split; [intros Ht; rewrite Hl4; auto|].
  split; [intros Ht; apply Hl5; congruence|].
  destruct (batcherRealtime i2), (loaderRealtime i2); simpl;
    split; try done; try (by intros [? ?]);
    intros E; symmetry in E; by apply app_singleton_neq in E.
Qed.

(** The iteration of a topic that occurs once in [reloading] decides
    whether [calculate] returns the topic, and leaves the topic's cache
    entry as [calculate] leaves it. *)
Lemma calculate_at ticks r0 pre post currentRealtime allTopics topic :
  let acc := calcLoop dB dL (toMap allTopics) (toMap currentRealtime) ticks 0
               pre (r0, []) in
  let step := calcTopic dB dL (toMap allTopics) (toMap currentRealtime)
                (ticks (length pre)) topic acc in
  let res := calculate dB dL ticks r0 (pre ++ topic :: post) currentRealtime in
  Topics (watcher r0) = Ok allTopics ->
  topic ∉ pre -> topic ∉ post ->
  (topic ∈ res.1 <-> step.2 = acc.2 ++ [topic]) /\
  cache res.2 !! topic = cache step.1 !! topic.
Proof.
  intros acc step res HT Hpre Hpost.
  subst res. rewrite (calculate_loop dB dL ticks r0 _ _ allTopics HT)
    by (by destruct pre).
  cbn [fst snd]. rewrite calcLoop_app, calcLoop_cons, Nat.add_0_r.
  fold acc. fold step.
  destruct (calcLoop_spec dB dL (toMap allTopics) (toMap currentRealtime)
              ticks pre 0 r0 []) as [(added1 & Hadd1 & Hsub1) _].
  fold acc in Hadd1. simpl in Hadd1.
  pose proof (calcTopic_step dB dL (toMap allTopics) (toMap currentRealtime)
                (ticks (length pre)) topic acc.1 acc.2) as [Hstep _].
  rewrite <- surjective_pairing in Hstep. fold step in Hstep.
  destruct (calcLoop_spec dB dL (toMap allTopics) (toMap currentRealtime)
              ticks post (S (length pre)) step.1 step.2)
    as [(added2 & Hadd2 & Hsub2) Hcache].
  rewrite <- surjective_pairing in Hadd2, Hcache.
  rewrite Hadd2, Hcache by done.
  assert (topic ∉ added1) as Hn1 by (intros Hin; apply Hpre; auto).
  assert (topic ∉ added2) as Hn2 by (intros Hin; apply Hpost; auto).
  split; [|done]. rewrite Hadd1 in *.
  destruct Hstep as [-> | ->].
  - split; [by intros [?|?]%elem_of_app|].
    intros E. symmetry in E. by apply app_singleton_neq in E.
  - split; [done|]. intros _.
    apply elem_of_app. left. apply elem_of_app. right. by left.
Qed.
End CalculateTopic.

(** X18: a reloading [topic], once in [reloading], whose iteration of
    [calculate] hits the cache.  The entry stored back keeps the cached
    timestamp and offsets (a hit does not renew the entry), a flag that was
    true in the cached entry stays true, and the topic is returned exactly
    when both flags of the stored entry are true. *)
Theorem cache_hit_keeps_entry_age (dB dL : Z)
    (ticks : nat -> Realtime.tick) (r0 : Realtime.realtimeCalculator)
    (pre post currentRealtime allTopics : list string) (topic : string)
    (group : Realtime.Group) (info : Realtime.topicRealtimeInfo) :
  let r :=
    (Realtime.calcLoop dB dL (Realtime.toMap allTopics)
       (Realtime.toMap currentRealtime) ticks 0 pre (r0, [])).1 in
  let tk := ticks (length pre) in
  let res := Realtime.calculate dB dL ticks r0 (pre ++ topic :: post) currentRealtime in
  Realtime.Topics (Realtime.watcher r0) = Ok allTopics ->
  topic ∉ pre -> topic ∉ post ->
  Realtime.topicGroups r !! topic = Some group ->
  Realtime.fetchRealtimeCache (Realtime.cache r) (Realtime.tDraw tk)
    (Realtime.tProbe tk) topic = (info, true) ->
  exists info',
    Realtime.cache res.2 !! topic = Some info' /\
    Realtime.lastUpdate info' = Realtime.lastUpdate info /\
    Realtime.batcher info' = Realtime.batcher info /\
    Realtime.loader info' = Realtime.loader info /\
    (Realtime.batcherRealtime info = true -> Realtime.batcherRealtime info' = true) /\
    (Realtime.loaderRealtime info = true -> Realtime.loaderRealtime info' = true) /\
    (topic ∈ res.1 <->
     Realtime.batcherRealtime info' = true /\ Realtime.loaderRealtime info' = true).
Proof.
  intros r tk res HT Hpre Hpost Hg Hhit.
  destruct (calculate_at dB dL ticks r0 pre post currentRealtime allTopics topic
              HT Hpre Hpost) as [Hin Hcache].
  fold res in Hin, Hcache. subst r tk.
  destruct (Realtime.calcLoop dB dL (Realtime.toMap allTopics)
              (Realtime.toMap currentRealtime) ticks 0 pre (r0, []))
    as [r1 rt1].
  cbn [fst snd] in *. unfold Realtime.calcTopic in Hin, Hcache.
  rewrite Hg, Hhit in Hin, Hcache.
  destruct (computeRealtime_stored dB dL (Realtime.tNow (ticks (length pre)))
              true topic (Realtime.loaderTopicName (Realtime.rsk r1) group topic)
              info r1 rt1)
    as (info' & Hc & Ht & Hb & Hl & Hbr & Hlr & Hret).
  exists info'. rewrite Hcache, Hin, Hret. done.
Qed.

(** X19: a reloading [topic], once in [reloading], whose iteration of
    [calculate] misses the cache and finds the batcher's consumer group
    without a committed offset (-1), or finds that the loader topic does not
    exist.  No error is raised, so the fallback for topics that were realtime
    before does not apply: the topic is not returned, whether or not it is in
    [currentRealtime]; the loader is not queried, and the entry is cached
    with the time of the iteration. *)
Theorem missing_group_or_loader_topic_is_not_realtime (dB dL : Z)
    (ticks : nat -> Realtime.tick) (r0 : Realtime.realtimeCalculator)
    (pre post currentRealtime allTopics : list string) (topic : string)
    (group : Realtime.Group) (batcherLast batcherCurrent : Z) :
  let r :=
    (Realtime.calcLoop dB dL (Realtime.toMap allTopics)
       (Realtime.toMap currentRealtime) ticks 0 pre (r0, [])).1 in
  let tk := ticks (length pre) in
  let ltopic := Realtime.loaderTopicName (Realtime.rsk r) group topic in
  let res := Realtime.calculate dB dL ticks r0 (pre ++ topic :: post) currentRealtime in
  Realtime.Topics (Realtime.watcher r0) = Ok allTopics ->
  topic ∉ pre -> topic ∉ post ->
  Realtime.topicGroups r !! topic = Some group ->
  (Realtime.fetchRealtimeCache (Realtime.cache r) (Realtime.tDraw tk)
     (Realtime.tProbe tk) topic).2 = false ->
  Realtime.LastOffset (Realtime.watcher r0) topic 0 = Ok batcherLast ->
  Realtime.CurrentOffset (Realtime.watcher r0)
    (Realtime.consumerGroupID (Realtime.Name (Realtime.rsk r))
       (Realtime.Namespace (Realtime.rsk r)) (Realtime.ID group) "-batcher")
    topic 0 = Ok batcherCurrent ->
  batcherCurrent = -1 \/ ltopic ∉ allTopics ->
  (topic ∉ res.1) /\
  exists info',
    Realtime.cache res.2 !! topic = Some info' /\
    Realtime.lastUpdate info' = Some (Realtime.tNow tk) /\
    Realtime.loader info' = Some (Realtime.mkOffsetPosition None None).
Proof.
  intros r tk ltopic res HT Hpre Hpost Hg Hmiss Hlast Hcur Hor.
  destruct (calculate_at dB dL ticks r0 pre post currentRealtime allTopics topic
              HT Hpre Hpost) as [Hin Hcache].
  fold res in Hin, Hcache.
  destruct (calcLoop_sublist dB dL (Realtime.toMap allTopics)
              (Realtime.toMap currentRealtime) ticks pre 0%nat r0 [])
    as (_ & _ & _ & _ & _ & Hw).
  fold r in Hw. rewrite <- Hw in Hlast, Hcur. clear Hw.
  subst r tk ltopic.
  destruct (Realtime.calcLoop dB dL (Realtime.toMap allTopics)
              (Realtime.toMap currentRealtime) ticks 0 pre (r0, []))
    as [r1 rt1].
  cbn [fst snd] in *. unfold Realtime.calcTopic in Hin, Hcache.
  rewrite Hg in Hin, Hcache.
  destruct (Realtime.fetchRealtimeCache _ _ _ _) as [i0 hit].
  simpl in Hmiss. subst hit.
  unfold Realtime.fetchRealtimeInfo in Hin, Hcache.
  rewrite Hlast, Hcur in Hin, Hcache.
  set (lt := Realtime.loaderTopicName (Realtime.rsk r1) group topic) in *.
  set (now := Realtime.tNow (ticks (length pre))) in *.
  assert (forall info,
    Realtime.loader info = Some (Realtime.mkOffsetPosition None None) ->
    Realtime.loaderRealtime info = false ->
    (Realtime.computeRealtime dB dL now false topic lt info
       (Realtime.setRsk r1 (Realtime.rsk r1)) rt1).2 <> rt1 ++ [topic] /\
    exists info',
      Realtime.cache
        (Realtime.computeRealtime dB dL now false topic lt info
           (Realtime.setRsk r1 (Realtime.rsk r1)) rt1).1 !! topic = Some info' /\
      Realtime.lastUpdate info' = Some now /\
      Realtime.loader info' = Some (Realtime.mkOffsetPosition None None))
    as Hfin.
  { intros info Hl Hlr.
    destruct (computeRealtime_stored dB dL now false topic lt info
                (Realtime.setRsk r1 (Realtime.rsk r1)) rt1)
      as (info' & Hc & Ht & _ & Hl' & _ & _ & _).
    split.
    - rewrite computeRealtime_no_loader_current; [|done|by rewrite Hl].
      intros E. symmetry in E. by apply app_singleton_neq in E.
    - exists info'. split; [exact Hc|]. split; [exact Ht|congruence]. }
  revert Hin Hcache. destruct (batcherCurrent =? -1) eqn:Eb.
  - lazy beta iota. intros Hin Hcache.
    edestruct Hfin as [H1 (info' & H2 & H3 & H4)];
      [| |split; [rewrite Hin; exact H1|exists info'; rewrite Hcache; eauto]];
      reflexivity.
  - apply Z.eqb_neq in Eb. destruct Hor as [?|Hnin]; [done|].
    rewrite bool_decide_eq_false_2
      by (unfold Realtime.toMap; by rewrite elem_of_list_to_set).
    lazy beta iota. intros Hin Hcache.
    edestruct Hfin as [H1 (info' & H2 & H3 & H4)];
      [| |split; [rewrite Hin; exact H1|exists info'; rewrite Hcache; eauto]];
      reflexivity.
Qed.

Section CacheWitnesses.
Import Realtime RealtimeScenario RealtimeCacheScenario.

Lemma cache_hit_keeps_entry_age_witness :
  let res := calculate 100 10 ticks cachedCalculator ["orders"] [] in
  exists info',
    cache res.2 !! "orders" = Some info' /\
    lastUpdate info' = Some 900 /\
    batcher info' = None /\ loader info' = None /\
    (true = true -> batcherRealtime info' = true) /\
    (true = true -> loaderRealtime info' = true) /\
    ("orders" ∈ res.1 <->
     batcherRealtime info' = true /\ loaderRealtime info' = true).
Proof.
  refine (cache_hit_keeps_entry_age 100 10 ticks cachedCalculator [] [] []
            ["orders"; "loader-reload-orders"] "orders" (mkGroup "reload" None)
            fallbackEntry eq_refl _ _ _ _);
    try (vm_compute; reflexivity); apply not_elem_of_nil.
Defined.

Lemma missing_group_or_loader_topic_is_not_realtime_witness :
  let res := calculate 100 10 ticks (calculator coldWatcher None)
               ["orders"] ["orders"] in
  ("orders" ∉ res.1) /\
  exists info',
    cache res.2 !! "orders" = Some info' /\
    lastUpdate info' = Some 1000 /\
    loader info' = Some (mkOffsetPosition None None).
Proof.
  refine (missing_group_or_loader_topic_is_not_realtime 100 10 ticks
            (calculator coldWatcher None) [] [] ["orders"]
            ["orders"; "loader-reload-orders"] "orders" (mkGroup "reload" None)
            1000 (-1) eq_refl _ _ _ _ eq_refl eq_refl _);
    try (vm_compute; reflexivity); try apply not_elem_of_nil.
  by left.
Defined.
End CacheWitnesses.
